(** * GaruchanResChecker: tracked-comment store and crawl engine

    A shallow embedding of the TypeScript sources
    (utils/pagination.ts, utils/validation.ts, constants/app-config.ts,
    services/storage-service.ts, services/comment-service.ts,
    services/crawler-service.ts and the unread accounter of
    entrypoints/background.ts) together with the properties the design
    document states about them.

    Conventions of the embedding:
    - a JavaScript number that holds a count, a version or an epoch time is
      a mathematical integer ([Z]); [NaN] is kept apart where the code can
      produce it.  The embedding is exact as long as the integers stay in
      the double-precision safe range (up to [Js.MAX_SAFE_INTEGER]), which
      holds for every identifier accepted by [validateCommentNumber] (at
      most ten digits); beyond it the host rounds and the embedding says
      nothing, so the properties of page numbers are stated within it;
    - a JavaScript string is a [string] of code units below 256; a string
      that holds a date is kept as what [Date] makes of it;
    - asynchronous functions are state-passing computations over [World]
      that either return a value or throw; every [await]ed storage call may
      throw, as dictated by the fault schedule of the world; what the site
      answers to a page request is taken from the world as well.

    The definitions come first, module by module of the sources; the
    properties follow: page numbers, the store, the crawl of one entry,
    overlapping cycles, capacity eviction. *)

From Stdlib Require Import ZArith QArith Lia Ascii String.
From stdpp Require Import gmap strings list sorting.

Open Scope Z_scope.

(** ** JavaScript primitives *)

Module Js.

(** [undefined], [null] or a value: a field of a decoded record. *)
Inductive Nullable (A : Type) : Type :=
| Undefined
| Null
| Val (a : A).
Global Arguments Undefined {A}.
Global Arguments Null {A}.
Global Arguments Val {A} a.

(** [x ?? d] *)
Definition nullish {A} (d : A) (x : Nullable A) : A :=
  match x with Val a => a | _ => d end.

(** [x == null] *)
Definition is_nullish {A} (x : Nullable A) : bool :=
  match x with Val _ => false | _ => true end.

(** The result of an arithmetic expression: an integer or [NaN]. *)
Inductive Num : Type :=
| NaN
| Int (z : Z).

(** [ToNumber] on a nullable numeric field: [undefined] is [NaN],
    [null] is [0]. *)
Definition ToNumber (x : Nullable Z) : Num :=
  match x with
  | Undefined => NaN
  | Null => Int 0
  | Val z => Int z
  end.

(** [a - b] where [a] is a number. *)
Definition sub (a : Z) (b : Num) : Num :=
  match b with NaN => NaN | Int z => Int (a - z) end.

(** [d !== 0] *)
Definition nonzero (d : Num) : bool :=
  match d with NaN => true | Int z => negb (z =? 0) end.

(** [!d]: a number is falsy when it is [0] or [NaN]. *)
Definition falsy (d : Num) : bool :=
  match d with NaN => true | Int z => z =? 0 end.

(** [a !== b] between a number and a nullable numeric field. *)
Definition strict_ne (a : Z) (b : Nullable Z) : bool :=
  match b with Val z => negb (a =? z) | _ => true end.

(** A string that holds a date, seen through [new Date(s).getTime()]:
    the field is falsy (missing, [null] or empty), or a non-empty string
    the host cannot parse ([getTime()] is [NaN]), or an instant in
    milliseconds since the epoch.  [new Date().toISOString()] always
    yields an instant. *)
Inductive DateString : Type :=
| NoDate
| InvalidDate
| Instant (ms : Z).

(** truthiness of the string *)
Definition truthy (d : DateString) : bool :=
  match d with NoDate => false | _ => true end.

(** [new Date(d).getTime()], [None] standing for [NaN] *)
Definition getTime (d : DateString) : option Z :=
  match d with Instant ms => Some ms | _ => None end.

Definition is_digit (c : ascii) : bool :=
  let n := nat_of_ascii c in ((48 <=? n) && (n <=? 57))%nat.

Definition digit_val (c : ascii) : Z := Z.of_nat (nat_of_ascii c) - 48.

Definition digit_char (d : Z) : ascii := ascii_of_nat (48 + Z.to_nat d).

(** White space and line terminators below code unit 256
    (TAB, LF, VT, FF, CR, SP, NBSP). *)
Definition is_white_space (c : ascii) : bool :=
  let n := nat_of_ascii c in
  ((n =? 9) || (n =? 10) || (n =? 11) || (n =? 12) || (n =? 13)
   || (n =? 32) || (n =? 160))%nat.

Fixpoint skip_white_space (s : string) : string :=
  match s with
  | String c r => if is_white_space c then skip_white_space r else s
  | EmptyString => s
  end.

(** The longest prefix of decimal digits, as digit values. *)
Fixpoint leading_digits (s : string) : list Z :=
  match s with
  | String c r => if is_digit c then digit_val c :: leading_digits r else []
  | EmptyString => []
  end.

Definition digits_value (ds : list Z) : Z :=
  fold_left (fun acc d => 10 * acc + d) ds 0.

(** [Number.MAX_SAFE_INTEGER]: up to here every integer is a double. *)
Definition MAX_SAFE_INTEGER : Z := 2 ^ 53 - 1.

(** [parseInt(s, 10)]; [None] stands for [NaN].  The result is the exact
    integer the digits denote.  The host returns the nearest double, which
    is that integer as long as it is at most [MAX_SAFE_INTEGER]; the
    properties below use [parseInt] within that range only. *)
Definition parseInt (s : string) : option Z :=
  let s1 := skip_white_space s in
  let '(sign, s2) :=
    match s1 with
    | String "-"%char r => (-1, r)
    | String "+"%char r => (1, r)
    | _ => (1, s1)
    end in
  match leading_digits s2 with
  | [] => None
  | ds => Some (sign * digits_value ds)
  end.

(** Decimal digits of a non-negative integer, most significant first. *)
Fixpoint digits_of (fuel : nat) (n : Z) (acc : list Z) : list Z :=
  match fuel with
  | O => acc
  | S fuel' =>
      let acc' := (n mod 10) :: acc in
      if n / 10 =? 0 then acc' else digits_of fuel' (n / 10) acc'
  end.

Definition decimal (n : Z) : string :=
  string_of_list_ascii
    (map digit_char (digits_of (S (Z.to_nat (Z.log2 n))) n [])).

(** [String(n)] for an integer [n], in plain decimal digits.  The host
    prints a number this way below [10^21] and switches to exponent
    notation from there on; the properties below use [toString] on safe
    integers only. *)
Definition toString (n : Z) : string :=
  if n <? 0 then String "-"%char (decimal (- n)) else decimal n.

End Js.

(** ** constants/app-config.ts *)

Module CRAWLER_CONFIG.
Definition ACTIVE_DELAY_MS : Z := 3000.
Definition IDLE_DELAY_MS : Z := 60000.
Definition SKIP_AFTER_DAYS : Z := 31.
End CRAWLER_CONFIG.

Module PAGINATION.
Definition COMMENTS_PER_PAGE : Z := 500.
End PAGINATION.

Module OPTIMISTIC_LOCK.
Definition MAX_RETRIES : nat := 3.
Definition INITIAL_BACKOFF_MS : Z := 100.
End OPTIMISTIC_LOCK.

Module COMMENT_ENTRY_CONFIG.
Definition MAX_ENTRIES : nat := 1000.
End COMMENT_ENTRY_CONFIG.

Module SITE_CONFIG.
Definition BASE_URL : string := "https://girlschannel.net".
End SITE_CONFIG.

(** ** utils/pagination.ts *)

Definition calculatePageNumber (commentNumber : string) : string :=
  match Js.parseInt commentNumber with
  | None => "1"
  | Some n =>
      if n <=? 0 then "1"
      else Js.toString ((n - 1) / PAGINATION.COMMENTS_PER_PAGE + 1)
  end.

(** ** utils/validation.ts *)

Fixpoint all_digits (s : string) : bool :=
  match s with
  | String c r => Js.is_digit c && all_digits r
  | EmptyString => true
  end.

(** [VALIDATION_PATTERNS.ID], the pattern [^\d{1,10}$]. *)
Definition matches_ID (s : string) : bool :=
  ((1 <=? String.length s) && (String.length s <=? 10))%nat && all_digits s.

Definition validateTopicId (topicId : string) : bool := matches_ID topicId.

Definition validateCommentNumber (commentNumber : string) : bool :=
  matches_ID commentNumber.


(** ** types/comment.ts *)

Record CommentEntry : Type := mkCommentEntry {
  topicId : string;
  topicTitle : option string;
  commentNumber : string;
  postedAt : Js.DateString;
  commentBody : option string;
  resCount : Js.Nullable Z;
  unreadCount : Js.Nullable Z;
  createdAt : Js.DateString;
  updatedAt : Js.DateString;
  version : option Z
}.

(** [{ ...entry, version: v, updatedAt: t }] *)
Definition with_version_updatedAt (v : Z) (t : Js.DateString)
    (entry : CommentEntry) : CommentEntry :=
  {| topicId := topicId entry; topicTitle := topicTitle entry;
     commentNumber := commentNumber entry; postedAt := postedAt entry;
     commentBody := commentBody entry; resCount := resCount entry;
     unreadCount := unreadCount entry; createdAt := createdAt entry;
     updatedAt := t; version := Some v |}.

(** [{ ...entry, resCount: r, unreadCount: u, updatedAt: t }] *)
Definition with_counts_updatedAt (r u : Z) (t : Js.DateString)
    (entry : CommentEntry) : CommentEntry :=
  {| topicId := topicId entry; topicTitle := topicTitle entry;
     commentNumber := commentNumber entry; postedAt := postedAt entry;
     commentBody := commentBody entry; resCount := Js.Val r;
     unreadCount := Js.Val u; createdAt := createdAt entry;
     updatedAt := t; version := version entry |}.

(** ** The world the services run in *)

(** Observable effects, newest first in the log. *)
Inductive Event : Type :=
| EvFetch (url : string)
| EvSetComment (key : string) (entry : CommentEntry)
| EvRemoveComment (key : string)
| EvSetUnreadTotal (total : Z).

Record World : Type := mkWorld {
  (** [browser.storage.local]: the comment records, by storage key *)
  local_comments : gmap string CommentEntry;
  (** the item [local:unreadTotal] *)
  unread_total : option Z;
  (** the item [local:crawler:enabled] *)
  crawler_enabled : option bool;
  (** [commentCache], a [Map] in insertion order *)
  commentCache : list (string * CommentEntry);
  (** the module variable [isCrawling] *)
  isCrawling : bool;
  (** the system clock, in milliseconds since the epoch *)
  clock : Z;
  (** whether each coming storage call throws *)
  faults : list bool;
  (** what each coming page request yields after parsing: a reply count,
      or nothing (network error, missing element, unparsable text) *)
  remote : list (option Z);
  (** the effects performed so far *)
  trace : list Event
}.

Definition with_local_comments (m : gmap string CommentEntry) (w : World) : World :=
  mkWorld m (unread_total w) (crawler_enabled w) (commentCache w)
    (isCrawling w) (clock w) (faults w) (remote w) (trace w).

Definition with_unread_total (t : option Z) (w : World) : World :=
  mkWorld (local_comments w) t (crawler_enabled w) (commentCache w)
    (isCrawling w) (clock w) (faults w) (remote w) (trace w).

Definition with_commentCache (c : list (string * CommentEntry)) (w : World) : World :=
  mkWorld (local_comments w) (unread_total w) (crawler_enabled w) c
    (isCrawling w) (clock w) (faults w) (remote w) (trace w).

Definition with_isCrawling (b : bool) (w : World) : World :=
  mkWorld (local_comments w) (unread_total w) (crawler_enabled w)
    (commentCache w) b (clock w) (faults w) (remote w) (trace w).

Definition with_clock (t : Z) (w : World) : World :=
  mkWorld (local_comments w) (unread_total w) (crawler_enabled w)
    (commentCache w) (isCrawling w) t (faults w) (remote w) (trace w).

Definition with_faults (f : list bool) (w : World) : World :=
  mkWorld (local_comments w) (unread_total w) (crawler_enabled w)
    (commentCache w) (isCrawling w) (clock w) f (remote w) (trace w).

Definition with_remote (r : list (option Z)) (w : World) : World :=
  mkWorld (local_comments w) (unread_total w) (crawler_enabled w)
    (commentCache w) (isCrawling w) (clock w) (faults w) r (trace w).

Definition log (e : Event) (w : World) : World :=
  mkWorld (local_comments w) (unread_total w) (crawler_enabled w)
    (commentCache w) (isCrawling w) (clock w) (faults w) (remote w)
    (e :: trace w).

(** How a call ends: with a value, or with an exception. *)
Inductive Completion (A : Type) : Type :=
| Return (a : A)
| Throw.
Global Arguments Return {A} a.
Global Arguments Throw {A}.

(** An asynchronous function, run to completion. *)
Definition M (A : Type) : Type := World → Completion A * World.

#[global] Instance M_ret : MRet M := λ A a w, (Return a, w).

#[global] Instance M_bind : MBind M := λ A B f m w,
  match m w with
  | (Return a, w') => f a w'
  | (Throw, w') => (Throw, w')
  end.

(** [try { body } catch { handler }] *)
Definition try_catch {A} (body handler : M A) : M A := λ w,
  match body w with
  | (Throw, w') => handler w'
  | r => r
  end.

(** Reading and updating the world. *)
Definition gets {A} (f : World → A) : M A := λ w, (Return (f w), w).

Definition modify (f : World → World) : M unit := λ w, (Return tt, f w).

(** Every storage call consults the fault schedule first. *)
Definition storage_call : M unit := λ w,
  (if default false (head (faults w)) then Throw else Return tt,
   with_faults (tail (faults w)) w).

(** [storage.getItem<CommentEntry>(key)] *)
Definition storage_getItem (key : string) : M (option CommentEntry) :=
  storage_call;; gets (λ w, local_comments w !! key).

(** [storage.setItem(key, entry)] *)
Definition storage_setItem (key : string) (entry : CommentEntry) : M unit :=
  storage_call;;
  modify (λ w, log (EvSetComment key entry)
                 (with_local_comments (<[key := entry]> (local_comments w)) w)).

(** [storage.removeItem(key)] *)
Definition storage_removeItem (key : string) : M unit :=
  storage_call;;
  modify (λ w, log (EvRemoveComment key)
                 (with_local_comments (delete key (local_comments w)) w)).

(** [storage.getItem<boolean>(STORAGE_KEYS.CRAWLER_ENABLED)] *)
Definition storage_getItem_CRAWLER_ENABLED : M (option bool) :=
  storage_call;; gets crawler_enabled.

(** [storage.getItem<number>(STORAGE_KEYS.UNREAD_TOTAL)] *)
Definition storage_getItem_UNREAD_TOTAL : M (option Z) :=
  storage_call;; gets unread_total.

(** [storage.setItem(STORAGE_KEYS.UNREAD_TOTAL, next)] *)
Definition storage_setItem_UNREAD_TOTAL (next : Z) : M unit :=
  storage_call;;
  modify (λ w, log (EvSetUnreadTotal next) (with_unread_total (Some next) w)).

(** [new Date().getTime()] *)
Definition Date_now : M Z := gets clock.

(** ** services/storage-service.ts *)

Definition getCommentKey (topicId commentNumber : string) : string :=
  topicId +:+ ":" +:+ commentNumber.

Definition COMMENT_PREFIX : string := "comment:".

Definition getStorageKey (topicId commentNumber : string) : string :=
  "local:" +:+ COMMENT_PREFIX +:+ topicId +:+ ":" +:+ commentNumber.

(** [sleep(ms)]: the timer fires once the clock has advanced by [ms]. *)
Definition sleep (ms : Z) : M unit := modify (λ w, with_clock (clock w + ms) w).

(** The three exits of [saveCommentWithOptimisticLock]:
    [return true], the early [return false], the final [return false]. *)
Inductive PutOutcome : Type :=
| Written
| RejectedStale
| RetriesExhausted.

Definition outcome_result (o : PutOutcome) : bool :=
  match o with Written => true | _ => false end.

(** The guard [current && current.updatedAt && entry.updatedAt] together
    with [currentTime > entryTime]; a comparison with [NaN] is false. *)
Definition existing_is_newer (current : option CommentEntry)
    (entry : CommentEntry) : bool :=
  match current with
  | Some cur =>
      if Js.truthy (updatedAt cur) && Js.truthy (updatedAt entry) then
        match Js.getTime (updatedAt cur), Js.getTime (updatedAt entry) with
        | Some currentTime, Some entryTime => entryTime <? currentTime
        | _, _ => false
        end
      else false
  | None => false
  end.

(** The body of the [try] block of one attempt. *)
Definition saveAttempt (entry : CommentEntry) : M PutOutcome :=
  let storageKey := getStorageKey (topicId entry) (commentNumber entry) in
  current ← storage_getItem storageKey;
  if existing_is_newer current entry then mret RejectedStale
  else
    let currentVersion := default 0 (current ≫= version) in
    let newVersion := currentVersion + 1 in
    now ← Date_now;
    let toSave := with_version_updatedAt newVersion (Js.Instant now) entry in
    storage_setItem storageKey toSave;;
    mret Written.

(** The [for] loop, with [remaining = maxRetries - attempt]. *)
Fixpoint saveRetryLoop (entry : CommentEntry) (maxRetries remaining : nat)
    : M PutOutcome :=
  match remaining with
  | O => mret RetriesExhausted
  | S remaining' =>
      let attempt := (maxRetries - remaining)%nat in
      try_catch (saveAttempt entry)
        ((if (attempt <? maxRetries - 1)%nat
          then sleep (OPTIMISTIC_LOCK.INITIAL_BACKOFF_MS * 2 ^ Z.of_nat attempt)
          else mret tt);;
         saveRetryLoop entry maxRetries remaining')
  end.

(** [saveCommentWithOptimisticLock], telling which exit was taken. *)
Definition saveCommentWithOptimisticLock_outcome (entry : CommentEntry)
    (maxRetries : nat) : M PutOutcome :=
  saveRetryLoop entry maxRetries maxRetries.

(** [maxRetries] defaults to [OPTIMISTIC_LOCK.MAX_RETRIES]. *)
Definition saveCommentWithOptimisticLock (entry : CommentEntry)
    (maxRetries : nat) : M bool :=
  o ← saveCommentWithOptimisticLock_outcome entry maxRetries;
  mret (outcome_result o).

(** [storage.removeItem(getStorageKey(topicId, commentNumber))] *)
Definition deleteCommentFromStorage (topicId commentNumber : string) : M unit :=
  storage_removeItem (getStorageKey topicId commentNumber).

(** ** services/comment-service.ts *)

(** [Map.prototype.get] *)
Fixpoint Map_get (key : string) (m : list (string * CommentEntry))
    : option CommentEntry :=
  match m with
  | [] => None
  | (k, v) :: rest => if decide (k = key) then Some v else Map_get key rest
  end.

(** [Map.prototype.set]: an existing key keeps its place, a new key goes
    to the end. *)
Fixpoint Map_set (key : string) (v : CommentEntry)
    (m : list (string * CommentEntry)) : list (string * CommentEntry) :=
  match m with
  | [] => [(key, v)]
  | (k, x) :: rest =>
      if decide (k = key) then (key, v) :: rest else (k, x) :: Map_set key v rest
  end.

(** [Map.prototype.delete] *)
Fixpoint Map_delete (key : string) (m : list (string * CommentEntry))
    : list (string * CommentEntry) :=
  match m with
  | [] => []
  | (k, x) :: rest =>
      if decide (k = key) then rest else (k, x) :: Map_delete key rest
  end.

Definition getAllCommentsFromCache : M (list CommentEntry) :=
  gets (λ w, (commentCache w).*2).

Definition getCommentFromCache (topicId commentNumber : string)
    : M (option CommentEntry) :=
  let key := getCommentKey topicId commentNumber in
  gets (λ w, Map_get key (commentCache w)).

Definition deleteComment (topicId commentNumber : string) : M unit :=
  let key := getCommentKey topicId commentNumber in
  deleteCommentFromStorage topicId commentNumber;;
  modify (λ w, with_commentCache (Map_delete key (commentCache w)) w).

(** The comparator [(a, b) => timeA - timeB]; [None] stands for [NaN]. *)
Definition compareUpdatedAt (a b : CommentEntry) : option Z :=
  match Js.getTime (updatedAt a), Js.getTime (updatedAt b) with
  | Some timeA, Some timeB => Some (timeA - timeB)
  | _, _ => None
  end.

(** [v < 0] for a comparator result; [NaN] counts as [0]. *)
Definition negative (v : option Z) : bool :=
  match v with Some z => z <? 0 | None => false end.

(** [Array.prototype.sort] is stable: an element moves in front of those
    that compare strictly greater, and of no others.  With a comparator
    that is a consistent order (here: every [updatedAt] an instant) this
    is the result of every stable sort. *)
Fixpoint sort_insert (cmp : CommentEntry → CommentEntry → option Z)
    (x : CommentEntry) (sorted : list CommentEntry) : list CommentEntry :=
  match sorted with
  | [] => [x]
  | y :: rest =>
      if negative (cmp y x) then y :: sort_insert cmp x rest
      else x :: y :: rest
  end.

Fixpoint Array_sort (cmp : CommentEntry → CommentEntry → option Z)
    (l : list CommentEntry) : list CommentEntry :=
  match l with
  | [] => []
  | x :: rest => sort_insert cmp x (Array_sort cmp rest)
  end.

(** [for (const x of l) { await f(x); }] *)
Fixpoint for_each {A} (f : A → M unit) (l : list A) : M unit :=
  match l with
  | [] => mret tt
  | x :: rest => f x;; for_each f rest
  end.

Definition enforceMaxEntries : M unit :=
  allComments ← getAllCommentsFromCache;
  let currentCount := length allComments in
  let maxEntries := COMMENT_ENTRY_CONFIG.MAX_ENTRIES in
  if (currentCount <=? maxEntries)%nat then mret tt
  else
    let deleteCount := (currentCount - maxEntries)%nat in
    let sortedComments := Array_sort compareUpdatedAt allComments in
    let toDelete := take deleteCount sortedComments in
    for_each (λ comment, deleteComment (topicId comment) (commentNumber comment))
      toDelete.

Definition saveComment (entry : CommentEntry) : M (option CommentEntry) :=
  let key := getCommentKey (topicId entry) (commentNumber entry) in
  saved ← saveCommentWithOptimisticLock entry OPTIMISTIC_LOCK.MAX_RETRIES;
  if negb saved then mret None
  else
    let storageKey :=
      "local:comment:" +:+ topicId entry +:+ ":" +:+ commentNumber entry in
    updatedEntry ← storage_getItem storageKey;
    match updatedEntry with
    | Some e => modify (λ w, with_commentCache (Map_set key e (commentCache w)) w)
    | None => mret tt
    end;;
    enforceMaxEntries;;
    mret updatedEntry.

(** ** entrypoints/background.ts: the unread accounter *)

Definition getUnreadTotal : M Z :=
  v ← storage_getItem_UNREAD_TOTAL;
  mret (default 0 v).

(** [Math.max(0, Math.floor(value))] on an integer, then the write.  The
    badge update and the popup notification that follow are wrapped in
    [try]/[catch] and touch nothing of the world. *)
Definition setUnreadTotal (value : Z) : M unit :=
  let next := Z.max 0 value in
  storage_setItem_UNREAD_TOTAL next.

Definition adjustUnread (delta : Js.Num) : M unit :=
  match delta with
  | Js.NaN => mret tt
  | Js.Int d =>
      if Js.falsy delta then mret tt
      else cur ← getUnreadTotal; setUnreadTotal (cur + d)
  end.

(** ** services/crawler-service.ts *)

(** [buildSafeUrl]: the paths built here consist of digits and slashes,
    on which resolving against the base is concatenation. *)
Definition buildSafeUrl (baseUrl path : string) : string := baseUrl +:+ path.

(** The page request and the parse of its answer, taken from the world. *)
Definition fetch_and_parse (url : string) : M (option Z) := λ w,
  let w1 := log (EvFetch url) w in
  match remote w1 with
  | answer :: rest => (Return answer, with_remote rest w1)
  | [] => (Return None, w1)
  end.

(** Every exception is caught inside: the function returns a count that is
    not negative, or [null]. *)
Definition fetchResCountForComment (topicId commentNumber : string)
    : M (option Z) :=
  if negb (validateTopicId topicId) || negb (validateCommentNumber commentNumber)
  then mret None
  else
    let pageNumber := calculatePageNumber commentNumber in
    let basePath :=
      "/topics/" +:+ topicId +:+ "/"
      +:+ (if decide (pageNumber = "1") then "" else pageNumber +:+ "/") in
    let url := buildSafeUrl SITE_CONFIG.BASE_URL basePath in
    answer ← fetch_and_parse url;
    match answer with
    | Some resCount => if 0 <=? resCount then mret (Some resCount) else mret None
    | None => mret None
    end.

(** [(currentTime - postedDate) / (1000 * 60 * 60 * 24)] *)
Definition elapsedDays (currentTime postedDate : Z) : Q :=
  Qmake (currentTime - postedDate) (1000 * 60 * 60 * 24).

(** The guard of the skip: [postedAt] is truthy and
    [elapsedDays >= SKIP_AFTER_DAYS]; the comparison is false on [NaN]. *)
Definition skipped_as_old (previousComment : CommentEntry) (currentTime : Z)
    : bool :=
  if Js.truthy (postedAt previousComment) then
    match Js.getTime (postedAt previousComment) with
    | Some postedDate =>
        Qle_bool (inject_Z CRAWLER_CONFIG.SKIP_AFTER_DAYS)
          (elapsedDays currentTime postedDate)
    | None => false
    end
  else false.

(** [Math.max(0, previousResCount == null ? 0 :
      currentResCount - previousResCount + (previousUnread ?? 0))] *)
Definition newUnreadCount (previousResCount previousUnread : Js.Nullable Z)
    (currentResCount : Z) : Z :=
  Z.max 0
    (match previousResCount with
     | Js.Val p => currentResCount - p + Js.nullish 0 previousUnread
     | _ => 0
     end).

(** What one entry's reconciliation decides once the remote count is
    known: nothing to save, or the entry to save and the unread delta. *)
Definition reconcile (previousComment : CommentEntry) (currentResCount : Z)
    (now : Z) : option (CommentEntry * Js.Num) :=
  let previousResCount := resCount previousComment in
  let previousUnread := unreadCount previousComment in
  let unreadCount := newUnreadCount previousResCount previousUnread currentResCount in
  let delta := Js.sub unreadCount (Js.ToNumber previousUnread) in
  let resChanged := Js.strict_ne currentResCount previousResCount in
  if Js.nonzero delta || resChanged then
    Some (with_counts_updatedAt currentResCount unreadCount (Js.Instant now)
            previousComment, delta)
  else None.

(** The save and what follows it: [saveComment(updatedEntry)], then, if
    it returned an entry, [adjustUnread(delta)] when [delta !== 0] and
    [updatedCount++].  The result tells whether [updatedCount] was
    incremented. *)
Definition saveAndAdjust
    (saveComment : CommentEntry → M (option CommentEntry))
    (adjustUnread : Js.Num → M unit)
    (updatedEntry : CommentEntry) (delta : Js.Num) : M bool :=
  saved ← saveComment updatedEntry;
  match saved with
  | Some _ =>
      (if Js.nonzero delta then adjustUnread delta else mret tt);;
      mret true
  | None => mret false
  end.

(** The inner [try] block of the loop; the result tells whether
    [updatedCount] was incremented. *)
Definition crawlEntry
    (getComment : string → string → M (option CommentEntry))
    (saveComment : CommentEntry → M (option CommentEntry))
    (adjustUnread : Js.Num → M unit)
    (comment : CommentEntry) : M bool :=
  cached ← getComment (topicId comment) (commentNumber comment);
  let previousComment := default comment cached in
  currentTime ← Date_now;
  if skipped_as_old previousComment currentTime then mret false
  else
    fetched ← fetchResCountForComment (topicId comment) (commentNumber comment);
    match fetched with
    | None => mret false
    | Some currentResCount =>
        now ← Date_now;
        match reconcile previousComment currentResCount now with
        | Some (updatedEntry, delta) =>
            saveAndAdjust saveComment adjustUnread updatedEntry delta
        | None => mret false
        end
    end.

(** [(await storage.getItem(CRAWLER_ENABLED)) ?? true], inside a [try]
    whose [catch] only logs: a failed read lets the loop go on. *)
Definition crawlerEnabled : M bool :=
  try_catch (v ← storage_getItem_CRAWLER_ENABLED; mret (default true v))
    (mret true).

(** The [finally] block: the delay, then the flag; [false] is [break]. *)
Definition afterEntry : M bool :=
  sleep CRAWLER_CONFIG.ACTIVE_DELAY_MS;;
  crawlerEnabled.

(** One turn of the [for] loop: the flag, the entry, the [finally] block.
    The result tells whether the loop goes on ([false] is [break]) and
    the new value of [updatedCount]. *)
Definition crawlIteration
    (getComment : string → string → M (option CommentEntry))
    (saveComment : CommentEntry → M (option CommentEntry))
    (adjustUnread : Js.Num → M unit)
    (comment : CommentEntry) (updatedCount : Z) : M (bool * Z) :=
  enabledNow ← crawlerEnabled;
  if negb enabledNow then mret (false, updatedCount)
  else
    updated ← try_catch (crawlEntry getComment saveComment adjustUnread comment)
                (mret false);
    let updatedCount' := if (updated : bool) then updatedCount + 1 else updatedCount in
    enabledAfter ← afterEntry;
    mret (enabledAfter, updatedCount').

(** The [for] loop over the entries. *)
Fixpoint crawlLoop
    (getComment : string → string → M (option CommentEntry))
    (saveComment : CommentEntry → M (option CommentEntry))
    (adjustUnread : Js.Num → M unit)
    (commentList : list CommentEntry) (updatedCount : Z) : M Z :=
  match commentList with
  | [] => mret updatedCount
  | comment :: rest =>
      '(continue, updatedCount') ←
        crawlIteration getComment saveComment adjustUnread comment updatedCount;
      if (continue : bool)
      then crawlLoop getComment saveComment adjustUnread rest updatedCount'
      else mret updatedCount'
  end.

Definition crawlCommentsOnce
    (commentList : list CommentEntry)
    (getComment : string → string → M (option CommentEntry))
    (saveComment : CommentEntry → M (option CommentEntry))
    (adjustUnread : Js.Num → M unit) : M Z := λ w,
  if isCrawling w then (Return 0, w)
  else
    let w1 := with_isCrawling true w in
    let body : M Z :=
      try_catch
        (match commentList with
         | [] => mret 0
         | _ => crawlLoop getComment saveComment adjustUnread commentList 0
         end)
        (mret 0) in
    let '(r, w2) := body w1 in
    (r, with_isCrawling false w2).

(** The cycle as the background loop and the [crawl-now] handler start it. *)
Definition crawlCycle : M Z :=
  list ← getAllCommentsFromCache;
  crawlCommentsOnce list getCommentFromCache saveComment adjustUnread.

(** ** Several cycle requests in flight

    The core runs on one thread; a call runs until it awaits, and other
    calls run meanwhile.  A request for a cycle is followed here from the
    call to the return.  The test of [isCrawling] and the assignment
    [isCrawling = true] have no [await] between them, so they are one
    step; each turn of the loop is one step; the [finally] block is one
    step.  Other call sites (the message handlers) may change the world
    at any time, but [isCrawling] is private to the crawler module. *)

(** A call of [crawlCommentsOnce]: not yet run, inside the [try] block
    with the entries still to visit, or returned. *)
Inductive Call : Type :=
| Requested (commentList : list CommentEntry)
| InCycle (rest : list CommentEntry) (updatedCount : Z)
| Returned (result : Z).


(** The world and the calls made so far. *)
Record System : Type := mkSystem {
  world : World;
  calls : list Call
}.

(** One uninterrupted stretch of code: a new request; a call that finds
    the flag set and returns 0; a call that finds it clear and sets it; a
    turn of the loop; the outer [catch]; the [finally] block; a stretch of
    any other call site. *)
Inductive step : System → System → Prop :=
| step_request w cs l :
    step (mkSystem w cs) (mkSystem w (cs ++ [Requested l]))
| step_busy w cs i l :
    cs !! i = Some (Requested l) →
    isCrawling w = true →
    step (mkSystem w cs) (mkSystem w (<[i := Returned 0]> cs))
| step_start w cs i l :
    cs !! i = Some (Requested l) →
    isCrawling w = false →
    step (mkSystem w cs)
         (mkSystem (with_isCrawling true w) (<[i := InCycle l 0]> cs))
| step_turn w cs i comment rest n continue n' w' :
    cs !! i = Some (InCycle (comment :: rest) n) →
    crawlIteration getCommentFromCache saveComment adjustUnread comment n w
      = (Return (continue, n'), w') →
    step (mkSystem w cs)
         (mkSystem w' (<[i := InCycle (if continue then rest else []) n']> cs))
| step_error w cs i comment rest n w' :
    cs !! i = Some (InCycle (comment :: rest) n) →
    crawlIteration getCommentFromCache saveComment adjustUnread comment n w
      = (Throw, w') →
    step (mkSystem w cs) (mkSystem w' (<[i := InCycle [] 0]> cs))
| step_finish w cs i n :
    cs !! i = Some (InCycle [] n) →
    step (mkSystem w cs)
         (mkSystem (with_isCrawling false w) (<[i := Returned n]> cs))
| step_elsewhere w w' cs :
    isCrawling w' = isCrawling w →
    step (mkSystem w cs) (mkSystem w' cs).




(** ** Vocabulary of the statements *)

(** [getComment(comment.topicId, comment.commentNumber) ?? comment] with
    the cache as it is in [w]. *)
Definition previousComment (w : World) (comment : CommentEntry) : CommentEntry :=
  default comment
    (Map_get (getCommentKey (topicId comment) (commentNumber comment))
       (commentCache w)).

(** Milliseconds in [days] days. *)
Definition days_ms (days : Z) : Z := days * (1000 * 60 * 60 * 24).

(** The persisted record of an entry's key. *)
Definition persisted (w : World) (entry : CommentEntry) : option CommentEntry :=
  local_comments w !! getStorageKey (topicId entry) (commentNumber entry).

(** The events that write the unread total. *)
Definition is_accounting (e : Event) : bool :=
  match e with EvSetUnreadTotal _ => true | _ => false end.

(** Nothing happened between [w] and [w']: time may have passed and
    storage calls may have failed, and that is all. *)
Definition quiet (w w' : World) : Prop :=
  local_comments w' = local_comments w
  ∧ unread_total w' = unread_total w
  ∧ crawler_enabled w' = crawler_enabled w
  ∧ commentCache w' = commentCache w
  ∧ isCrawling w' = isCrawling w
  ∧ remote w' = remote w
  ∧ trace w' = trace w.

(** The component [f] of the world is the same in [w] and [w']. *)
Definition keeps {B} (f : World → B) : relation World := λ w w', f w' = f w.

(** The world right after a storage call was answered. *)
Definition after_call (w : World) : World := with_faults (tail (faults w)) w.

(** Whether the next storage call throws. *)
Definition call_fails (w : World) : bool := default false (head (faults w)).

(** The version a write builds on: [current?.version ?? 0]. *)
Definition prior_version (w : World) (entry : CommentEntry) : Z :=
  default 0 (persisted w entry ≫= version).

(** The two counters of a record. *)
Definition counters (r : option CommentEntry)
    : option (Js.Nullable Z * Js.Nullable Z) :=
  (λ e, (resCount e, unreadCount e)) <$> r.

(** The record an accepted write stores at time [now] in world [w]. *)
Definition written_record (w : World) (entry : CommentEntry) (now : Z)
    : CommentEntry :=
  with_version_updatedAt (prior_version w entry + 1) (Js.Instant now) entry.

(** The world an accepted write leaves, [w1] being the world in which the
    write was answered. *)
Definition written_world (w w1 : World) (entry : CommentEntry) : World :=
  let key := getStorageKey (topicId entry) (commentNumber entry) in
  let record := written_record w entry (clock w1) in
  log (EvSetComment key record)
    (with_local_comments (<[key := record]> (local_comments w)) w1).

(** The world after the record was read back into the cache, before the
    capacity check. *)
Definition cached_world (w1 : World) (entry record : CommentEntry) : World :=
  with_commentCache
    (Map_set (getCommentKey (topicId entry) (commentNumber entry)) record
       (commentCache w1))
    (after_call w1).

(** The writes of the unread total so far, newest first. *)
Definition accounting_log (w : World) : list Event :=
  filter (λ e, is_accounting e = true) (trace w).

(** The unread total and the history of its writes. *)
Definition accounted (w : World) : option Z * list Event :=
  (unread_total w, accounting_log w).

(** [updatedAt] of a cached entry as a time; only used on instants. *)
Definition time_of (e : CommentEntry) : Z := default 0 (Js.getTime (updatedAt e)).

(** The cache key of an entry. *)
Definition key_of (e : CommentEntry) : string :=
  getCommentKey (topicId e) (commentNumber e).

(** [updatedAt] is an ISO instant. *)
Definition stamped (e : CommentEntry) : Prop := ∃ t, updatedAt e = Js.Instant t.

(** Not newer than: the order [Array_sort compareUpdatedAt] sorts by. *)
Definition not_newer (a b : CommentEntry) : Prop := time_of a ≤ time_of b.

(** What [enforceMaxEntries] deletes from a cache that is over the limit,
    oldest first, and what it keeps. *)
Definition evicted (c : list (string * CommentEntry)) : list CommentEntry :=
  take (length c - COMMENT_ENTRY_CONFIG.MAX_ENTRIES)
    (Array_sort compareUpdatedAt c.*2).

Definition survivors (c : list (string * CommentEntry)) : list CommentEntry :=
  drop (length c - COMMENT_ENTRY_CONFIG.MAX_ENTRIES)
    (Array_sort compareUpdatedAt c.*2).

(** The cache is a [Map] whose keys are the keys of its entries, filled
    with records read back from the store, whose [updatedAt] is an ISO
    instant. *)
Definition cache_ok (c : list (string * CommentEntry)) : Prop :=
  NoDup c.*1 ∧ Forall (λ kv, kv.1 = key_of kv.2 ∧ stamped kv.2) c.

(** [respects R m]: running [m] takes every world to an [R]-related one. *)
Definition respects {A} (R : relation World) (m : M A) : Prop :=
  ∀ w, R w (m w).2.

(** ** Sample data *)

(** An entry of topic 12345, comment 501, with five replies all unread,
    last written at time 2000. *)
Definition sample_entry : CommentEntry :=
  {| topicId := "12345"; topicTitle := Some "topic"; commentNumber := "501";
     postedAt := Js.Instant 1000; commentBody := Some "body";
     resCount := Js.Val 5; unreadCount := Js.Val 5;
     createdAt := Js.Instant 1000; updatedAt := Js.Instant 2000;
     version := Some 1 |}.

(** A world at time 5000 that tracks [sample_entry] alone; the crawler is
    idle, no storage call fails, the site will report seven replies. *)
Definition sample_world : World :=
  {| local_comments := {[ getStorageKey "12345" "501" := sample_entry ]};
     unread_total := Some 5;
     crawler_enabled := None;
     commentCache := [(getCommentKey "12345" "501", sample_entry)];
     isCrawling := false;
     clock := 5000;
     faults := [];
     remote := [Some 7];
     trace := [] |}.

(** [sample_entry] as a caller prepared it at time [t]. *)
Definition sample_entry_at (t : Z) : CommentEntry :=
  with_counts_updatedAt 7 7 (Js.Instant t) sample_entry.

(** A world that tracks one entry whose counters are [(resCount, unreadCount)]
    and where the site will report [seen] replies. *)
Definition world_with (counts : Js.Nullable Z * Js.Nullable Z) (seen : Z) : World :=
  let entry :=
    {| topicId := "12345"; topicTitle := Some "topic"; commentNumber := "501";
       postedAt := Js.Instant 1000; commentBody := Some "body";
       resCount := counts.1; unreadCount := counts.2;
       createdAt := Js.Instant 1000; updatedAt := Js.Instant 2000;
       version := Some 1 |} in
  {| local_comments := {[ getStorageKey "12345" "501" := entry ]};
     unread_total := Some (Js.nullish 0 counts.2);
     crawler_enabled := None;
     commentCache := [(getCommentKey "12345" "501", entry)];
     isCrawling := false;
     clock := 5000;
     faults := [];
     remote := [Some seen];
     trace := [] |}.

(** Comment [i + 1] of topic 7, last written at time [100 + i]. *)
Definition numbered_entry (i : nat) : CommentEntry :=
  {| topicId := "7"; topicTitle := None;
     commentNumber := Js.toString (Z.of_nat (S i));
     postedAt := Js.NoDate; commentBody := None;
     resCount := Js.Val 0; unreadCount := Js.Val 0;
     createdAt := Js.Instant 50;
     updatedAt := Js.Instant (Z.of_nat (100 + i));
     version := Some 1 |}.

(** A world at time 5000 whose store and cache hold the comments 1 to
    1000 of topic 7: the cache is full. *)
Definition full_world : World :=
  {| local_comments :=
       list_to_map
         ((λ i, (getStorageKey "7" (commentNumber (numbered_entry i)),
                 numbered_entry i)) <$> seq 0 COMMENT_ENTRY_CONFIG.MAX_ENTRIES);
     unread_total := Some 0;
     crawler_enabled := Some true;
     commentCache :=
       (λ i, (getCommentKey "7" (commentNumber (numbered_entry i)),
              numbered_entry i)) <$> seq 0 COMMENT_ENTRY_CONFIG.MAX_ENTRIES;
     isCrawling := false;
     clock := 5000;
     faults := [];
     remote := [];
     trace := [] |}.

(** Comment 5000 of topic 7, tracked at time 5000. *)
Definition newcomer : CommentEntry :=
  {| topicId := "7"; topicTitle := None; commentNumber := "5000";
     postedAt := Js.NoDate; commentBody := None;
     resCount := Js.Val 0; unreadCount := Js.Val 0;
     createdAt := Js.Instant 5000; updatedAt := Js.Instant 5000;
     version := None |}.

(** ** utils/validation.ts: strings and keys *)

(** The pattern [^\d+$]. *)
Definition isNumericString (value : string) : bool :=
  negb (String.eqb value "") && all_digits value.

(** LF and CR, the line terminators below code unit 256. *)
Definition is_line_terminator (c : ascii) : bool :=
  let n := nat_of_ascii c in ((n =? 10) || (n =? 13))%nat.

(** Whether [.+$] matches the whole of [s]: [s] is not empty and holds
    no line terminator. *)
Fixpoint dot_star (s : string) : bool :=
  match s with
  | String c r => negb (is_line_terminator c) && dot_star r
  | EmptyString => true
  end.

Definition dot_plus (s : string) : bool := negb (String.eqb s "") && dot_star s.

(** [s.slice(n)] *)
Fixpoint String_slice (n : nat) (s : string) : string :=
  match n, s with
  | S n', String _ r => String_slice n' r
  | _, _ => s
  end.

(** [VALIDATION_PATTERNS.STORAGE_KEY], the pattern [^(local|session):.+$]. *)
Definition matches_STORAGE_KEY (key : string) : bool :=
  (String.prefix "local:" key && dot_plus (String_slice 6 key))
  || (String.prefix "session:" key && dot_plus (String_slice 8 key)).

Definition validateStorageKey (key : string) : bool := matches_STORAGE_KEY key.

(** [maxLength] defaults to 10000. *)
Definition validateTextLength (text : string) (maxLength : nat) : bool :=
  (String.length text <=? maxLength)%nat.

(** ** utils/error-handler.ts

    The module has a [sleep] of its own, the same timer as the one of the
    storage service. *)

(** [throw] *)
Definition throw {A} : M A := λ w, (Throw, w).

(** The [for] loop of [withRetry], with [remaining = maxRetries - attempt];
    after it, the last error is thrown. *)
Fixpoint withRetry_loop {A} (fn : M A) (maxRetries : nat) (initialDelayMs : Z)
    (useExponentialBackoff : bool) (remaining : nat) : M A :=
  match remaining with
  | O => throw
  | S remaining' =>
      let attempt := (maxRetries - remaining)%nat in
      try_catch fn
        ((if (attempt <? maxRetries - 1)%nat
          then
            let delayMs :=
              if useExponentialBackoff
              then initialDelayMs * 2 ^ Z.of_nat attempt
              else initialDelayMs in
            sleep delayMs
          else mret tt);;
         withRetry_loop fn maxRetries initialDelayMs useExponentialBackoff
           remaining')
  end.

(** [maxRetries] defaults to 3, [initialDelayMs] to 100 and
    [useExponentialBackoff] to [true]. *)
Definition withRetry {A} (fn : M A) (maxRetries : nat) (initialDelayMs : Z)
    (useExponentialBackoff : bool) : M A :=
  withRetry_loop fn maxRetries initialDelayMs useExponentialBackoff maxRetries.

(** ** services/storage-service.ts: loading the records *)

(** [s.replace(p, '')] with a string pattern: the first occurrence of [p]
    goes. *)
Fixpoint String_replace_empty (p s : string) : string :=
  if String.prefix p s then String_slice (String.length p) s
  else
    match s with
    | String c r => String c (String_replace_empty p r)
    | EmptyString => EmptyString
    end.

(** [s.split(sep)] with a separator of one character. *)
Fixpoint String_split (sep : ascii) (s : string) : list string :=
  match s with
  | EmptyString => [EmptyString]
  | String c r =>
      if decide (c = sep) then EmptyString :: String_split sep r
      else
        match String_split sep r with
        | part :: parts => String c part :: parts
        | [] => [String c EmptyString]
        end
  end.

(** [browser.storage.local.get(null)]: the items of the area under their
    keys without the area prefix, in the order [enumerate] in which the
    browser lists them.  The two items that are not comment records do
    not start with [COMMENT_PREFIX]; the loop below would pass them
    over. *)
Definition browser_storage_local_get
    (enumerate : gmap string CommentEntry → list (string * CommentEntry))
    : M (list (string * CommentEntry)) :=
  storage_call;;
  gets (λ w, omap (λ kv : string * CommentEntry,
                     if String.prefix "local:" kv.1
                     then Some (String_slice 6 kv.1, kv.2) else None)
               (enumerate (local_comments w))).

(** The body of the [for] loop over [Object.entries(allItems)]. *)
Definition is_comment_item (key : string) : bool :=
  if String.prefix COMMENT_PREFIX key then
    let parts := String_split ":" (String_replace_empty COMMENT_PREFIX key) in
    (length parts =? 2)%nat
  else false.

Definition loadAllCommentsFromStorage
    (enumerate : gmap string CommentEntry → list (string * CommentEntry))
    : M (list CommentEntry) :=
  try_catch
    (allItems ← browser_storage_local_get enumerate;
     mret (filter (λ kv, is_comment_item kv.1 = true) allItems).*2)
    (mret []).

(** ** services/comment-service.ts: loading the cache *)

(** The flag [cacheLoaded] is written here and read nowhere. *)
Definition loadCacheFromStorage
    (enumerate : gmap string CommentEntry → list (string * CommentEntry))
    : M unit :=
  try_catch
    (modify (with_commentCache []);;
     comments ← loadAllCommentsFromStorage enumerate;
     for_each
       (λ comment,
          let cacheKey := getCommentKey (topicId comment) (commentNumber comment) in
          modify (λ w, with_commentCache (Map_set cacheKey comment (commentCache w)) w))
       comments)
    (mret tt).

(** ** entrypoints/background.ts: the badge *)

(** [Number(it?.unreadCount) || 0] *)
Definition unreadOf (it : CommentEntry) : Z :=
  match Js.ToNumber (unreadCount it) with
  | Js.Int z => if Js.falsy (Js.Int z) then 0 else z
  | Js.NaN => 0
  end.

(** [list.reduce((acc, it) => acc + (Number(it?.unreadCount) || 0), 0)] *)
Definition sumUnread (list : list CommentEntry) : Z :=
  foldl (λ acc it, acc + unreadOf it) 0 list.

Definition recomputeBadge : M unit :=
  try_catch
    (list ← getAllCommentsFromCache;
     let total := sumUnread list in
     setUnreadTotal total)
    (mret tt).

(** ** services/message-handler.ts

    The handlers of the messages about tracked comments.  The messages
    about settings and session items touch items that are not part of
    the world and are left out. *)

(** The texts of the [error] field. *)
Inductive ErrorMessage : Type :=
| InvalidTopicId
| InvalidCommentNumber
| CommentNotFound
| MissingEntry
| MissingIds
| MissingTopicId
| Caught.

(** A [MessageResponse]; a field that is [None] is absent. *)
Record MessageResponse : Type := mkMessageResponse {
  ok : bool;
  error : option ErrorMessage;
  started : option bool;
  count : option nat;
  comments : option (list CommentEntry)
}.

(** [{ ok: b }] *)
Definition response (b : bool) : MessageResponse :=
  mkMessageResponse b None None None None.

(** [{ ok: false, error: e }] *)
Definition failure (e : ErrorMessage) : MessageResponse :=
  mkMessageResponse false (Some e) None None None.

Definition handleCrawlNow (adjustUnread : Js.Num → M unit) : M MessageResponse :=
  commentList ← getAllCommentsFromCache;
  updatedCount ← crawlCommentsOnce commentList getCommentFromCache saveComment
                   adjustUnread;
  mret (mkMessageResponse true None (Some (0 <? updatedCount)) None None).

(** The [entry] of an [upsert-comment] message as it arrives: an object
    with the own properties its sender gave it.  A field that is [None]
    is not a property of the object; [Some v] is a property whose value
    is [v].  The identifiers are read before the spread: one that is
    missing reads as [undefined], which the validation turns down like
    any text that is not an identifier. *)
Record EntryObject : Type := mkEntryObject {
  own_topicId : string;
  own_topicTitle : option (option string);
  own_commentNumber : string;
  own_postedAt : option Js.DateString;
  own_commentBody : option (option string);
  own_resCount : option (Js.Nullable Z);
  own_unreadCount : option (Js.Nullable Z);
  own_createdAt : option Js.DateString;
  own_updatedAt : option Js.DateString;
  own_version : option (option Z)
}.

(** What [{ ...(existing ?? {}) }] gives for a field: the value the
    existing record has, [absent] when there is no record. *)
Definition inherited {A} (existing : option CommentEntry)
    (field : CommentEntry → A) (absent : A) : A :=
  default absent (field <$> existing).

(** [{ ...(existing ?? {}), ...entry, updatedAt: now }]: a property of
    [entry] replaces the one of [existing]; a field that [entry] does not
    have keeps the value of [existing]. *)
Definition merged (existing : option CommentEntry) (entry : EntryObject)
    (now : Js.DateString) : CommentEntry :=
  {| topicId := own_topicId entry;
     topicTitle :=
       default (inherited existing topicTitle None) (own_topicTitle entry);
     commentNumber := own_commentNumber entry;
     postedAt :=
       default (inherited existing postedAt Js.NoDate) (own_postedAt entry);
     commentBody :=
       default (inherited existing commentBody None) (own_commentBody entry);
     resCount :=
       default (inherited existing resCount Js.Undefined) (own_resCount entry);
     unreadCount :=
       default (inherited existing unreadCount Js.Undefined)
         (own_unreadCount entry);
     createdAt :=
       default (inherited existing createdAt Js.NoDate) (own_createdAt entry);
     updatedAt := now;
     version := default (inherited existing version None) (own_version entry) |}.

Definition handleUpsertComment (adjustUnread : Js.Num → M unit)
    (entry : EntryObject) : M MessageResponse :=
  if negb (validateTopicId (own_topicId entry)) then mret (failure InvalidTopicId)
  else if negb (validateCommentNumber (own_commentNumber entry))
  then mret (failure InvalidCommentNumber)
  else
    existing ← getCommentFromCache (own_topicId entry) (own_commentNumber entry);
    now ← Date_now;
    let toSave := merged existing entry (Js.Instant now) in
    match existing with
    | None => adjustUnread (Js.Int (unreadOf toSave))
    | Some existing =>
        let prevUnread := unreadOf existing in
        let newUnread := unreadOf toSave in
        adjustUnread (Js.Int (newUnread - prevUnread))
    end;;
    saved ← saveComment toSave;
    mret (response (bool_decide (is_Some saved))).

Definition handleRemoveComment (adjustUnread : Js.Num → M unit)
    (topicId commentNumber : string) : M MessageResponse :=
  if negb (validateTopicId topicId) then mret (failure InvalidTopicId)
  else if negb (validateCommentNumber commentNumber)
  then mret (failure InvalidCommentNumber)
  else
    existing ← getCommentFromCache topicId commentNumber;
    match existing with
    | Some existing =>
        let prevUnread := unreadOf existing in
        if 0 <? prevUnread then adjustUnread (Js.Int (- prevUnread)) else mret tt
    | None => mret tt
    end;;
    deleteComment topicId commentNumber;;
    mret (response true).

Definition handleRemoveTopic (adjustUnread : Js.Num → M unit)
    (topic : string) : M MessageResponse :=
  if negb (validateTopicId topic) then mret (failure InvalidTopicId)
  else
    allComments ← getAllCommentsFromCache;
    let targetComments := filter (λ comment, topicId comment = topic) allComments in
    let totalUnread := sumUnread targetComments in
    for_each (λ comment, deleteComment (topicId comment) (commentNumber comment))
      targetComments;;
    (if 0 <? totalUnread then adjustUnread (Js.Int (- totalUnread)) else mret tt);;
    mret (mkMessageResponse true None None (Some (length targetComments)) None).

(** [{ ...existing, unreadCount: 0, updatedAt: now }], then
    [resCount = nowResCount] when the latter is a number. *)
Definition with_unread_cleared (nowResCount : option Z) (now : Js.DateString)
    (existing : CommentEntry) : CommentEntry :=
  {| topicId := topicId existing; topicTitle := topicTitle existing;
     commentNumber := commentNumber existing; postedAt := postedAt existing;
     commentBody := commentBody existing;
     resCount := match nowResCount with
                 | Some n => Js.Val n
                 | None => resCount existing
                 end;
     unreadCount := Js.Val 0; createdAt := createdAt existing;
     updatedAt := now; version := version existing |}.

Definition handleClearUnread (adjustUnread : Js.Num → M unit)
    (topicId commentNumber : string) : M MessageResponse :=
  if negb (validateTopicId topicId) then mret (failure InvalidTopicId)
  else if negb (validateCommentNumber commentNumber)
  then mret (failure InvalidCommentNumber)
  else
    existing ← getCommentFromCache topicId commentNumber;
    match existing with
    | None => mret (failure CommentNotFound)
    | Some existing =>
        nowResCount ← fetchResCountForComment topicId commentNumber;
        now ← Date_now;
        let prevUnread := unreadOf existing in
        let updatedEntry :=
          with_unread_cleared nowResCount (Js.Instant now) existing in
        (if 0 <? prevUnread then adjustUnread (Js.Int (- prevUnread))
         else mret tt);;
        saved ← saveComment updatedEntry;
        mret (response (bool_decide (is_Some saved)))
    end.

Definition handleGetAllComments : M MessageResponse :=
  commentList ← getAllCommentsFromCache;
  mret (mkMessageResponse true None None None (Some commentList)).

(** The messages modelled here; a field that is [None] is missing. *)
Inductive MessageRequest : Type :=
| crawl_now
| upsert_comment (entry : option EntryObject)
| remove_comment (topicId commentNumber : option string)
| remove_topic (topicId : option string)
| clear_unread (topicId commentNumber : option string)
| get_all_comments.

(** [!s] for an optional string: missing and empty are falsy. *)
Definition missing (s : option string) : bool :=
  match s with
  | Some (String _ _) => false
  | _ => true
  end.

Definition routeMessage (message : MessageRequest)
    (adjustUnread : Js.Num → M unit) : M MessageResponse :=
  try_catch
    (match message with
     | crawl_now => handleCrawlNow adjustUnread
     | upsert_comment entry =>
         match entry with
         | None => mret (failure MissingEntry)
         | Some entry => handleUpsertComment adjustUnread entry
         end
     | remove_comment topicId commentNumber =>
         if missing topicId || missing commentNumber
         then mret (failure MissingIds)
         else handleRemoveComment adjustUnread (default "" topicId)
                (default "" commentNumber)
     | remove_topic topicId =>
         if missing topicId then mret (failure MissingTopicId)
         else handleRemoveTopic adjustUnread (default "" topicId)
     | clear_unread topicId commentNumber =>
         if missing topicId || missing commentNumber
         then mret (failure MissingIds)
         else handleClearUnread adjustUnread (default "" topicId)
                (default "" commentNumber)
     | get_all_comments => handleGetAllComments
     end)
    (mret (failure Caught)).

(** ** Further vocabulary *)

(** The stored record [cur] carries an [updatedAt] that is strictly later
    than the one of [entry], both being instants. *)
Definition strictly_newer (cur : option CommentEntry) (entry : CommentEntry)
    : Prop :=
  ∃ c tc te, cur = Some c ∧ updatedAt c = Js.Instant tc
             ∧ updatedAt entry = Js.Instant te ∧ te < tc.

(** The storage key that belongs to a cache key. *)
Definition storageKeyOf (cacheKey : string) : string :=
  "local:" +:+ COMMENT_PREFIX +:+ cacheKey.

(** The cache mirrors the store: it is a [Map] (no key twice) and holds
    under each cache key what the store holds under the storage key. *)
Definition mirrors (w : World) : Prop :=
  NoDup (commentCache w).*1
  ∧ ∀ k, Map_get k (commentCache w) = local_comments w !! storageKeyOf k.

(** Every record of the store sits under the storage key of its own
    identifiers, and these are valid. *)
Definition keyed (m : gmap string CommentEntry) : Prop :=
  ∀ k e, m !! k = Some e →
    k = getStorageKey (topicId e) (commentNumber e)
    ∧ validateTopicId (topicId e) = true
    ∧ validateCommentNumber (commentNumber e) = true.

(** No storage call is going to fail. *)
Definition healthy (w : World) : Prop := faults w = [].

(** The unread count of a cached entry is a number that is not negative. *)
Definition counted (e : CommentEntry) : Prop :=
  ∃ u, unreadCount e = Js.Val u ∧ 0 ≤ u.

(** The cache holds at most [MAX_ENTRIES] entries. *)
Definition within_capacity (w : World) : Prop :=
  (length (commentCache w) ≤ COMMENT_ENTRY_CONFIG.MAX_ENTRIES)%nat.

(** The cache and the store are in order: storage works, the cache is a
    well-formed [Map] within its capacity that mirrors the store, and
    every unread count is a number that is not negative. *)
Definition orderly (w : World) : Prop :=
  healthy w ∧ cache_ok (commentCache w) ∧ within_capacity w
  ∧ Forall counted (commentCache w).*2 ∧ mirrors w.

(** The books balance: the unread total is the sum of the unread counts
    of the cache. *)
Definition balanced (w : World) : Prop :=
  unread_total w = Some (sumUnread (commentCache w).*2).

(** The state in which the core runs from one message or turn of the
    crawler to the next, while storage works. *)
Definition steady (w : World) : Prop := orderly w ∧ balanced w.

(** The identifiers of a request are present and valid. *)
Definition valid_id (validate : string → bool) (s : option string) : bool :=
  match s with Some s => validate s | None => false end.

Definition acceptable (message : MessageRequest) : bool :=
  match message with
  | upsert_comment entry =>
      match entry with
      | Some entry =>
          validateTopicId (own_topicId entry)
          && validateCommentNumber (own_commentNumber entry)
      | None => false
      end
  | remove_comment t c | clear_unread t c =>
      valid_id validateTopicId t && valid_id validateCommentNumber c
  | remove_topic t => valid_id validateTopicId t
  | crawl_now | get_all_comments => true
  end.

(** The requests to the site so far. *)
Definition is_fetch (e : Event) : bool :=
  match e with EvFetch _ => true | _ => false end.

Definition requests (w : World) : Z :=
  Z.of_nat (length (filter (λ e, is_fetch e = true) (trace w))).

(** Time does not go back and no request is made. *)
Definition waits : relation World := λ w w',
  clock w ≤ clock w' ∧ requests w' = requests w.

(** The requests made between [w] and [w'] are at least [ACTIVE_DELAY_MS]
    apart on average: the clock has advanced by that much for each. *)
Definition paced : relation World := λ w w',
  requests w ≤ requests w'
  ∧ CRAWLER_CONFIG.ACTIVE_DELAY_MS * (requests w' - requests w)
    ≤ clock w' - clock w.

(** The unread total is what it was, or a number that is not negative. *)
Definition total_stays_natural : relation World := λ w w',
  unread_total w' = unread_total w
  ∨ ∃ n, unread_total w' = Some n ∧ 0 ≤ n.

(** Storage that works keeps working. *)
Definition stays_healthy : relation World := λ w w', healthy w → healthy w'.

(** The wait of a write after its attempt number [attempt] threw: none
    after the last attempt. *)
Definition backoff (maxRetries attempt : nat) : M unit :=
  if (attempt <? maxRetries - 1)%nat
  then sleep (OPTIMISTIC_LOCK.INITIAL_BACKOFF_MS * 2 ^ Z.of_nat attempt)
  else mret tt.

(** The world in which attempt number [attempt + failed] of a write
    starts, [w] being the world in which attempt number [attempt] starts,
    when the [failed] attempts from there on throw: each leaves the world
    of its exception, and the wait follows. *)
Fixpoint attempt_world (entry : CommentEntry) (maxRetries attempt failed : nat)
    (w : World) : World :=
  match failed with
  | O => w
  | S failed' =>
      attempt_world entry maxRetries (S attempt) failed'
        (backoff maxRetries attempt (saveAttempt entry w).2).2
  end.

(** The object a sender builds from a whole entry: every field of the
    interface is a property of it, [version] when the entry has one. *)
Definition object_of (e : CommentEntry) : EntryObject :=
  {| own_topicId := topicId e; own_topicTitle := Some (topicTitle e);
     own_commentNumber := commentNumber e; own_postedAt := Some (postedAt e);
     own_commentBody := Some (commentBody e); own_resCount := Some (resCount e);
     own_unreadCount := Some (unreadCount e);
     own_createdAt := Some (createdAt e); own_updatedAt := Some (updatedAt e);
     own_version := Some <$> version e |}.

(** An object that carries the identifiers of comment 501 of topic 12345
    and an unread count of 2, and nothing else. *)
Definition sample_patch : EntryObject :=
  {| own_topicId := "12345"; own_topicTitle := None;
     own_commentNumber := "501"; own_postedAt := None;
     own_commentBody := None; own_resCount := None;
     own_unreadCount := Some (Js.Val 2);
     own_createdAt := None; own_updatedAt := None; own_version := None |}.

(** ** Reasoning about computations *)

Lemma bind_run {A B} (m : M A) (f : A → M B) (w : World) :
  (m ≫= f) w =
  match m w with
  | (Return a, w') => f a w'
  | (Throw, w') => (Throw, w')
  end.
Proof. reflexivity. Qed.

Section Respects.
Context (R : relation World) `{!PreOrder R}.

Lemma respects_ret {A} (a : A) : respects R (mret a).
Proof. intros w. simpl. reflexivity. Qed.

Lemma respects_bind {A B} (m : M A) (f : A → M B) :
  respects R m → (∀ a, respects R (f a)) → respects R (m ≫= f).
Proof.
  intros Hm Hf w. rewrite bind_run. specialize (Hm w).
  destruct (m w) as [[a|] w1]; simpl in *; [|done].
  etrans; [exact Hm | apply Hf].
Qed.

Lemma respects_try_catch {A} (m h : M A) :
  respects R m → respects R h → respects R (try_catch m h).
Proof.
  intros Hm Hh w. unfold try_catch. specialize (Hm w).
  destruct (m w) as [[a|] w1]; simpl in *; [done|].
  etrans; [exact Hm | apply Hh].
Qed.

Lemma respects_gets {A} (f : World → A) : respects R (gets f).
Proof. intros w. simpl. reflexivity. Qed.

Lemma respects_modify (f : World → World) :
  (∀ w, R w (f w)) → respects R (modify f).
Proof. intros Hf w. simpl. apply Hf. Qed.

Lemma respects_if {A} (b : bool) (m1 m2 : M A) :
  respects R m1 → respects R m2 → respects R (if b then m1 else m2).
Proof. by destruct b. Qed.

Lemma respects_for_each {A} (f : A → M unit) (l : list A) :
  (∀ a, respects R (f a)) → respects R (for_each f l).
Proof.
  intros Hf. induction l as [|x l IH]; simpl.
  - apply respects_ret.
  - apply respects_bind; [apply Hf | intros _; exact IH].
Qed.

End Respects.

Global Arguments respects_ret R {_ A} a.
Global Arguments respects_bind R {_ A B} m f _ _.
Global Arguments respects_try_catch R {_ A} m h _ _.
Global Arguments respects_gets R {_ A} f.
Global Arguments respects_for_each R {_ A} f l _.

(** Goals of the form [respects R m] follow the structure of [m]. *)
Ltac frame :=
  repeat match goal with
    | |- respects _ (mret _) => apply (respects_ret _)
    | |- respects _ (gets _) => apply (respects_gets _)
    | |- respects _ (_ ≫= _) => apply (respects_bind _); [|intros ?]
    | |- respects _ (try_catch _ _) => apply (respects_try_catch _)
    | |- respects _ (for_each _ _) => apply (respects_for_each _); intros ?
    | |- respects _ (modify _) => apply respects_modify; intros ?
    | |- respects _ (if ?b then _ else _) => destruct b
    | |- respects _ (match ?x with Some _ => _ | None => _ end) => destruct x
    | |- respects _ (match ?x with (_, _) => _ end) => destruct x
    | |- respects _ (match ?x with Js.NaN => _ | Js.Int _ => _ end) => destruct x
    end.
(** ** Page numbers *)

Lemma digit_char_is_digit (d : Z) :
  0 ≤ d ≤ 9 →
  Js.is_digit (Js.digit_char d) = true ∧ Js.digit_val (Js.digit_char d) = d
  ∧ Js.is_white_space (Js.digit_char d) = false
  ∧ Js.digit_char d ≠ "-"%char ∧ Js.digit_char d ≠ "+"%char.
Proof.
  intros Hd.
  assert (d = 0 ∨ d = 1 ∨ d = 2 ∨ d = 3 ∨ d = 4 ∨ d = 5 ∨ d = 6 ∨ d = 7
          ∨ d = 8 ∨ d = 9) as Hcases by lia.
  repeat (destruct Hcases as [-> | Hcases]); try subst d;
    (repeat split; [reflexivity .. | discriminate | discriminate]).
Qed.

Lemma leading_digits_of_chars (ds : list Z) :
  Forall (λ d, 0 ≤ d ≤ 9) ds →
  Js.leading_digits (string_of_list_ascii (map Js.digit_char ds)) = ds.
Proof.
  induction 1 as [|d ds Hd _ IH]; [done|].
  cbn [map string_of_list_ascii Js.leading_digits].
  destruct (digit_char_is_digit d Hd) as (-> & -> & _). by rewrite IH.
Qed.

Lemma digits_of_range (fuel : nat) (n : Z) (acc : list Z) :
  0 ≤ n → Forall (λ d, 0 ≤ d ≤ 9) acc →
  Forall (λ d, 0 ≤ d ≤ 9) (Js.digits_of fuel n acc).
Proof.
  revert n acc. induction fuel as [|fuel IH]; intros n acc Hn Hacc;
    cbn [Js.digits_of].
  - done.
  - assert (Forall (λ d, 0 ≤ d ≤ 9) (n mod 10 :: acc)) as Hacc'.
    { constructor; [|done]. pose proof (Z.mod_pos_bound n 10). lia. }
    destruct (n / 10 =? 0); [done|].
    apply IH; [|done]. apply Z.div_pos; lia.
Qed.

Lemma digits_of_nonempty (fuel : nat) (n : Z) (acc : list Z) :
  Js.digits_of (S fuel) n acc ≠ [].
Proof.
  revert n acc. induction fuel as [|fuel IH]; intros n acc.
  - cbn [Js.digits_of]. by destruct (n / 10 =? 0).
  - change (Js.digits_of (S (S fuel)) n acc) with
      (let acc' := n mod 10 :: acc in
       if n / 10 =? 0 then acc' else Js.digits_of (S fuel) (n / 10) acc').
    cbv zeta. destruct (n / 10 =? 0); [done | apply IH].
Qed.

Lemma digits_of_value (fuel : nat) (n : Z) (acc : list Z) :
  0 ≤ n < 2 ^ Z.of_nat fuel →
  ∃ k, 0 ≤ k ∧ ∀ a,
    fold_left (λ acc d, 10 * acc + d) (Js.digits_of fuel n acc) a
    = fold_left (λ acc d, 10 * acc + d) acc (a * 10 ^ k + n).
Proof.
  revert n acc. induction fuel as [|fuel IH]; intros n acc Hn.
  - exists 0. split; [lia|]. intros a. cbn [Js.digits_of].
    f_equal. change (2 ^ Z.of_nat 0) with 1 in Hn. lia.
  - cbn [Js.digits_of]. destruct (n / 10 =? 0) eqn:Hq.
    + exists 1. split; [lia|]. intros a. cbn [fold_left].
      apply Z.eqb_eq in Hq. f_equal.
      pose proof (Z.div_mod n 10). lia.
    + apply Z.eqb_neq in Hq.
      destruct (IH (n / 10) (n mod 10 :: acc)) as (k & Hk & Heq).
      { split; [apply Z.div_pos; lia|].
        rewrite Nat2Z.inj_succ, Z.pow_succ_r in Hn by lia.
        apply Z.div_lt_upper_bound; lia. }
      exists (k + 1). split; [lia|]. intros a. rewrite Heq. cbn [fold_left].
      f_equal. rewrite Z.pow_add_r by lia.
      pose proof (Z.div_mod n 10). lia.
Qed.

Lemma parseInt_decimal (n : Z) : 0 ≤ n → Js.parseInt (Js.decimal n) = Some n.
Proof.
  intros Hn. unfold Js.decimal.
  set (fuel := Z.to_nat (Z.log2 n)).
  pose proof (digits_of_range (S fuel) n [] Hn (Forall_nil_2 _)) as Hrange.
  pose proof (digits_of_nonempty fuel n []) as Hne.
  destruct (digits_of_value (S fuel) n []) as (k & _ & Hval).
  { split; [done|]. subst fuel.
    rewrite Nat2Z.inj_succ, Z2Nat.id by apply Z.log2_nonneg.
    destruct (decide (n = 0)) as [->|]; [done|].
    apply Z.log2_spec. lia. }
  specialize (Hval 0). cbn [fold_left] in Hval.
  replace (0 * 10 ^ k + n) with n in Hval by lia.
  pose proof (leading_digits_of_chars _ Hrange) as Hlead.
  destruct (Js.digits_of (S fuel) n []) as [|d ds] eqn:Hds; [done|].
  apply Forall_cons in Hrange as [Hd _].
  destruct (digit_char_is_digit d Hd) as (_ & _ & Hws & Hminus & Hplus).
  unfold Js.parseInt.
  change (string_of_list_ascii (map Js.digit_char (d :: ds)))
    with (String (Js.digit_char d) (string_of_list_ascii (map Js.digit_char ds))) in *.
  cbn [Js.skip_white_space]. rewrite Hws.
  assert (∀ c r, c ≠ "-"%char → c ≠ "+"%char →
            match String c r with
            | String "-"%char r' => (-1, r')
            | String "+"%char r' => (1, r')
            | _ => (1, String c r)
            end = (1, String c r)) as Hsign.
  { intros c r H1 H2. destruct c as [[] [] [] [] [] [] [] []]; done. }
  rewrite Hsign by done. rewrite Hlead.
  unfold Js.digits_value. rewrite Hval. f_equal. lia.
Qed.

Lemma calculatePageNumber_unfold (s : string) :
  calculatePageNumber s =
  match Js.parseInt s with
  | Some n => if 0 <? n then Js.toString ((n - 1) / 500 + 1) else "1"
  | None => "1"
  end.
Proof.
  unfold calculatePageNumber, PAGINATION.COMMENTS_PER_PAGE.
  destruct (Js.parseInt s) as [n|]; [|done].
  destruct (Z.leb_spec n 0), (Z.ltb_spec 0 n); done || lia.
Qed.

(** C9: the page of a comment number is total; it is "1" when the string
    does not parse ([parseInt]) to a positive integer, and the decimal
    string of [floor((n - 1) / 500) + 1] when it parses to [n > 0];
    comment 500 is on page 1, comment 501 on page 2.  The numbers are safe
    integers, as every comment number of at most fifteen digits is: there
    the host computes with exact integers and prints plain decimals. *)
Theorem C9_calculatePageNumber :
  (∀ s, (∀ n, Js.parseInt s = Some n → n ≤ 0) → calculatePageNumber s = "1")
  ∧ (∀ s n, Js.parseInt s = Some n → 0 < n ≤ Js.MAX_SAFE_INTEGER →
       calculatePageNumber s = Js.toString ((n - 1) / 500 + 1))
  ∧ (∀ n, 0 < n ≤ Js.MAX_SAFE_INTEGER →
       calculatePageNumber (Js.toString n) = Js.toString ((n - 1) / 500 + 1))
  ∧ calculatePageNumber "500" = "1"
  ∧ calculatePageNumber "501" = "2".
Proof.
  split; [|split; [|split; [|split; reflexivity]]].
  - intros s Hs. rewrite calculatePageNumber_unfold.
    destruct (Js.parseInt s) as [n|]; [|done].
    specialize (Hs n eq_refl). by destruct (Z.ltb_spec 0 n); [lia|].
  - intros s n Hs [Hn _]. rewrite calculatePageNumber_unfold, Hs.
    by destruct (Z.ltb_spec 0 n); [|lia].
  - intros n [Hn _]. rewrite calculatePageNumber_unfold.
    unfold Js.toString at 1. destruct (Z.ltb_spec n 0); [lia|].
    rewrite parseInt_decimal by lia.
    by destruct (Z.ltb_spec 0 n); [|lia].
Qed.

Lemma C9_calculatePageNumber_witness :
  calculatePageNumber "  1001st" = "3" ∧ calculatePageNumber "abc" = "1"
  ∧ calculatePageNumber (Js.toString 1500) = "3"
  ∧ calculatePageNumber "9007199254740991" = "18014398509482".
Proof.
  destruct C9_calculatePageNumber as (Hbad & Hgood & Hround & _).
  split; [|split; [|split]].
  - apply (Hgood "  1001st" 1001); [reflexivity | by vm_compute].
  - apply (Hbad "abc"). intros n Hn. vm_compute in Hn. discriminate Hn.
  - apply (Hround 1500). by vm_compute.
  - apply (Hgood "9007199254740991" Js.MAX_SAFE_INTEGER); [reflexivity | by vm_compute].
Defined.

(** ** The store: one write under the optimistic lock *)

#[global] Instance quiet_preorder : PreOrder quiet.
Proof.
  split.
  - intros w. by repeat split.
  - intros w1 w2 w3 (?&?&?&?&?&?&?) (?&?&?&?&?&?&?).
    repeat split; congruence.
Qed.

Lemma quiet_after_call (w : World) : quiet w (after_call w).
Proof. by repeat split. Qed.

Lemma storage_call_run (w : World) :
  storage_call w = (if call_fails w then Throw else Return tt, after_call w).
Proof. reflexivity. Qed.

Lemma storage_getItem_run (key : string) (w : World) :
  storage_getItem key w =
  (if call_fails w then Throw else Return (local_comments w !! key),
   after_call w).
Proof.
  unfold storage_getItem. rewrite bind_run, storage_call_run.
  by destruct (call_fails w).
Qed.

Lemma storage_setItem_run (key : string) (entry : CommentEntry) (w : World) :
  storage_setItem key entry w =
  if call_fails w then (Throw, after_call w)
  else (Return tt,
        log (EvSetComment key entry)
          (with_local_comments (<[key := entry]> (local_comments w))
             (after_call w))).
Proof.
  unfold storage_setItem. rewrite bind_run, storage_call_run.
  by destruct (call_fails w).
Qed.

Lemma storage_removeItem_run (key : string) (w : World) :
  storage_removeItem key w =
  if call_fails w then (Throw, after_call w)
  else (Return tt,
        log (EvRemoveComment key)
          (with_local_comments (delete key (local_comments w)) (after_call w))).
Proof.
  unfold storage_removeItem. rewrite bind_run, storage_call_run.
  by destruct (call_fails w).
Qed.

Lemma saveAttempt_run (entry : CommentEntry) (w : World) :
  saveAttempt entry w =
  if call_fails w then (Throw, after_call w)
  else if existing_is_newer (persisted w entry) entry
  then (Return RejectedStale, after_call w)
  else if call_fails (after_call w) then (Throw, after_call (after_call w))
  else (Return Written, written_world w (after_call (after_call w)) entry).
Proof.
  unfold saveAttempt. rewrite bind_run, storage_getItem_run.
  destruct (call_fails w); [done|]. fold (persisted w entry).
  destruct (existing_is_newer (persisted w entry) entry); [done|].
  rewrite bind_run. cbn [Date_now gets]. rewrite bind_run, storage_setItem_run.
  by destruct (call_fails (after_call w)).
Qed.

(** What a write can end in, and what it leaves behind. *)
Lemma saveRetryLoop_cases (entry : CommentEntry) (maxRetries remaining : nat)
    (w : World) :
  ∃ o w', saveRetryLoop entry maxRetries remaining w = (Return o, w') ∧
    match o with
    | Written =>
        existing_is_newer (persisted w entry) entry = false
        ∧ ∃ w1, quiet w w1 ∧ w' = written_world w w1 entry
    | RejectedStale =>
        existing_is_newer (persisted w entry) entry = true ∧ quiet w w'
    | RetriesExhausted => quiet w w'
    end.
Proof.
  revert w. induction remaining as [|remaining IH]; intros w.
  - exists RetriesExhausted, w. split; [done|]. reflexivity.
  - cbn [saveRetryLoop]. unfold try_catch. rewrite saveAttempt_run.
    set (pause := if (_ <? _)%nat then _ else _).
    assert (∀ w0, quiet w0 (pause w0).2 ∧ (pause w0).1 = Return tt) as Hpause.
    { intros w0. subst pause. destruct (_ <? _)%nat; by repeat split. }
    assert (∀ w0, quiet w w0 →
      ∃ o w', (pause;; saveRetryLoop entry maxRetries remaining) w0 = (Return o, w') ∧
        match o with
        | Written =>
            existing_is_newer (persisted w entry) entry = false
            ∧ ∃ w1, quiet w w1 ∧ w' = written_world w w1 entry
        | RejectedStale =>
            existing_is_newer (persisted w entry) entry = true ∧ quiet w w'
        | RetriesExhausted => quiet w w'
        end) as Hretry.
    { intros w0 Hq. rewrite bind_run.
      destruct (Hpause w0) as [Hq0 Hr0].
      destruct (pause w0) as [r0 w0']; simpl in *. subst r0.
      assert (quiet w w0') as Hq' by (etrans; done).
      destruct (IH w0') as (o & w' & -> & Ho).
      exists o, w'. split; [done|].
      assert (persisted w0' entry = persisted w entry) as Hp.
      { unfold persisted. by destruct Hq' as [-> _]. }
      assert (∀ w1, written_world w0' w1 entry = written_world w w1 entry) as Hw.
      { intros w1. unfold written_world, written_record, prior_version.
        rewrite Hp. by destruct Hq' as [-> _]. }
      rewrite Hp in Ho. destruct o.
      - destruct Ho as [? (w1 & ? & ->)]. split; [done|].
        exists w1. split; [by etrans | apply Hw].
      - destruct Ho. split; [done | by etrans].
      - by etrans. }
    destruct (call_fails w).
    { apply Hretry, quiet_after_call. }
    destruct (existing_is_newer (persisted w entry) entry) eqn:Hnewer.
    { exists RejectedStale, (after_call w). by split; [|split; [|apply quiet_after_call]]. }
    destruct (call_fails (after_call w)).
    { apply Hretry. etrans; apply quiet_after_call. }
    exists Written, (written_world w (after_call (after_call w)) entry).
    split; [done|]. split; [done|].
    exists (after_call (after_call w)). split; [|done].
    etrans; apply quiet_after_call.
Qed.

Lemma saveCommentWithOptimisticLock_run (entry : CommentEntry)
    (maxRetries : nat) (w : World) :
  ∃ o w',
    saveCommentWithOptimisticLock_outcome entry maxRetries w = (Return o, w')
    ∧ saveCommentWithOptimisticLock entry maxRetries w
      = (Return (outcome_result o), w')
    ∧ match o with
      | Written =>
          existing_is_newer (persisted w entry) entry = false
          ∧ ∃ w1, quiet w w1 ∧ w' = written_world w w1 entry
      | RejectedStale =>
          existing_is_newer (persisted w entry) entry = true ∧ quiet w w'
      | RetriesExhausted => quiet w w'
      end.
Proof.
  destruct (saveRetryLoop_cases entry maxRetries maxRetries w) as (o & w' & Hrun & Ho).
  exists o, w'. split; [done|]. split; [|done].
  unfold saveCommentWithOptimisticLock, saveCommentWithOptimisticLock_outcome.
  by rewrite bind_run, Hrun.
Qed.

Lemma persisted_written_world (w w1 : World) (entry : CommentEntry) :
  persisted (written_world w w1 entry) entry
  = Some (written_record w entry (clock w1)).
Proof. unfold persisted, written_world. simpl. apply lookup_insert_eq. Qed.

Lemma existing_is_newer_instants (cur entry : CommentEntry) (t0 t1 : Z) :
  updatedAt cur = Js.Instant t1 → updatedAt entry = Js.Instant t0 →
  existing_is_newer (Some cur) entry = bool_decide (t0 < t1).
Proof.
  intros H1 H0. unfold existing_is_newer. rewrite H1, H0. simpl.
  destruct (Z.ltb_spec t0 t1).
  - by rewrite bool_decide_eq_true_2.
  - rewrite bool_decide_eq_false_2; [done | lia].
Qed.

(** C2: a write that arrives with an [updatedAt] older than the one
    persisted under its key returns [false] and changes nothing: the
    persisted record is the one that was there, version included. *)
Theorem C2_older_write_is_rejected (entry : CommentEntry) (maxRetries : nat)
    (w : World) (cur : CommentEntry) (t0 t1 : Z) :
  persisted w entry = Some cur →
  updatedAt cur = Js.Instant t1 →
  updatedAt entry = Js.Instant t0 →
  t0 < t1 →
  (saveCommentWithOptimisticLock entry maxRetries w).1 = Return false
  ∧ quiet w (saveCommentWithOptimisticLock entry maxRetries w).2
  ∧ persisted (saveCommentWithOptimisticLock entry maxRetries w).2 entry
    = Some cur.
Proof.
  intros Hcur H1 H0 Hlt.
  destruct (saveCommentWithOptimisticLock_run entry maxRetries w)
    as (o & w' & _ & -> & Ho). simpl.
  assert (existing_is_newer (persisted w entry) entry = true) as Hnewer.
  { rewrite Hcur, (existing_is_newer_instants _ _ t0 t1) by done.
    by apply bool_decide_eq_true_2. }
  assert (o ≠ Written ∧ quiet w w') as [Ho' Hq].
  { destruct o; [destruct Ho; congruence | by destruct Ho | done]. }
  split; [by destruct o|]. split; [done|].
  unfold persisted in *. by destruct Hq as [-> _].
Qed.

Lemma C2_older_write_is_rejected_witness :
  (saveCommentWithOptimisticLock (sample_entry_at 1500) 3 sample_world).1
    = Return false
  ∧ quiet sample_world
      (saveCommentWithOptimisticLock (sample_entry_at 1500) 3 sample_world).2
  ∧ persisted
      (saveCommentWithOptimisticLock (sample_entry_at 1500) 3 sample_world).2
      (sample_entry_at 1500) = Some sample_entry.
Proof.
  apply (C2_older_write_is_rejected (sample_entry_at 1500) 3 sample_world
           sample_entry 1500 2000); [reflexivity | reflexivity | reflexivity | lia].
Defined.

(** C6: a write that returns [true] persists the entry with
    [version = (persisted version ?? 0) + 1], which is [1] when nothing
    was persisted, and with [updatedAt] the time of the write; the version
    the next write builds on has grown by one. *)
Theorem C6_version_bump (entry : CommentEntry) (maxRetries : nat) (w : World) :
  (saveCommentWithOptimisticLock entry maxRetries w).1 = Return true →
  let w' := (saveCommentWithOptimisticLock entry maxRetries w).2 in
  ∃ record,
    persisted w' entry = Some record
    ∧ version record = Some (prior_version w entry + 1)
    ∧ (persisted w entry = None → version record = Some 1)
    ∧ updatedAt record = Js.Instant (clock w')
    ∧ record = with_version_updatedAt (prior_version w entry + 1)
                 (Js.Instant (clock w')) entry
    ∧ prior_version w' entry = prior_version w entry + 1.
Proof.
  destruct (saveCommentWithOptimisticLock_run entry maxRetries w)
    as (o & w' & _ & -> & Ho). simpl. intros Hr.
  destruct o; try discriminate Hr.
  destruct Ho as [_ (w1 & Hq & ->)].
  exists (written_record w entry (clock w1)).
  rewrite persisted_written_world. split; [done|]. split; [done|].
  split. { intros Hnone. simpl. unfold prior_version. by rewrite Hnone. }
  split; [done|]. split; [done|].
  unfold prior_version at 1. by rewrite persisted_written_world.
Qed.

Lemma C6_version_bump_witness :
  ∃ record,
    persisted (saveCommentWithOptimisticLock (sample_entry_at 5000) 3 sample_world).2
      (sample_entry_at 5000) = Some record
    ∧ version record = Some 2
    ∧ updatedAt record = Js.Instant 5000.
Proof.
  destruct (C6_version_bump (sample_entry_at 5000) 3 sample_world eq_refl)
    as (record & Hp & Hv & _ & Ht & _).
  exists record. split; [exact Hp|]. split; [exact Hv | exact Ht].
Defined.

(** C7: when the first of two writes of the same entry in a row did not
    give up after its retries (it wrote the entry, or it was rejected as
    stale), the two writes leave the same persisted [resCount] and
    [unreadCount] as the first alone: the second call returns [false] and
    changes nothing, or it overwrites the record with the counters of the
    entry again. *)
Theorem C7_put_is_idempotent (entry : CommentEntry) (n1 n2 : nat) (w : World) :
  (saveCommentWithOptimisticLock_outcome entry n1 w).1 ≠ Return RetriesExhausted →
  let w1 := (saveCommentWithOptimisticLock entry n1 w).2 in
  let r2 := (saveCommentWithOptimisticLock entry n2 w1).1 in
  let w2 := (saveCommentWithOptimisticLock entry n2 w1).2 in
  counters (persisted w2 entry) = counters (persisted w1 entry)
  ∧ ((r2 = Return false ∧ local_comments w2 = local_comments w1)
     ∨ (r2 = Return true
        ∧ counters (persisted w2 entry)
          = Some (resCount entry, unreadCount entry))).
Proof.
  destruct (saveCommentWithOptimisticLock_run entry n1 w)
    as (o1 & w1 & -> & -> & Ho1). simpl. intros Hne.
  destruct (saveCommentWithOptimisticLock_run entry n2 w1)
    as (o2 & w2 & _ & -> & Ho2). simpl.
  assert (∀ w0 wa, counters (persisted (written_world w0 wa entry) entry)
                   = Some (resCount entry, unreadCount entry)) as Hcount.
  { intros w0 wa. by rewrite persisted_written_world. }
  assert (∀ wa wb, quiet wa wb → persisted wb entry = persisted wa entry) as Hsame.
  { intros wa wb Hq. unfold persisted. by destruct Hq as [-> _]. }
  destruct o2.
  - destruct Ho2 as [Hfresh (wa & _ & ->)]. rewrite Hcount.
    split; [|by right].
    destruct o1; [| |done].
    + destruct Ho1 as [_ (wb & _ & ->)]. by rewrite Hcount.
    + destruct Ho1 as [Hstale Hq]. rewrite (Hsame _ _ Hq) in Hfresh. congruence.
  - destruct Ho2 as [_ Hq].
    split; [by rewrite (Hsame _ _ Hq) | left; split; [done | by destruct Hq]].
  - split; [by rewrite (Hsame _ _ Ho2) | left; split; [done | by destruct Ho2]].
Qed.

Lemma C7_put_is_idempotent_witness :
  let w1 := (saveCommentWithOptimisticLock (sample_entry_at 5000) 3 sample_world).2 in
  let w2 := (saveCommentWithOptimisticLock (sample_entry_at 5000) 3 w1).2 in
  counters (persisted w2 (sample_entry_at 5000))
  = counters (persisted w1 (sample_entry_at 5000)).
Proof.
  intros w1 w2.
  refine (proj1 (C7_put_is_idempotent (sample_entry_at 5000) 3 3 sample_world _)).
  vm_compute. discriminate.
Defined.

(** C7 as it is worded fails when the first write gives up: three storage
    calls in a row throw, the first write returns [false] and leaves the
    record at (5, 5); storage works again, and the second write of the
    same entry stores (7, 7). *)
Lemma C7_counterexample :
  let entry := sample_entry_at 5000 in
  let w := with_faults [true; true; true] sample_world in
  let once := saveCommentWithOptimisticLock entry 3 w in
  let twice := saveCommentWithOptimisticLock entry 3 once.2 in
  once.1 = Return false
  ∧ counters (persisted once.2 entry) = Some (Js.Val 5, Js.Val 5)
  ∧ twice.1 = Return true
  ∧ counters (persisted twice.2 entry) = Some (Js.Val 7, Js.Val 7)
  ∧ counters (persisted twice.2 entry) ≠ counters (persisted once.2 entry).
Proof. vm_compute. repeat split; discriminate. Qed.

(** ** What each function leaves untouched *)

#[global] Instance keeps_preorder {B} (f : World → B) : PreOrder (keeps f).
Proof.
  split; [by intros w|]. intros w1 w2 w3 H12 H23. unfold keeps in *. congruence.
Qed.

Section Frames.
Context (R : relation World) `{!PreOrder R}.
Hypothesis R_faults : ∀ w fs, R w (with_faults fs w).
Hypothesis R_clock : ∀ w t, R w (with_clock t w).
Hypothesis R_log_fetch : ∀ w url, R w (log (EvFetch url) w).
Hypothesis R_log_set : ∀ w key e, R w (log (EvSetComment key e) w).
Hypothesis R_log_remove : ∀ w key, R w (log (EvRemoveComment key) w).
Hypothesis R_log_total : ∀ w total, R w (log (EvSetUnreadTotal total) w).
Hypothesis R_store : ∀ w m, R w (with_local_comments m w).
Hypothesis R_cache : ∀ w c, R w (with_commentCache c w).
Hypothesis R_total : ∀ w t, R w (with_unread_total t w).
Hypothesis R_remote : ∀ w r, R w (with_remote r w).

Lemma respects_storage_call : respects R storage_call.
Proof. intros w. apply R_faults. Qed.

Lemma respects_sleep (ms : Z) : respects R (sleep ms).
Proof. unfold sleep. frame. apply R_clock. Qed.

Lemma respects_storage_getItem (key : string) : respects R (storage_getItem key).
Proof. unfold storage_getItem. frame. apply respects_storage_call. Qed.

Lemma respects_storage_setItem (key : string) (e : CommentEntry) :
  respects R (storage_setItem key e).
Proof.
  unfold storage_setItem. frame; [apply respects_storage_call|].
  etrans; [apply R_store | apply R_log_set].
Qed.

Lemma respects_storage_removeItem (key : string) :
  respects R (storage_removeItem key).
Proof.
  unfold storage_removeItem. frame; [apply respects_storage_call|].
  etrans; [apply R_store | apply R_log_remove].
Qed.

Lemma respects_crawlerEnabled : respects R crawlerEnabled.
Proof.
  unfold crawlerEnabled, storage_getItem_CRAWLER_ENABLED. frame.
  apply respects_storage_call.
Qed.

Lemma respects_afterEntry : respects R afterEntry.
Proof.
  unfold afterEntry. frame; eauto using respects_sleep, respects_crawlerEnabled.
Qed.

Lemma respects_saveAttempt (entry : CommentEntry) : respects R (saveAttempt entry).
Proof.
  unfold saveAttempt, Date_now. frame;
    eauto using respects_storage_getItem, respects_storage_setItem.
Qed.

Lemma respects_saveRetryLoop (entry : CommentEntry) (maxRetries remaining : nat) :
  respects R (saveRetryLoop entry maxRetries remaining).
Proof.
  induction remaining as [|remaining IH]; cbn [saveRetryLoop]; frame;
    eauto using respects_saveAttempt, respects_sleep.
Qed.

Lemma respects_saveCommentWithOptimisticLock (entry : CommentEntry)
    (maxRetries : nat) :
  respects R (saveCommentWithOptimisticLock entry maxRetries).
Proof.
  unfold saveCommentWithOptimisticLock, saveCommentWithOptimisticLock_outcome.
  frame. apply respects_saveRetryLoop.
Qed.

Lemma respects_deleteComment (t c : string) : respects R (deleteComment t c).
Proof.
  unfold deleteComment, deleteCommentFromStorage. frame;
    eauto using respects_storage_removeItem.
Qed.

Lemma respects_enforceMaxEntries : respects R enforceMaxEntries.
Proof.
  unfold enforceMaxEntries, getAllCommentsFromCache. frame.
  apply respects_deleteComment.
Qed.

Lemma respects_saveComment (entry : CommentEntry) : respects R (saveComment entry).
Proof.
  unfold saveComment. frame;
    eauto using respects_saveCommentWithOptimisticLock,
      respects_storage_getItem, respects_enforceMaxEntries.
Qed.

Lemma respects_adjustUnread (delta : Js.Num) : respects R (adjustUnread delta).
Proof.
  unfold adjustUnread, getUnreadTotal, setUnreadTotal,
    storage_getItem_UNREAD_TOTAL, storage_setItem_UNREAD_TOTAL.
  frame; try apply respects_storage_call.
  etrans; [apply R_total | apply R_log_total].
Qed.

Lemma respects_fetchResCountForComment (t c : string) :
  respects R (fetchResCountForComment t c).
Proof.
  unfold fetchResCountForComment. frame.
  intros w. unfold fetch_and_parse.
  destruct (remote (log _ w)) eqn:Hr; simpl.
  - apply R_log_fetch.
  - etrans; [apply R_log_fetch | apply R_remote].
Qed.

Lemma respects_saveAndAdjust (upd : CommentEntry) (delta : Js.Num) :
  respects R (saveAndAdjust saveComment adjustUnread upd delta).
Proof.
  unfold saveAndAdjust. frame;
    eauto using respects_saveComment, respects_adjustUnread.
Qed.

Lemma respects_crawlEntry (comment : CommentEntry) :
  respects R (crawlEntry getCommentFromCache saveComment adjustUnread comment).
Proof.
  unfold crawlEntry, getCommentFromCache, Date_now. frame;
    eauto using respects_fetchResCountForComment, respects_saveAndAdjust.
Qed.

Lemma respects_crawlIteration (comment : CommentEntry) (n : Z) :
  respects R (crawlIteration getCommentFromCache saveComment adjustUnread comment n).
Proof.
  unfold crawlIteration. frame;
    eauto using respects_crawlerEnabled, respects_crawlEntry, respects_afterEntry.
Qed.

Lemma respects_crawlLoop (l : list CommentEntry) (n : Z) :
  respects R (crawlLoop getCommentFromCache saveComment adjustUnread l n).
Proof.
  revert n. induction l as [|c l IH]; intros n; cbn [crawlLoop]; frame;
    eauto using respects_crawlIteration.
Qed.

End Frames.

(** ** The comment service: save, read back, cache *)

Lemma storage_key_literal (t c : string) :
  ("local:comment:" +:+ t +:+ ":" +:+ c)%string = getStorageKey t c.
Proof. reflexivity. Qed.

Lemma saveComment_run (entry : CommentEntry) (w : World) :
  (∃ w1, quiet w w1 ∧ saveComment entry w = (Return None, w1)
         ∧ (saveCommentWithOptimisticLock entry OPTIMISTIC_LOCK.MAX_RETRIES w).1
           = Return false)
  ∨ (∃ wq, quiet w wq
       ∧ existing_is_newer (persisted w entry) entry = false
       ∧ (saveCommentWithOptimisticLock entry OPTIMISTIC_LOCK.MAX_RETRIES w).1
         = Return true
       ∧ let record := written_record w entry (clock wq) in
         let w1 := written_world w wq entry in
         saveComment entry w =
         if call_fails w1 then (Throw, after_call w1)
         else
           match enforceMaxEntries (cached_world w1 entry record) with
           | (Return _, w3) => (Return (Some record), w3)
           | (Throw, w3) => (Throw, w3)
           end).
Proof.
  destruct (saveCommentWithOptimisticLock_run entry OPTIMISTIC_LOCK.MAX_RETRIES w)
    as (o & w1 & _ & Hrun & Ho).
  unfold saveComment. rewrite bind_run, Hrun.
  destruct o; cbn [outcome_result negb fst].
  - right. destruct Ho as [Hfresh (wq & Hq & ->)].
    exists wq. split; [done|]. split; [done|]. split; [done|].
    cbv zeta. rewrite storage_key_literal, bind_run, storage_getItem_run.
    destruct (call_fails _); [done|].
    fold (persisted (written_world w wq entry) entry).
    rewrite persisted_written_world. rewrite !bind_run. cbn [modify].
    rewrite bind_run. unfold cached_world.
    change (commentCache (after_call (written_world w wq entry)))
      with (commentCache (written_world w wq entry)).
    by destruct (enforceMaxEntries _) as [[[]|] w3].
  - left. destruct Ho as [_ Hq]. by exists w1.
  - left. by exists w1.
Qed.

(** What the store hands back is the entry it was given, stamped. *)
Lemma saveComment_returns (entry e : CommentEntry) (w : World) :
  (saveComment entry w).1 = Return (Some e) →
  ∃ v t, e = with_version_updatedAt v (Js.Instant t) entry.
Proof.
  destruct (saveComment_run entry w) as [(w1 & _ & -> & _)|(wq & _ & _ & _ & ->)];
    [done|].
  destruct (call_fails _); [done|].
  destruct (enforceMaxEntries _) as [[[]|] w3]; [|done].
  intros [= <-]. by eexists _, _.
Qed.

(** ** The unread accounter *)

Lemma adjustUnread_run (d : Z) (w : World) :
  d ≠ 0 →
  adjustUnread (Js.Int d) w =
  if call_fails w then (Throw, after_call w)
  else if call_fails (after_call w) then (Throw, after_call (after_call w))
  else (Return tt,
        log (EvSetUnreadTotal (Z.max 0 (default 0 (unread_total w) + d)))
          (with_unread_total (Some (Z.max 0 (default 0 (unread_total w) + d)))
             (after_call (after_call w)))).
Proof.
  intros Hd. unfold adjustUnread. cbn [Js.falsy].
  destruct (Z.eqb_spec d 0); [done|].
  unfold getUnreadTotal, setUnreadTotal, storage_getItem_UNREAD_TOTAL,
    storage_setItem_UNREAD_TOTAL.
  rewrite !bind_run, storage_call_run.
  destruct (call_fails w); [done|]. cbn [gets mret M_ret].
  rewrite !bind_run, storage_call_run.
  by destruct (call_fails (after_call w)).
Qed.

(** ** One entry of the cycle *)

Lemma fetchResCountForComment_run (t c : string) (w : World) :
  ∃ res w1,
    fetchResCountForComment t c w = (Return res, w1)
    ∧ keeps local_comments w w1 ∧ keeps unread_total w w1
    ∧ keeps commentCache w w1 ∧ keeps clock w w1 ∧ keeps faults w w1
    ∧ keeps isCrawling w w1 ∧ keeps crawler_enabled w w1
    ∧ (res = None ∨ ∃ r, res = Some r ∧ 0 ≤ r
                         ∧ head (remote w) = Some (Some r)
                         ∧ validateTopicId t = true
                         ∧ validateCommentNumber c = true).
Proof.
  unfold fetchResCountForComment.
  destruct (validateTopicId t) eqn:Ht, (validateCommentNumber c) eqn:Hc;
    cbn [negb orb]; try by (eexists _, w; split; [done|]; repeat split; by left).
  rewrite bind_run. unfold fetch_and_parse. cbn [remote log].
  destruct (remote w) as [|[r|] rest] eqn:Hr; cbn [M_ret mret].
  - eexists _, _. split; [done|]. repeat split; by left.
  - destruct (Z.leb_spec 0 r); eexists _, _; (split; [done|]);
      repeat split; try done; [right | left; done].
    exists r. by repeat split.
  - eexists _, _. split; [done|]. repeat split; by left.
Qed.

Lemma crawlEntry_run (comment : CommentEntry) (w : World) :
  crawlEntry getCommentFromCache saveComment adjustUnread comment w =
  let prev := previousComment w comment in
  if skipped_as_old prev (clock w) then (Return false, w)
  else
    match fetchResCountForComment (topicId comment) (commentNumber comment) w with
    | (Return (Some r), w1) =>
        match reconcile prev r (clock w1) with
        | Some (upd, delta) => saveAndAdjust saveComment adjustUnread upd delta w1
        | None => (Return false, w1)
        end
    | (Return None, w1) => (Return false, w1)
    | (Throw, w1) => (Throw, w1)
    end.
Proof.
  unfold crawlEntry, getCommentFromCache, Date_now. rewrite !bind_run.
  cbn [gets]. fold (previousComment w comment). rewrite bind_run. cbn [gets].
  destruct (skipped_as_old _ _); [done|]. rewrite bind_run.
  destruct (fetchResCountForComment _ _ w) as [[[r|]|] w1]; try done.
  rewrite bind_run. cbn [gets].
  by destruct (reconcile _ _ _) as [[upd delta]|].
Qed.

Lemma skipped_as_old_instant (prev : CommentEntry) (posted now : Z) :
  postedAt prev = Js.Instant posted →
  skipped_as_old prev now
  = bool_decide (days_ms CRAWLER_CONFIG.SKIP_AFTER_DAYS ≤ now - posted).
Proof.
  intros Hp. unfold skipped_as_old. rewrite Hp. cbn [Js.truthy Js.getTime].
  unfold elapsedDays, days_ms, CRAWLER_CONFIG.SKIP_AFTER_DAYS.
  destruct (Qle_bool _ _) eqn:Hq.
  - symmetry. apply bool_decide_eq_true_2.
    apply Qle_bool_iff in Hq. unfold Qle in Hq. simpl in Hq. lia.
  - symmetry. apply bool_decide_eq_false_2. intros Hle.
    assert (Qle_bool (inject_Z 31) ((now - posted) # (1000 * 60 * 60 * 24)) = true)
      as Hq'; [|congruence].
    apply Qle_bool_iff. unfold Qle. simpl. unfold days_ms in Hle. lia.
Qed.

(** ** Reconciliation of one entry *)

Lemma newUnreadCount_Val (p : Z) (previousUnread : Js.Nullable Z) (r : Z) :
  newUnreadCount (Js.Val p) previousUnread r
  = Z.max 0 ((r - p) + Js.nullish 0 previousUnread).
Proof. unfold newUnreadCount. f_equal. Qed.

Lemma reconcile_counts (prev upd : CommentEntry) (r now : Z) (delta : Js.Num) :
  reconcile prev r now = Some (upd, delta) →
  upd = with_counts_updatedAt r
          (newUnreadCount (resCount prev) (unreadCount prev) r)
          (Js.Instant now) prev
  ∧ delta = Js.sub (newUnreadCount (resCount prev) (unreadCount prev) r)
              (Js.ToNumber (unreadCount prev)).
Proof.
  unfold reconcile. destruct (_ || _); [|done]. by intros [= <- <-].
Qed.

(** C1, as the code has it: when the remote count [r] was fetched and the
    stored reply count is the number [p], the unread count of the
    reconciled entry is [max(0, (r - p) + u)], [u] being the stored unread
    count (0 when missing).  It is never negative and it is 0 exactly when
    [r + u <= p]; so previous (8, 0) seeing 6 gives 0, and previous (5, 5)
    seeing 7 gives 7.  This is the entry the cycle hands to the store, and
    the entry the store hands back when the write succeeds. *)
Theorem C1_reconciled_unread (comment : CommentEntry) (w : World) (r p : Z) :
  let prev := previousComment w comment in
  let fetched := fetchResCountForComment (topicId comment) (commentNumber comment) w in
  let newUnread := Z.max 0 ((r - p) + Js.nullish 0 (unreadCount prev)) in
  skipped_as_old prev (clock w) = false →
  fetched.1 = Return (Some r) →
  resCount prev = Js.Val p →
  0 ≤ newUnread
  ∧ (newUnread = 0 ↔ r + Js.nullish 0 (unreadCount prev) ≤ p)
  ∧ crawlEntry getCommentFromCache saveComment adjustUnread comment w
    = match reconcile prev r (clock fetched.2) with
      | Some (upd, delta) =>
          saveAndAdjust saveComment adjustUnread upd delta fetched.2
      | None => (Return false, fetched.2)
      end
  ∧ (∀ upd delta,
       reconcile prev r (clock fetched.2) = Some (upd, delta) →
       resCount upd = Js.Val r ∧ unreadCount upd = Js.Val newUnread
       ∧ ∀ e, (saveComment upd fetched.2).1 = Return (Some e) →
              resCount e = Js.Val r ∧ unreadCount e = Js.Val newUnread)
  ∧ newUnreadCount (Js.Val 8) (Js.Val 0) 6 = 0
  ∧ newUnreadCount (Js.Val 5) (Js.Val 5) 7 = 7.
Proof.
  intros prev fetched newUnread Hskip Hfetch Hp.
  split; [lia|]. split; [lia|]. split.
  { rewrite crawlEntry_run. cbv zeta. fold prev. rewrite Hskip. fold fetched.
    destruct fetched as [res w1]. simpl in Hfetch. by subst res. }
  split; [|done].
  intros upd delta Hrec. apply reconcile_counts in Hrec as [-> _].
  rewrite Hp, newUnreadCount_Val. fold newUnread. split; [done|]. split; [done|].
  intros e He. apply saveComment_returns in He as (v & t & ->). done.
Qed.

Lemma C1_reconciled_unread_witness :
  let w' := (crawlEntry getCommentFromCache saveComment adjustUnread
               sample_entry sample_world).2 in
  counters (persisted w' sample_entry) = Some (Js.Val 7, Js.Val 7)
  ∧ unread_total w' = Some 7.
Proof.
  destruct (C1_reconciled_unread sample_entry sample_world 7 5
              eq_refl eq_refl eq_refl) as (_ & _ & Hrun & _).
  rewrite Hrun. vm_compute. split; reflexivity.
Defined.

(** C1 as it is worded fails: a remote count below the stored one does not
    make the unread count 0 when unread replies were pending.  Previous
    (8, 5) seeing 6 keeps 3 unread. *)
Lemma C1_counterexample :
  let w := world_with (Js.Val 8, Js.Val 5) 6 in
  let w' := (crawlCycle w).2 in
  counters (persisted w sample_entry) = Some (Js.Val 8, Js.Val 5)
  ∧ head (remote w) = Some (Some 6)
  ∧ 6 < 8
  ∧ counters (persisted w' sample_entry) = Some (Js.Val 6, Js.Val 3)
  ∧ newUnreadCount (Js.Val 8) (Js.Val 5) 6 ≠ 0.
Proof. vm_compute. repeat split; discriminate. Qed.

(** The delta law of the design document, on a whole cycle: previous
    (5, 2) seeing 8 becomes (8, 5) and the total grows by 3. *)
Example delta_law :
  let w := world_with (Js.Val 5, Js.Val 2) 8 in
  let w' := (crawlCycle w).2 in
  (crawlCycle w).1 = Return 1
  ∧ counters (persisted w' sample_entry) = Some (Js.Val 8, Js.Val 5)
  ∧ unread_total w = Some 2
  ∧ unread_total w' = Some 5.
Proof. vm_compute. repeat split. Qed.

(** The regression law: previous (8, 0) seeing 6 becomes (6, 0). *)
Example regression_law :
  let w := world_with (Js.Val 8, Js.Val 0) 6 in
  let w' := (crawlCycle w).2 in
  counters (persisted w' sample_entry) = Some (Js.Val 6, Js.Val 0)
  ∧ unread_total w' = Some 0.
Proof. vm_compute. repeat split. Qed.

(** C10: when the stored reply count is [null] or [undefined], the
    reconciled entry has [unreadCount = 0] whatever the remote count, and
    [resCount] the remote count; the entry always goes to the store, and
    the store hands it back with these counters when the write succeeds. *)
Theorem C10_missing_reply_count (comment : CommentEntry) (w : World) (r : Z) :
  let prev := previousComment w comment in
  let fetched := fetchResCountForComment (topicId comment) (commentNumber comment) w in
  let upd := with_counts_updatedAt r 0 (Js.Instant (clock fetched.2)) prev in
  let delta := Js.sub 0 (Js.ToNumber (unreadCount prev)) in
  skipped_as_old prev (clock w) = false →
  fetched.1 = Return (Some r) →
  Js.is_nullish (resCount prev) = true →
  newUnreadCount (resCount prev) (unreadCount prev) r = 0
  ∧ resCount upd = Js.Val r ∧ unreadCount upd = Js.Val 0
  ∧ crawlEntry getCommentFromCache saveComment adjustUnread comment w
    = saveAndAdjust saveComment adjustUnread upd delta fetched.2
  ∧ ∀ e, (saveComment upd fetched.2).1 = Return (Some e) →
         resCount e = Js.Val r ∧ unreadCount e = Js.Val 0.
Proof.
  intros prev fetched upd delta Hskip Hfetch Hnull.
  assert (newUnreadCount (resCount prev) (unreadCount prev) r = 0) as Hzero.
  { unfold newUnreadCount. by destruct (resCount prev). }
  assert (reconcile prev r (clock fetched.2) = Some (upd, delta)) as Hrec.
  { unfold reconcile. rewrite Hzero.
    assert (Js.strict_ne r (resCount prev) = true) as ->
      by by destruct (resCount prev).
    by rewrite orb_true_r. }
  split; [done|]. split; [done|]. split; [done|]. split.
  - rewrite crawlEntry_run. cbv zeta. fold prev. rewrite Hskip. fold fetched.
    destruct fetched as [res w1]. simpl in *. subst res. by rewrite Hrec.
  - intros e He. apply saveComment_returns in He as (v & t & ->). done.
Qed.

Lemma C10_missing_reply_count_witness :
  let w := world_with (Js.Undefined, Js.Val 4) 9 in
  let w' := (crawlEntry getCommentFromCache saveComment adjustUnread
               sample_entry w).2 in
  counters (persisted w' sample_entry) = Some (Js.Val 9, Js.Val 0).
Proof.
  intros w.
  destruct (C10_missing_reply_count sample_entry w 9 eq_refl eq_refl eq_refl)
    as (_ & _ & _ & Hrun & _).
  rewrite Hrun. vm_compute. reflexivity.
Defined.

(** ** The skip of old entries *)

Lemma crawlerEnabled_run (w : World) :
  crawlerEnabled w =
  (Return (if call_fails w then true else default true (crawler_enabled w)),
   after_call w).
Proof.
  unfold crawlerEnabled, try_catch, storage_getItem_CRAWLER_ENABLED.
  rewrite !bind_run, storage_call_run. by destruct (call_fails w).
Qed.

Lemma afterEntry_run (w : World) :
  afterEntry w =
  crawlerEnabled (with_clock (clock w + CRAWLER_CONFIG.ACTIVE_DELAY_MS) w).
Proof. reflexivity. Qed.

Lemma quiet_with_clock (w : World) (t : Z) : quiet w (with_clock t w).
Proof. by repeat split. Qed.

Lemma quiet_with_faults (w : World) (fs : list bool) : quiet w (with_faults fs w).
Proof. by repeat split. Qed.

(** C8: an entry that was posted 31 days ago or earlier (in particular:
    more than 31 days ago) is skipped.  Nothing is fetched and nothing is
    written: the world is the one before.  The turn of the loop ends with
    the usual delay, and the loop goes on with the next entry unless the
    flag read after the delay says that crawling is switched off: then
    the cycle ends there. *)
Theorem C8_old_entry_is_skipped (comment : CommentEntry) (w : World)
    (posted : Z) :
  postedAt (previousComment w comment) = Js.Instant posted →
  days_ms CRAWLER_CONFIG.SKIP_AFTER_DAYS ≤ clock w - posted →
  crawlEntry getCommentFromCache saveComment adjustUnread comment w
    = (Return false, w)
  ∧ ∀ rest n,
      (crawlerEnabled w).1 = Return true →
      let turn :=
        crawlIteration getCommentFromCache saveComment adjustUnread comment n w in
      let stopped :=
        bool_decide (crawler_enabled w = Some false)
        && negb (call_fails (after_call w)) in
      turn.1 = Return (negb stopped, n)
      ∧ quiet w turn.2
      ∧ clock turn.2 = clock w + CRAWLER_CONFIG.ACTIVE_DELAY_MS
      ∧ crawlLoop getCommentFromCache saveComment adjustUnread
          (comment :: rest) n w
        = (if stopped then (Return n, turn.2)
           else crawlLoop getCommentFromCache saveComment adjustUnread
                  rest n turn.2)
      ∧ (crawler_enabled w ≠ Some false →
         crawlLoop getCommentFromCache saveComment adjustUnread
           (comment :: rest) n w
         = crawlLoop getCommentFromCache saveComment adjustUnread
             rest n turn.2).
Proof.
  intros Hposted Hold.
  assert (∀ w0, quiet w w0 → clock w0 = clock w →
            crawlEntry getCommentFromCache saveComment adjustUnread comment w0
            = (Return false, w0)) as Hskip.
  { intros w0 Hq Hclock. rewrite crawlEntry_run. cbv zeta.
    assert (previousComment w0 comment = previousComment w comment) as ->.
    { unfold previousComment. by destruct Hq as (_ & _ & _ & -> & _). }
    rewrite (skipped_as_old_instant _ posted) by done.
    rewrite Hclock. by rewrite bool_decide_eq_true_2. }
  split. { apply Hskip; [reflexivity | done]. }
  intros rest n Henabled.
  set (w2 := after_call (with_clock (clock w + CRAWLER_CONFIG.ACTIVE_DELAY_MS)
                           (after_call w))).
  set (continue := if call_fails (after_call w)
                   then true else default true (crawler_enabled w)).
  assert (crawlIteration getCommentFromCache saveComment adjustUnread comment n w
          = (Return (continue, n), w2)) as Hturn.
  { unfold crawlIteration. rewrite bind_run.
    rewrite crawlerEnabled_run in Henabled |- *. simpl in Henabled.
    injection Henabled as ->. cbn [negb]. rewrite bind_run. unfold try_catch.
    rewrite Hskip by (done || apply quiet_after_call).
    rewrite bind_run, afterEntry_run, crawlerEnabled_run. reflexivity. }
  cbv zeta. rewrite Hturn. cbn [fst snd].
  assert (continue
          = negb (bool_decide (crawler_enabled w = Some false)
                  && negb (call_fails (after_call w)))) as Hcontinue.
  { subst continue. destruct (call_fails (after_call w)).
    - by rewrite andb_false_r.
    - rewrite andb_true_r. by destruct (crawler_enabled w) as [[]|]. }
  assert (crawlLoop getCommentFromCache saveComment adjustUnread
            (comment :: rest) n w
          = if continue
            then crawlLoop getCommentFromCache saveComment adjustUnread rest n w2
            else (Return n, w2)) as Hloop.
  { cbn [crawlLoop]. rewrite bind_run, Hturn. by destruct continue. }
  split; [by rewrite Hcontinue|]. split.
  { subst w2. etrans; [apply quiet_after_call|].
    etrans; [apply quiet_with_clock | apply quiet_after_call]. }
  split; [done|]. rewrite Hloop, Hcontinue. split.
  - by destruct (_ && _).
  - intros Hon. by rewrite bool_decide_eq_false_2.
Qed.

Lemma C8_old_entry_is_skipped_witness :
  let w := with_clock (days_ms 40) sample_world in
  crawlEntry getCommentFromCache saveComment adjustUnread sample_entry w
  = (Return false, w)
  ∧ crawlLoop getCommentFromCache saveComment adjustUnread
      [sample_entry; newcomer] 0 w
    = crawlLoop getCommentFromCache saveComment adjustUnread [newcomer] 0
        (crawlIteration getCommentFromCache saveComment adjustUnread
           sample_entry 0 w).2.
Proof.
  intros w.
  assert (days_ms CRAWLER_CONFIG.SKIP_AFTER_DAYS ≤ clock w - 1000) as Hold
    by (vm_compute; discriminate).
  destruct (C8_old_entry_is_skipped sample_entry w 1000 eq_refl Hold)
    as [Hskip Hturn].
  split; [exact Hskip|].
  destruct (Hturn [newcomer] 0 eq_refl) as (_ & _ & _ & _ & Hnext).
  apply Hnext. discriminate.
Defined.

(** C8 as it is worded fails where the flag stops the cycle.  Crawling is
    switched off, but the read of the flag before the entry throws, which
    lets the entry through; the entry is old and is skipped; after the
    delay the flag is read, and the cycle ends: the next entry, which is
    not old, is never visited and nothing is requested from the site. *)
Lemma C8_counterexample :
  let w := mkWorld (local_comments sample_world) (unread_total sample_world)
             (Some false) (commentCache sample_world) false (days_ms 40)
             [true] (remote sample_world) [] in
  let turn :=
    crawlIteration getCommentFromCache saveComment adjustUnread sample_entry 0 w in
  let run :=
    crawlLoop getCommentFromCache saveComment adjustUnread
      [sample_entry; newcomer] 0 w in
  skipped_as_old (previousComment w sample_entry) (clock w) = true
  ∧ (crawlerEnabled w).1 = Return true
  ∧ turn.1 = Return (false, 0)
  ∧ skipped_as_old (previousComment w newcomer) (clock turn.2) = false
  ∧ run = (Return 0, turn.2)
  ∧ trace run.2 = []
  ∧ remote run.2 = remote w.
Proof. vm_compute. repeat split. Qed.

(** ** The unread total follows the store *)

Lemma saveAndAdjust_run (upd : CommentEntry) (delta : Js.Num) (w : World) :
  saveAndAdjust saveComment adjustUnread upd delta w =
  match saveComment upd w with
  | (Return (Some _), w1) =>
      if Js.nonzero delta
      then match adjustUnread delta w1 with
           | (Return _, w2) => (Return true, w2)
           | (Throw, w2) => (Throw, w2)
           end
      else (Return true, w1)
  | (Return None, w1) => (Return false, w1)
  | (Throw, w1) => (Throw, w1)
  end.
Proof.
  unfold saveAndAdjust. rewrite bind_run.
  destruct (saveComment upd w) as [[[e|]|] w1]; try done.
  rewrite bind_run. destruct (Js.nonzero delta); [|done].
  by destruct (adjustUnread delta w1) as [[[]|] w2].
Qed.

Lemma saveComment_keeps_accounted (entry : CommentEntry) :
  respects (keeps accounted) (saveComment entry).
Proof.
  apply respects_saveComment; first [apply _ | by intros; unfold keeps].
Qed.



(** ** One cycle at a time *)





(** The steps of a call that runs alone are the cycle: the step relation
    and [crawlCommentsOnce] describe the same code. *)
Lemma lone_loop_steps (l : list CommentEntry) (n : Z) (w : World) :
  let run := crawlLoop getCommentFromCache saveComment adjustUnread l n w in
  rtc step (mkSystem w [InCycle l n])
    (mkSystem run.2 [InCycle [] (match run.1 with Return m => m | Throw => 0 end)]).
Proof.
  revert n w. induction l as [|c rest IH]; intros n w; cbv zeta.
  - apply rtc_refl.
  - cbn [crawlLoop]. rewrite bind_run.
    destruct (crawlIteration getCommentFromCache saveComment adjustUnread c n w)
      as [[[continue n']|] wi] eqn:Hturn.
    + eapply rtc_l; [by eapply (step_turn w _ 0%nat c rest n continue n' wi)|].
      change (<[0%nat:=?x]> [?y]) with [x].
      destruct continue; [apply IH | apply rtc_refl].
    + eapply rtc_l; [by eapply (step_error w _ 0%nat c rest n wi)|].
      apply rtc_refl.
Qed.

Lemma lone_call_steps (l : list CommentEntry) (w : World) :
  isCrawling w = false →
  let run := crawlCommentsOnce l getCommentFromCache saveComment adjustUnread w in
  ∃ n, run.1 = Return n
       ∧ rtc step (mkSystem w [Requested l]) (mkSystem run.2 [Returned n]).
Proof.
  intros Hidle. cbv zeta. unfold crawlCommentsOnce. rewrite Hidle. cbv zeta.
  pose proof (lone_loop_steps l 0 (with_isCrawling true w)) as Hloop.
  cbv zeta in Hloop. unfold try_catch.
  assert (match l with
          | [] => mret 0
          | _ :: _ => crawlLoop getCommentFromCache saveComment adjustUnread l 0
          end = crawlLoop getCommentFromCache saveComment adjustUnread l 0) as ->
    by by destruct l.
  destruct (crawlLoop _ _ _ l 0 (with_isCrawling true w)) as [[m|] w2];
    cbn [fst snd] in *.
  - exists m. split; [done|].
    eapply rtc_l; [by apply (step_start w _ 0%nat l)|].
    change (<[0%nat:=?x]> [?y]) with [x].
    etrans; [exact Hloop|].
    eapply rtc_l; [by apply (step_finish w2 _ 0%nat m)|]. apply rtc_refl.
  - exists 0. split; [done|].
    eapply rtc_l; [by apply (step_start w _ 0%nat l)|].
    change (<[0%nat:=?x]> [?y]) with [x].
    etrans; [exact Hloop|].
    eapply rtc_l; [by apply (step_finish w2 _ 0%nat 0)|]. apply rtc_refl.
Qed.



(** ** Sorting by [updatedAt] *)

Lemma sort_insert_Permutation cmp (x : CommentEntry) (l : list CommentEntry) :
  sort_insert cmp x l ≡ₚ x :: l.
Proof.
  induction l as [|y l IH]; simpl; [done|].
  destruct (negative (cmp y x)); [|done].
  rewrite IH. apply Permutation_swap.
Qed.

Lemma Array_sort_Permutation cmp (l : list CommentEntry) :
  Array_sort cmp l ≡ₚ l.
Proof.
  induction l as [|x l IH]; simpl; [done|].
  by rewrite sort_insert_Permutation, IH.
Qed.

Lemma negative_compareUpdatedAt (a b : CommentEntry) :
  stamped a → stamped b →
  negative (compareUpdatedAt a b) = bool_decide (time_of a < time_of b).
Proof.
  intros [ta Ha] [tb Hb]. unfold compareUpdatedAt, time_of. rewrite Ha, Hb.
  simpl. destruct (Z.ltb_spec (ta - tb) 0).
  - symmetry. apply bool_decide_eq_true_2. lia.
  - symmetry. apply bool_decide_eq_false_2. lia.
Qed.

Lemma sort_insert_sorted (x : CommentEntry) (l : list CommentEntry) :
  stamped x → Forall stamped l →
  StronglySorted not_newer l →
  StronglySorted not_newer (sort_insert compareUpdatedAt x l).
Proof.
  intros Hx Hl Hsorted. induction Hsorted as [|y l Hsorted IH Hy]; simpl.
  - repeat constructor.
  - apply Forall_cons in Hl as [Hsy Hl].
    rewrite negative_compareUpdatedAt by done. case_bool_decide as Hlt.
    + constructor; [by apply IH|].
      rewrite sort_insert_Permutation. constructor; [|done].
      unfold not_newer. lia.
    + constructor; [by constructor|]. constructor; [unfold not_newer; lia|].
      eapply Forall_impl; [exact Hy|]. unfold not_newer. intros z Hz. lia.
Qed.

Lemma Array_sort_sorted (l : list CommentEntry) :
  Forall stamped l → StronglySorted not_newer (Array_sort compareUpdatedAt l).
Proof.
  induction 1 as [|x l Hx Hl IH]; simpl; [constructor|].
  apply sort_insert_sorted; [done | by rewrite Array_sort_Permutation | done].
Qed.

(** ** The cache as a map *)

Lemma filter_keep {A} (P : A → Prop) `{∀ x, Decision (P x)} (l : list A) :
  Forall P l → filter P l = l.
Proof.
  induction 1 as [|x l Hx _ IH]; [done|].
  by rewrite filter_cons_True, IH.
Qed.

Lemma filter_drop {A} (P : A → Prop) `{∀ x, Decision (P x)} (l : list A) :
  Forall (λ x, ¬ P x) l → filter P l = [].
Proof.
  induction 1 as [|x l Hx _ IH]; [done|].
  by rewrite filter_cons_False.
Qed.

Lemma NoDup_filter_keys (P : string * CommentEntry → Prop)
    `{∀ x, Decision (P x)} (m : list (string * CommentEntry)) :
  NoDup m.*1 → NoDup (filter P m).*1.
Proof.
  induction m as [|[k x] m IH]; [done|]. rewrite fmap_cons. simpl.
  intros [Hk Hnd]%NoDup_cons. rewrite filter_cons.
  destruct (decide (P (k, x))); [|by apply IH].
  rewrite fmap_cons. apply NoDup_cons. split; [|by apply IH].
  intros Hin. apply Hk. apply list_elem_of_fmap in Hin as ([k' x'] & Heq & Hin).
  simpl in Heq. subst k'. apply list_elem_of_filter in Hin as [_ Hin].
  apply list_elem_of_fmap. by exists (k, x').
Qed.

Lemma Map_delete_filter (k : string) (m : list (string * CommentEntry)) :
  NoDup m.*1 → Map_delete k m = filter (λ kv, kv.1 ≠ k) m.
Proof.
  induction m as [|[k' x] m IH]; [done|]. rewrite fmap_cons. simpl.
  intros [Hk Hnd]%NoDup_cons. rewrite filter_cons. simpl.
  destruct (decide (k' = k)) as [->|Hne]; case_decide as Hdec; try done.
  - symmetry. apply filter_keep. apply Forall_forall. intros [k' x'] Hin Heq.
    simpl in Heq. subst k'. apply Hk. apply list_elem_of_fmap. by exists (k, x').
  - f_equal. by apply IH.
Qed.

Lemma foldl_Map_delete (l : list CommentEntry) (m : list (string * CommentEntry)) :
  NoDup m.*1 →
  foldl (λ c x, Map_delete (key_of x) c) m l
  = filter (λ kv, kv.1 ∉ key_of <$> l) m.
Proof.
  revert m. induction l as [|x l IH]; intros m Hnd; simpl.
  - symmetry. apply filter_keep. apply Forall_forall. intros kv _.
    apply not_elem_of_nil.
  - rewrite Map_delete_filter by done.
    rewrite IH by by apply NoDup_filter_keys.
    rewrite list_filter_filter. apply list_filter_iff. intros [k v]. simpl.
    rewrite not_elem_of_cons. tauto.
Qed.

Lemma Map_set_keys (k : string) (v : CommentEntry)
    (m : list (string * CommentEntry)) :
  (Map_set k v m).*1 = if decide (k ∈ m.*1) then m.*1 else m.*1 ++ [k].
Proof.
  induction m as [|[k' x] m IH]; [done|]. simpl.
  destruct (decide (k' = k)) as [->|Hne].
  - rewrite decide_True by apply list_elem_of_here. done.
  - rewrite fmap_cons, IH. simpl.
    destruct (decide (k ∈ m.*1)) as [Hin|Hout].
    + by rewrite decide_True by by apply list_elem_of_further.
    + rewrite decide_False; [done|].
      intros [?|?]%elem_of_cons; [congruence | done].
Qed.

Lemma Map_set_length_new (k : string) (v : CommentEntry)
    (m : list (string * CommentEntry)) :
  k ∉ m.*1 → length (Map_set k v m) = S (length m).
Proof.
  intros Hk. rewrite <- (length_fmap fst), Map_set_keys.
  rewrite decide_False by done. rewrite length_app, length_fmap. simpl. lia.
Qed.

Lemma Map_set_elem (k : string) (v : CommentEntry)
    (m : list (string * CommentEntry)) (kv : string * CommentEntry) :
  kv ∈ Map_set k v m → kv = (k, v) ∨ kv ∈ m.
Proof.
  induction m as [|[k' x] m IH]; simpl.
  - intros ->%list_elem_of_singleton. by left.
  - destruct (decide (k' = k)) as [->|Hne].
    + intros [->|Hin]%elem_of_cons; [by left|].
      right. by apply list_elem_of_further.
    + intros [->|Hin]%elem_of_cons; [right; apply list_elem_of_here|].
      destruct (IH Hin) as [->|?]; [by left|]. right. by apply list_elem_of_further.
Qed.

(** Putting a stamped record under its own key keeps the cache in order. *)
Lemma cache_ok_Map_set (v : CommentEntry) (m : list (string * CommentEntry)) :
  stamped v → cache_ok m → cache_ok (Map_set (key_of v) v m).
Proof.
  intros Hv [Hnd Hall]. split.
  - rewrite Map_set_keys. case_decide as Hin; [done|].
    apply NoDup_app. split; [done|]. split; [|apply NoDup_singleton].
    intros k Hk ->%list_elem_of_singleton. done.
  - apply Forall_forall. intros kv [->|Hin]%Map_set_elem; [done|].
    by eapply Forall_forall in Hall.
Qed.

Lemma cache_ok_keys (m : list (string * CommentEntry)) :
  cache_ok m → m.*1 = key_of <$> m.*2.
Proof.
  intros [_ Hall]. induction Hall as [|[k v] m [Hk _] _ IH]; [done|].
  rewrite !fmap_cons. simpl in *. by rewrite Hk, IH.
Qed.

Lemma cache_ok_filter_values (K : list string) (m : list (string * CommentEntry)) :
  cache_ok m →
  (filter (λ kv, kv.1 ∉ K) m).*2 = filter (λ v, key_of v ∉ K) m.*2.
Proof.
  intros [_ Hall]. induction Hall as [|[k v] m [Hk _] _ IH]; [done|].
  rewrite fmap_cons, !filter_cons. simpl in *. subst k.
  destruct (decide (key_of v ∉ K)); [|done]. by rewrite fmap_cons, IH.
Qed.

(** ** Eviction *)

Lemma deleteComment_run (t c : string) (w : World) :
  deleteComment t c w =
  if call_fails w then (Throw, after_call w)
  else (Return tt,
        with_commentCache (Map_delete (getCommentKey t c) (commentCache w))
          (log (EvRemoveComment (getStorageKey t c))
             (with_local_comments (delete (getStorageKey t c) (local_comments w))
                (after_call w)))).
Proof.
  unfold deleteComment, deleteCommentFromStorage.
  rewrite bind_run, storage_removeItem_run. by destruct (call_fails w).
Qed.

Lemma for_each_deleteComment (l : list CommentEntry) (w : World) :
  let run := for_each (λ comment,
                 deleteComment (topicId comment) (commentNumber comment)) l w in
  run.1 = Return tt →
  commentCache run.2 = foldl (λ c x, Map_delete (key_of x) c) (commentCache w) l
  ∧ local_comments run.2
    = foldl (λ m x, delete (getStorageKey (topicId x) (commentNumber x)) m)
        (local_comments w) l
  ∧ unread_total run.2 = unread_total w.
Proof.
  revert w. induction l as [|x l IH]; intros w; cbv zeta; [done|].
  cbn [for_each]. rewrite bind_run, deleteComment_run.
  destruct (call_fails w); [done|]. intros Hrun.
  destruct (IH _ Hrun) as (-> & -> & ->). done.
Qed.

Lemma lookup_foldl_delete (l : list CommentEntry) (m : gmap string CommentEntry)
    (x : CommentEntry) :
  x ∈ l →
  foldl (λ m x, delete (getStorageKey (topicId x) (commentNumber x)) m) m l
    !! getStorageKey (topicId x) (commentNumber x) = None.
Proof.
  assert (∀ l (m : gmap string CommentEntry) k, m !! k = None →
            foldl (λ m x, delete (getStorageKey (topicId x) (commentNumber x)) m) m l
              !! k = None) as Hgone.
  { intros l'. induction l' as [|y l' IH]; intros m' k Hk; simpl; [done|].
    apply IH. rewrite lookup_delete. by case_decide. }
  revert m. induction l as [|y l IH]; intros m Hin; simpl.
  - by apply elem_of_nil in Hin.
  - apply elem_of_cons in Hin as [->|Hin]; [|by apply IH].
    apply Hgone, lookup_delete_eq.
Qed.

Lemma enforceMaxEntries_run (w : World) :
  enforceMaxEntries w =
  if (length (commentCache w) <=? COMMENT_ENTRY_CONFIG.MAX_ENTRIES)%nat
  then (Return tt, w)
  else for_each (λ comment,
           deleteComment (topicId comment) (commentNumber comment))
         (evicted (commentCache w)) w.
Proof.
  unfold enforceMaxEntries, getAllCommentsFromCache. rewrite bind_run.
  cbn [gets]. rewrite length_fmap. by destruct (_ <=? _)%nat.
Qed.

(** What is left in a cache that was over the limit. *)
Lemma eviction_result (c : list (string * CommentEntry)) :
  cache_ok c →
  (COMMENT_ENTRY_CONFIG.MAX_ENTRIES < length c)%nat →
  let left := filter (λ kv, kv.1 ∉ key_of <$> evicted c) c in
  left.*2 ≡ₚ survivors c
  ∧ length left = COMMENT_ENTRY_CONFIG.MAX_ENTRIES
  ∧ length (evicted c) = (length c - COMMENT_ENTRY_CONFIG.MAX_ENTRIES)%nat
  ∧ StronglySorted not_newer (evicted c ++ survivors c)
  ∧ evicted c ++ survivors c ≡ₚ c.*2.
Proof.
  intros Hok Hover left.
  pose proof (Array_sort_Permutation compareUpdatedAt c.*2) as Hperm.
  assert (evicted c ++ survivors c = Array_sort compareUpdatedAt c.*2) as Hsplit
    by apply take_drop.
  assert (Forall stamped c.*2) as Hstamped.
  { destruct Hok as [_ Hall]. apply Forall_fmap. eapply Forall_impl; [exact Hall|].
    by intros kv [_ ?]. }
  assert (NoDup (key_of <$> (evicted c ++ survivors c))) as Hnd.
  { rewrite Hsplit, Hperm, <- cache_ok_keys by done. by destruct Hok. }
  rewrite fmap_app in Hnd. apply NoDup_app in Hnd as (_ & Hdisjoint & _).
  assert (left.*2 ≡ₚ survivors c) as Hleft.
  { subst left. rewrite cache_ok_filter_values by done.
    rewrite <- Hperm, <- Hsplit, filter_app.
    rewrite filter_drop, filter_keep; [done| |].
    - apply Forall_forall. intros y Hy Hin.
      apply (Hdisjoint (key_of y)); [done|]. by apply list_elem_of_fmap_2.
    - apply Forall_forall. intros y Hy Hout. apply Hout.
      by apply list_elem_of_fmap_2. }
  split; [done|]. split.
  { rewrite <- (length_fmap snd), Hleft. unfold survivors.
    rewrite length_drop, (Permutation_length Hperm), length_fmap. lia. }
  split.
  { unfold evicted. rewrite length_take, (Permutation_length Hperm), length_fmap. lia. }
  split; [|by rewrite Hsplit].
  rewrite Hsplit. by apply Array_sort_sorted.
Qed.

Lemma written_record_key (w : World) (entry : CommentEntry) (now : Z) :
  key_of (written_record w entry now) = key_of entry
  ∧ stamped (written_record w entry now).
Proof. split; [done|]. by exists now. Qed.

Lemma cache_ok_filter (P : string * CommentEntry → Prop) `{∀ x, Decision (P x)}
    (c : list (string * CommentEntry)) :
  cache_ok c → cache_ok (filter P c).
Proof.
  intros [Hnd Hall]. split; [by apply NoDup_filter_keys|].
  apply Forall_forall. intros kv [_ Hin]%list_elem_of_filter.
  by eapply Forall_forall in Hall.
Qed.

Lemma for_each_deleteComment_cache_ok (l : list CommentEntry) (w : World) :
  cache_ok (commentCache w) →
  cache_ok (commentCache
              (for_each (λ comment,
                   deleteComment (topicId comment) (commentNumber comment)) l w).2).
Proof.
  revert w. induction l as [|x l IH]; intros w Hok; [done|].
  cbn [for_each]. rewrite bind_run, deleteComment_run.
  destruct (call_fails w); [done|]. apply IH.
  cbn [commentCache with_commentCache].
  rewrite Map_delete_filter by by destruct Hok. by apply cache_ok_filter.
Qed.

(** The cache stays in order whatever a put ends in: [cache_ok] is an
    invariant of the comment service. *)
Lemma saveComment_cache_ok (entry : CommentEntry) (w : World) :
  cache_ok (commentCache w) → cache_ok (commentCache (saveComment entry w).2).
Proof.
  intros Hok.
  destruct (saveComment_run entry w)
    as [(w1 & Hq & -> & _)|(wq & Hq & _ & _ & ->)].
  { simpl. by destruct Hq as (_ & _ & _ & -> & _). }
  assert (commentCache wq = commentCache w) as Hcache
    by by destruct Hq as (_ & _ & _ & -> & _).
  cbv zeta. destruct (call_fails _); [simpl; by rewrite Hcache|].
  destruct (written_record_key w entry (clock wq)) as [Hkey Hstamped].
  set (record := written_record w entry (clock wq)) in *.
  assert (cache_ok (commentCache (cached_world (written_world w wq entry) entry record)))
    as Hok'.
  { unfold cached_world, written_world.
    cbn [commentCache with_commentCache with_local_comments log after_call
         with_faults].
    rewrite Hcache. fold (key_of entry). rewrite <- Hkey.
    by apply cache_ok_Map_set. }
  pose proof (for_each_deleteComment_cache_ok
                (evicted (commentCache (cached_world (written_world w wq entry) entry record)))
                _ Hok') as Hdel.
  rewrite enforceMaxEntries_run.
  destruct (_ <=? _)%nat; [done|].
  by destruct (for_each _ _ _) as [[[]|] w3].
Qed.

(** C4: after a successful put that leaves more entries than the maximum
    (1000), exactly [count - max] entries are deleted, from the cache and
    from the store: the first [count - max] of the entries sorted by
    [updatedAt] ascending, so none of them is newer than any entry that
    stays; [max] entries stay.  When the put made the count [max + 1],
    exactly one entry is deleted, one with the oldest [updatedAt]. *)
Theorem C4_capacity_eviction (entry e : CommentEntry) (w : World) :
  cache_ok (commentCache w) →
  (saveComment entry w).1 = Return (Some e) →
  let w' := (saveComment entry w).2 in
  let inserted := Map_set (key_of entry) e (commentCache w) in
  (COMMENT_ENTRY_CONFIG.MAX_ENTRIES < length inserted)%nat →
  length (evicted inserted)
    = (length inserted - COMMENT_ENTRY_CONFIG.MAX_ENTRIES)%nat
  ∧ length (commentCache w') = COMMENT_ENTRY_CONFIG.MAX_ENTRIES
  ∧ commentCache w'
    = filter (λ kv, kv.1 ∉ key_of <$> evicted inserted) inserted
  ∧ (commentCache w').*2 ≡ₚ survivors inserted
  ∧ evicted inserted ++ survivors inserted ≡ₚ inserted.*2
  ∧ StronglySorted not_newer (evicted inserted ++ survivors inserted)
  ∧ (∀ x y, x ∈ evicted inserted → y ∈ (commentCache w').*2 → not_newer x y)
  ∧ (∀ x, x ∈ evicted inserted → persisted w' x = None)
  ∧ (length inserted = S COMMENT_ENTRY_CONFIG.MAX_ENTRIES →
     ∃ x, evicted inserted = [x] ∧ ∀ y, y ∈ inserted.*2 → not_newer x y)
  ∧ cache_ok (commentCache w').
Proof.
  intros Hok Hput. cbv zeta.
  destruct (saveComment_run entry w)
    as [(w1 & _ & Hrun & _)|(wq & Hq & _ & _ & Hrun)];
    [by rewrite Hrun in Hput|].
  cbv zeta in Hrun. rewrite Hrun in Hput |- *. clear Hrun.
  destruct (call_fails _); [done|].
  set (record := written_record w entry (clock wq)) in *.
  set (cw := cached_world (written_world w wq entry) entry record) in *.
  destruct (enforceMaxEntries cw) as [[[]|] w'] eqn:Hrun; [|done].
  injection Hput as <-. cbn [snd].
  destruct (written_record_key w entry (clock wq)) as [Hkey Hstamped].
  fold record in Hkey, Hstamped.
  assert (commentCache cw = Map_set (key_of entry) record (commentCache w)) as Hcache.
  { subst cw. unfold cached_world, written_world, key_of.
    cbn [commentCache with_commentCache with_local_comments log after_call
         with_faults].
    f_equal. by destruct Hq as (_ & _ & _ & -> & _). }
  set (inserted := Map_set (key_of entry) record (commentCache w)) in *.
  assert (cache_ok inserted) as Hok'.
  { subst inserted. rewrite <- Hkey. by apply cache_ok_Map_set. }
  intros Hover.
  rewrite enforceMaxEntries_run, Hcache in Hrun.
  destruct (Nat.leb_spec (length inserted) COMMENT_ENTRY_CONFIG.MAX_ENTRIES);
    [lia|].
  pose proof (for_each_deleteComment (evicted inserted) cw) as Hdel.
  cbv zeta in Hdel. rewrite Hrun in Hdel. cbn [fst snd] in Hdel.
  destruct (Hdel eq_refl) as (Hcache' & Hstore' & _). clear Hdel.
  rewrite Hcache, foldl_Map_delete in Hcache' by by destruct Hok'.
  destruct (eviction_result inserted Hok' Hover)
    as (Hleft & Hsize & Hcount & Hsorted & Hall).
  cbv zeta in Hleft, Hsize. rewrite <- Hcache' in Hleft, Hsize.
  assert (∀ x y, x ∈ evicted inserted → y ∈ survivors inserted → not_newer x y)
    as Holder.
  { intros x y Hx Hy. by eapply StronglySorted_app_1_elem_of. }
  split; [done|]. split; [done|]. split; [done|]. split; [done|].
  split; [done|]. split; [done|]. split.
  { intros x y Hx Hy. apply Holder; [done|]. by rewrite <- Hleft. }
  split.
  { intros x Hx. unfold persisted. rewrite Hstore'. by apply lookup_foldl_delete. }
  split.
  { intros Hone. rewrite Hone in Hcount.
    replace (S COMMENT_ENTRY_CONFIG.MAX_ENTRIES - COMMENT_ENTRY_CONFIG.MAX_ENTRIES)%nat
      with 1%nat in Hcount by lia.
    destruct (evicted inserted) as [|x [|??]] eqn:Hev; try done.
    exists x. split; [done|]. intros y Hy.
    rewrite <- Hall in Hy. apply elem_of_app in Hy as [Hy|Hy].
    - apply list_elem_of_singleton in Hy as ->. unfold not_newer. lia.
    - apply Holder; [apply list_elem_of_here | done]. }
  rewrite Hcache'. by apply cache_ok_filter.
Qed.

(** *** A run of the capacity law on a full cache *)

Lemma after_call_no_faults (w : World) : faults w = [] → after_call w = w.
Proof. destruct w. unfold after_call. simpl. by intros ->. Qed.

Lemma call_fails_no_faults (w : World) : faults w = [] → call_fails w = false.
Proof. unfold call_fails. by intros ->. Qed.

Lemma for_each_deleteComment_no_faults (l : list CommentEntry) (w : World) :
  faults w = [] →
  (for_each (λ comment, deleteComment (topicId comment) (commentNumber comment))
     l w).1 = Return tt.
Proof.
  revert w. induction l as [|x l IH]; intros w Hw; [done|].
  cbn [for_each]. rewrite bind_run, deleteComment_run.
  rewrite call_fails_no_faults, after_call_no_faults by done. by apply IH.
Qed.

(** Without storage failures, a put that is not stale returns the record it
    wrote. *)
Lemma saveComment_no_faults (entry : CommentEntry) (w : World) :
  faults w = [] →
  existing_is_newer (persisted w entry) entry = false →
  (saveComment entry w).1 = Return (Some (written_record w entry (clock w))).
Proof.
  intros Hw Hfresh.
  assert (saveCommentWithOptimisticLock entry OPTIMISTIC_LOCK.MAX_RETRIES w
          = (Return true, written_world w w entry)) as Hlock.
  { unfold saveCommentWithOptimisticLock, saveCommentWithOptimisticLock_outcome.
    rewrite bind_run. change OPTIMISTIC_LOCK.MAX_RETRIES with 3%nat.
    cbn [saveRetryLoop]. unfold try_catch. rewrite saveAttempt_run.
    rewrite call_fails_no_faults, Hfresh, !after_call_no_faults by done.
    by rewrite call_fails_no_faults. }
  unfold saveComment. rewrite bind_run, Hlock. cbn [negb]. cbv zeta.
  rewrite storage_key_literal, bind_run, storage_getItem_run.
  rewrite call_fails_no_faults by done.
  fold (persisted (written_world w w entry) entry).
  rewrite persisted_written_world, !bind_run. cbn [modify].
  rewrite bind_run.
  match goal with
  | |- context [enforceMaxEntries ?w1] =>
      assert (faults w1 = []) as Hw1 by (simpl; by rewrite Hw);
      assert ((enforceMaxEntries w1).1 = Return tt) as Hrun
  end.
  { rewrite enforceMaxEntries_run. destruct (_ <=? _)%nat; [done|].
    by apply for_each_deleteComment_no_faults. }
  by destruct (enforceMaxEntries _) as [[[]|] w3]; simpl in Hrun.
Qed.

Lemma toString_inj (m n : Z) :
  0 ≤ m → 0 ≤ n → Js.toString m = Js.toString n → m = n.
Proof.
  intros Hm Hn. unfold Js.toString.
  destruct (Z.ltb_spec m 0), (Z.ltb_spec n 0); try lia.
  intros Heq. apply (f_equal Js.parseInt) in Heq.
  rewrite !parseInt_decimal in Heq by done. congruence.
Qed.

Lemma numbered_keys (n : nat) :
  ((λ i, (getCommentKey "7" (commentNumber (numbered_entry i)), numbered_entry i))
     <$> seq 0 n).*1
  = (λ i, getCommentKey "7" (Js.toString (Z.of_nat (S i)))) <$> seq 0 n.
Proof. rewrite <- list_fmap_compose. done. Qed.

Lemma numbered_key_inj (i j : nat) :
  getCommentKey "7" (Js.toString (Z.of_nat (S i)))
  = getCommentKey "7" (Js.toString (Z.of_nat (S j))) → i = j.
Proof.
  unfold getCommentKey. cbn [String.append]. intros [= Heq].
  apply toString_inj in Heq; lia.
Qed.

Lemma full_cache_ok : cache_ok (commentCache full_world).
Proof.
  cbn [commentCache full_world]. split.
  - rewrite numbered_keys. apply NoDup_fmap_2; [|apply NoDup_seq].
    intros i j. apply numbered_key_inj.
  - apply Forall_fmap, Forall_forall. intros i _. split; [done|].
    by eexists.
Qed.

Lemma newcomer_is_new : key_of newcomer ∉ (commentCache full_world).*1.
Proof.
  cbn [commentCache full_world]. rewrite numbered_keys.
  intros (i & Heq & Hi)%list_elem_of_fmap.
  apply elem_of_seq in Hi.
  change (key_of newcomer) with (getCommentKey "7" (Js.toString (Z.of_nat 5000))) in Heq.
  apply numbered_key_inj in Heq.
  unfold COMMENT_ENTRY_CONFIG.MAX_ENTRIES in Hi. lia.
Qed.

Lemma newcomer_not_persisted : persisted full_world newcomer = None.
Proof.
  unfold persisted. cbn [local_comments full_world].
  apply not_elem_of_list_to_map_1. rewrite <- list_fmap_compose.
  intros (i & Heq & Hi)%list_elem_of_fmap. apply elem_of_seq in Hi.
  cbn [compose fst numbered_entry commentNumber topicId newcomer] in Heq.
  change "5000"%string with (Js.toString (Z.of_nat 5000)) in Heq.
  unfold getStorageKey, COMMENT_PREFIX in Heq. cbn [String.append] in Heq.
  injection Heq as Heq. apply toString_inj in Heq; [|lia..].
  unfold COMMENT_ENTRY_CONFIG.MAX_ENTRIES in Hi. lia.
Qed.

Lemma C4_capacity_eviction_witness :
  length (commentCache (saveComment newcomer full_world).2) = 1000%nat.
Proof.
  refine (proj1 (proj2 (C4_capacity_eviction newcomer
                          (written_record full_world newcomer (clock full_world))
                          full_world full_cache_ok _ _))).
  - apply saveComment_no_faults; [done|]. by rewrite newcomer_not_persisted.
  - rewrite Map_set_length_new by apply newcomer_is_new.
    cbn [commentCache full_world]. rewrite length_fmap, length_seq. lia.
Defined.
(** ** Identifiers, pages and keys *)

Lemma is_digit_char (c : ascii) :
  Js.is_digit c = true →
  0 ≤ Js.digit_val c ≤ 9 ∧ Js.is_white_space c = false
  ∧ c ≠ "-"%char ∧ c ≠ "+"%char ∧ c ≠ ":"%char.
Proof.
  destruct c as [[] [] [] [] [] [] [] []]; intros Hd; try discriminate Hd;
    vm_compute; repeat split; discriminate.
Qed.

Lemma all_digits_leading (s : string) :
  all_digits s = true →
  Js.leading_digits s = map Js.digit_val (list_ascii_of_string s)
  ∧ Forall (λ d, 0 ≤ d ≤ 9) (map Js.digit_val (list_ascii_of_string s)).
Proof.
  induction s as [|c r IH]; [done|].
  cbn [all_digits Js.leading_digits list_ascii_of_string map].
  intros [Hc Hr]%andb_true_iff. rewrite Hc.
  destruct (IH Hr) as [-> Hall]. split; [done|].
  constructor; [by apply is_digit_char | done].
Qed.

Lemma digits_value_bound (ds : list Z) (a : Z) :
  Forall (λ d, 0 ≤ d ≤ 9) ds →
  ∃ v, 0 ≤ v < 10 ^ Z.of_nat (length ds)
       ∧ fold_left (λ acc d, 10 * acc + d) ds a
         = a * 10 ^ Z.of_nat (length ds) + v.
Proof.
  intros Hds. revert a. induction Hds as [|d ds Hd _ IH]; intros a.
  - exists 0. cbn. lia.
  - cbn [fold_left length]. destruct (IH (10 * a + d)) as (v & Hv & ->).
    rewrite Nat2Z.inj_succ, Z.pow_succ_r by lia.
    exists (d * 10 ^ Z.of_nat (length ds) + v). split; [nia | ring].
Qed.

Lemma parseInt_digits (s : string) :
  s ≠ ""%string → all_digits s = true →
  ∃ n, Js.parseInt s = Some n ∧ 0 ≤ n < 10 ^ Z.of_nat (String.length s).
Proof.
  intros Hne Hs. destruct (all_digits_leading s Hs) as [Hlead Hall].
  destruct (digits_value_bound _ 0 Hall) as (v & Hv & Hval).
  destruct s as [|c r]; [done|].
  cbn [all_digits] in Hs. apply andb_true_iff in Hs as [Hc _].
  destruct (is_digit_char c Hc) as (_ & Hws & Hminus & Hplus & _).
  exists v. split.
  - unfold Js.parseInt. cbn [Js.skip_white_space]. rewrite Hws.
    assert (match String c r with
            | String "-"%char r' => (-1, r')
            | String "+"%char r' => (1, r')
            | _ => (1, String c r)
            end = (1, String c r)) as ->.
    { destruct c as [[] [] [] [] [] [] [] []]; done. }
    rewrite Hlead. cbn [list_ascii_of_string map].
    f_equal. unfold Js.digits_value.
    cbn [list_ascii_of_string map] in Hval. rewrite Hval. lia.
  - rewrite length_map in Hv.
    assert (length (list_ascii_of_string (String c r)) = String.length (String c r))
      as <-; [|done].
    generalize (String c r). intros s. induction s; simpl; congruence.
Qed.

(** X1: an identifier accepted by [validateTopicId] or
    [validateCommentNumber] is read by [parseInt] as a number between 0
    and 10^10 - 1, below 2^53: it is never [NaN] and it is a safe
    integer. *)
Theorem validated_id_is_safe_integer (s : string) :
  validateTopicId s = true ∨ validateCommentNumber s = true →
  ∃ n, Js.parseInt s = Some n ∧ 0 ≤ n < 10 ^ 10 ∧ n < 2 ^ 53.
Proof.
  intros Hs.
  assert (matches_ID s = true) as Hid by by destruct Hs.
  unfold matches_ID in Hid.
  apply andb_true_iff in Hid as [[Hmin Hmax]%andb_true_iff Hdigits].
  apply Nat.leb_le in Hmin, Hmax.
  destruct (parseInt_digits s) as (n & Hn & Hrange); [|done|].
  { intros ->. simpl in Hmin. lia. }
  exists n. split; [done|].
  assert (10 ^ Z.of_nat (String.length s) ≤ 10 ^ 10) as Hpow
    by (apply Z.pow_le_mono_r; lia).
  assert (10 ^ 10 < 2 ^ 53) by done. lia.
Qed.

Lemma validated_id_is_safe_integer_witness :
  ∃ n, Js.parseInt "0000000501" = Some n ∧ 0 ≤ n < 10 ^ 10 ∧ n < 2 ^ 53.
Proof. apply validated_id_is_safe_integer. right. reflexivity. Defined.

(** X2: the pages partition the comment numbers into runs of 500: a
    comment number that parses to a safe integer [n > 0] is on page
    [p > 0], a safe integer as well, exactly when
    [500 (p - 1) < n <= 500 p]. *)
Theorem page_boundaries (s : string) (n p : Z) :
  Js.parseInt s = Some n →
  0 < n ≤ Js.MAX_SAFE_INTEGER → 0 < p ≤ Js.MAX_SAFE_INTEGER →
  (calculatePageNumber s = Js.toString p ↔ 500 * (p - 1) < n ≤ 500 * p).
Proof.
  intros Hs [Hn _] [Hp _]. rewrite calculatePageNumber_unfold, Hs.
  destruct (Z.ltb_spec 0 n); [|lia].
  assert (0 ≤ (n - 1) / 500) by (apply Z.div_pos; lia).
  split.
  - intros Heq%toString_inj; [|lia..].
    pose proof (Z.div_mod (n - 1) 500). pose proof (Z.mod_pos_bound (n - 1) 500).
    lia.
  - intros Hrange. f_equal.
    assert ((n - 1) / 500 = p - 1); [|lia].
    symmetry. apply (Z.div_unique (n - 1) 500 (p - 1) (n - 1 - 500 * (p - 1))); lia.
Qed.

Lemma page_boundaries_witness :
  (calculatePageNumber "1000" = Js.toString 2 ↔ 500 * (2 - 1) < 1000 ≤ 500 * 2)
  ∧ (calculatePageNumber "1001" = Js.toString 2 ↔ 500 * (2 - 1) < 1001 ≤ 500 * 2).
Proof.
  split; apply page_boundaries; first [reflexivity | by vm_compute].
Defined.

Lemma append_String (a : ascii) (s r : string) :
  (String a s +:+ r)%string = String a (s +:+ r).
Proof. reflexivity. Qed.

Lemma append_empty (r : string) : ("" +:+ r)%string = r.
Proof. reflexivity. Qed.

Lemma digits_then_colon (t t' rest rest' : string) :
  all_digits t = true → all_digits t' = true →
  (t +:+ ":" +:+ rest)%string = (t' +:+ ":" +:+ rest')%string →
  t = t' ∧ rest = rest'.
Proof.
  revert t'. induction t as [|a t IH]; intros [|a' t'] Ht Ht' Heq;
    rewrite ?append_String, ?append_empty in Heq.
  - by injection Heq as ->.
  - injection Heq as <- _. cbn [all_digits] in Ht'.
    apply andb_true_iff in Ht' as [Ha _].
    by destruct (is_digit_char _ Ha) as (_ & _ & _ & _ & ?).
  - injection Heq as -> _. cbn [all_digits] in Ht.
    apply andb_true_iff in Ht as [Ha _].
    by destruct (is_digit_char _ Ha) as (_ & _ & _ & _ & ?).
  - injection Heq as -> Heq. cbn [all_digits] in Ht, Ht'.
    apply andb_true_iff in Ht as [_ Ht]. apply andb_true_iff in Ht' as [_ Ht'].
    destruct (IH t' Ht Ht' Heq) as [-> ->]. done.
Qed.

Lemma validateTopicId_digits (t : string) :
  validateTopicId t = true → all_digits t = true.
Proof. unfold validateTopicId, matches_ID. by intros [_ ?]%andb_true_iff. Qed.

(** X3: for topic ids accepted by [validateTopicId], the cache key and the
    storage key determine the topic id and the comment number: two
    entries share a key only if they are the same comment. *)
Theorem keys_of_validated_ids (t c t' c' : string) :
  validateTopicId t = true → validateTopicId t' = true →
  (getCommentKey t c = getCommentKey t' c' ↔ t = t' ∧ c = c')
  ∧ (getStorageKey t c = getStorageKey t' c' ↔ t = t' ∧ c = c').
Proof.
  intros Ht%validateTopicId_digits Ht'%validateTopicId_digits.
  split; (split; [|by intros [-> ->]]).
  - by apply digits_then_colon.
  - intros Heq. apply (digits_then_colon t t' c c'); [done..|].
    unfold getStorageKey, COMMENT_PREFIX in Heq.
    rewrite ?append_String, ?append_empty in Heq. by injection Heq.
Qed.

Lemma keys_of_validated_ids_witness :
  (getCommentKey "12" "3" = getCommentKey "1" "23" ↔ "12" = "1" ∧ "3" = "23")
  ∧ (getStorageKey "12" "3" = getStorageKey "1" "23"
     ↔ "12" = "1" ∧ "3" = "23").
Proof. apply (keys_of_validated_ids "12" "3" "1" "23"); reflexivity. Defined.
(** ** The store: retries, back-off and what a write touches *)

Lemma saveAttempt_clock (entry : CommentEntry) (w : World) :
  clock (saveAttempt entry w).2 = clock w.
Proof.
  rewrite saveAttempt_run.
  by repeat (destruct (call_fails _) || destruct (existing_is_newer _ _)).
Qed.

Lemma saveAttempt_outcome (entry : CommentEntry) (w : World) :
  (saveAttempt entry w).1 ≠ Return RetriesExhausted.
Proof.
  rewrite saveAttempt_run.
  by repeat (destruct (call_fails _) || destruct (existing_is_newer _ _)).
Qed.

Lemma backoff_run (maxRetries attempt : nat) (w : World) :
  backoff maxRetries attempt w
  = (Return tt,
     with_clock (clock w + if (attempt <? maxRetries - 1)%nat
                           then OPTIMISTIC_LOCK.INITIAL_BACKOFF_MS
                                * 2 ^ Z.of_nat attempt
                           else 0) w).
Proof.
  unfold backoff. destruct (attempt <? maxRetries - 1)%nat; [done|].
  cbn [mret M_ret]. f_equal. destruct w. unfold with_clock. cbn. f_equal. lia.
Qed.

(** The clock at the start of an attempt: the waits so far add up to a
    difference of powers of two. *)
Lemma attempt_world_clock (entry : CommentEntry) (maxRetries attempt failed : nat)
    (w : World) :
  let last := (maxRetries - 1)%nat in
  clock (attempt_world entry maxRetries attempt failed w)
  = clock w + OPTIMISTIC_LOCK.INITIAL_BACKOFF_MS
              * (2 ^ Z.of_nat ((attempt + failed) `min` last)
                 - 2 ^ Z.of_nat (attempt `min` last)).
Proof.
  cbv zeta. revert attempt w. induction failed as [|failed IH]; intros attempt w.
  { rewrite Nat.add_0_r. cbn [attempt_world]. lia. }
  cbn [attempt_world]. rewrite IH, backoff_run. cbn [snd clock with_clock].
  rewrite saveAttempt_clock.
  replace (S attempt + failed)%nat with (attempt + S failed)%nat by lia.
  unfold OPTIMISTIC_LOCK.INITIAL_BACKOFF_MS.
  destruct (Nat.ltb_spec attempt (maxRetries - 1)) as [Hlt|Hge].
  - rewrite (Nat.min_l (S attempt)), (Nat.min_l attempt) by lia.
    rewrite Nat2Z.inj_succ, Z.pow_succ_r by lia. lia.
  - rewrite !(Nat.min_r _ (maxRetries - 1)) by lia. lia.
Qed.

(** The loop, attempt by attempt: the attempts throw one after the other
    until one returns, whose outcome is that of the write, or until none
    is left. *)
Lemma saveRetryLoop_attempts (entry : CommentEntry) (maxRetries remaining : nat)
    (w : World) :
  let run := saveRetryLoop entry maxRetries remaining w in
  let attempt := (maxRetries - remaining)%nat in
  let started failed := attempt_world entry maxRetries attempt failed w in
  (remaining ≤ maxRetries)%nat →
  ∃ failed : nat,
    (failed ≤ remaining)%nat
    ∧ (∀ i, (i < failed)%nat → (saveAttempt entry (started i)).1 = Throw)
    ∧ (failed = remaining → run = (Return RetriesExhausted, started remaining))
    ∧ (failed ≠ remaining →
       ∃ o, saveAttempt entry (started failed) = (Return o, run.2)
            ∧ run.1 = Return o).
Proof.
  cbv zeta. revert w. induction remaining as [|remaining IH]; intros w Hle.
  { exists 0%nat. split; [done|]. split; [lia|]. by split. }
  cbn [saveRetryLoop]. fold (backoff maxRetries (maxRetries - S remaining)).
  set (attempt := (maxRetries - S remaining)%nat).
  unfold try_catch. destruct (saveAttempt entry w) as [[o|] w1] eqn:Hattempt.
  - exists 0%nat. split; [lia|]. split; [lia|]. split; [lia|].
    intros _. exists o. by cbn [attempt_world fst snd].
  - rewrite bind_run, backoff_run.
    set (w2 := with_clock _ w1).
    destruct (IH w2) as (failed & Hf & Hthrown & Hnone & Hone); [lia|].
    replace (maxRetries - remaining)%nat with (S attempt) in * by (subst attempt; lia).
    assert (∀ i, attempt_world entry maxRetries attempt (S i) w
                 = attempt_world entry maxRetries (S attempt) i w2) as Hnext.
    { intros i. cbn [attempt_world]. by rewrite Hattempt, backoff_run. }
    exists (S failed). split; [lia|]. split; [|split].
    + intros [|i] Hi; [by cbn [attempt_world]; rewrite Hattempt|].
      rewrite Hnext. apply Hthrown. lia.
    + intros [= ->]. rewrite Hnext. by apply Hnone.
    + intros Hne. rewrite Hnext. apply Hone. lia.
Qed.

(** X4: the retries of a write back off exponentially and stop.  The
    write makes its attempts one after the other; [failed] of them throw,
    and the write ends with the first attempt that returns, or gives up
    (the final [return false]) exactly when all [maxRetries] attempts
    threw.  After [failed] attempts that threw it has waited
    [100 * (2^failed - 1)] milliseconds, with no wait after the last
    attempt; so it never waits longer than
    [100 * (2^(maxRetries - 1) - 1)] milliseconds in total. *)
Theorem put_backs_off (entry : CommentEntry) (maxRetries : nat) (w : World) :
  let run := saveCommentWithOptimisticLock_outcome entry maxRetries w in
  let started failed := attempt_world entry maxRetries 0 failed w in
  let longest :=
    OPTIMISTIC_LOCK.INITIAL_BACKOFF_MS * (2 ^ Z.of_nat (maxRetries - 1) - 1) in
  (∃ failed : nat,
     (failed ≤ maxRetries)%nat
     ∧ (∀ i, (i < failed)%nat → (saveAttempt entry (started i)).1 = Throw)
     ∧ (failed ≠ maxRetries →
        ∃ o, saveAttempt entry (started failed) = (Return o, run.2)
             ∧ run.1 = Return o)
     ∧ (failed = maxRetries → run.2 = started maxRetries)
     ∧ (run.1 = Return RetriesExhausted ↔ failed = maxRetries)
     ∧ clock run.2
       = clock w + OPTIMISTIC_LOCK.INITIAL_BACKOFF_MS
                   * (2 ^ Z.of_nat (failed `min` (maxRetries - 1)) - 1))
  ∧ clock w ≤ clock run.2 ≤ clock w + longest
  ∧ (run.1 = Return RetriesExhausted → clock run.2 = clock w + longest).
Proof.
  cbv zeta. unfold saveCommentWithOptimisticLock_outcome.
  destruct (saveRetryLoop_attempts entry maxRetries maxRetries w)
    as (failed & Hf & Hthrown & Hnone & Hone); [done|].
  rewrite Nat.sub_diag in *.
  assert (saveRetryLoop entry maxRetries maxRetries w
          = (Return RetriesExhausted, attempt_world entry maxRetries 0 failed w)
            ∧ failed = maxRetries
          ∨ failed ≠ maxRetries
            ∧ ∃ o, saveAttempt entry (attempt_world entry maxRetries 0 failed w)
                   = (Return o, (saveRetryLoop entry maxRetries maxRetries w).2)
                   ∧ (saveRetryLoop entry maxRetries maxRetries w).1 = Return o)
    as Hend.
  { destruct (decide (failed = maxRetries)) as [->|Hne]; [left | right]; auto. }
  assert (clock (saveRetryLoop entry maxRetries maxRetries w).2
          = clock w + OPTIMISTIC_LOCK.INITIAL_BACKOFF_MS
                      * (2 ^ Z.of_nat (failed `min` (maxRetries - 1)) - 1))
    as Hclock.
  { pose proof (attempt_world_clock entry maxRetries 0 failed w) as Hc.
    cbv zeta in Hc. rewrite Nat.add_0_l, Nat.min_0_l in Hc.
    change (2 ^ Z.of_nat 0) with 1 in Hc.
    destruct Hend as [[-> _]|[_ (o & Hlast & _)]]; [done|].
    rewrite <- Hc, <- (saveAttempt_clock entry (attempt_world _ _ _ _ _)).
    by rewrite Hlast. }
  assert ((saveRetryLoop entry maxRetries maxRetries w).1
            = Return RetriesExhausted ↔ failed = maxRetries) as Hiff.
  { destruct Hend as [[-> ->]|[Hne (o & Hlast & Ho)]]; [done|].
    split; [|done]. intros Hex. rewrite Ho in Hex. injection Hex as ->.
    pose proof (saveAttempt_outcome entry
                  (attempt_world entry maxRetries 0 failed w)) as Hnot.
    by rewrite Hlast in Hnot. }
  split.
  { exists failed. split; [done|]. split; [done|]. split; [done|].
    split; [by intros ->; rewrite Hnone|]. done. }
  assert (1 ≤ 2 ^ Z.of_nat (failed `min` (maxRetries - 1))
          ≤ 2 ^ Z.of_nat (maxRetries - 1)) as Hpow.
  { split.
    - change 1 with (2 ^ 0). apply Z.pow_le_mono_r; lia.
    - apply Z.pow_le_mono_r; lia. }
  unfold OPTIMISTIC_LOCK.INITIAL_BACKOFF_MS in *.
  split; [lia|]. intros ->%Hiff. rewrite Hclock. by rewrite Nat.min_r by lia.
Qed.

(** X5: a write never throws; a write that returns [false] has changed
    nothing (store, cache, total and log are as before); with no attempt
    allowed it returns [false]. *)
Theorem put_fails_without_effect (entry : CommentEntry) (maxRetries : nat)
    (w : World) :
  let run := saveCommentWithOptimisticLock entry maxRetries w in
  ∃ b, run.1 = Return b
       ∧ (b = false → quiet w run.2)
       ∧ (maxRetries = 0%nat → b = false).
Proof.
  cbv zeta.
  destruct (saveCommentWithOptimisticLock_run entry maxRetries w)
    as (o & w' & Hout & -> & Ho).
  exists (outcome_result o). split; [done|]. split.
  - destruct o; [done | by destruct Ho | done].
  - intros ->. cbv in Hout. by injection Hout as <-.
Qed.

Lemma existing_is_newer_spec (cur : option CommentEntry) (entry : CommentEntry) :
  existing_is_newer cur entry = true ↔ strictly_newer cur entry.
Proof.
  unfold existing_is_newer, strictly_newer. split.
  - destruct cur as [c|]; [|done].
    destruct (updatedAt c) as [| |tc] eqn:Hc, (updatedAt entry) as [| |te] eqn:He;
      try done.
    cbn. intros Hlt%Z.ltb_lt. by exists c, tc, te.
  - intros (c & tc & te & -> & -> & -> & Hlt). cbn. by apply Z.ltb_lt.
Qed.

(** X6: a write is turned down as stale only when the stored record
    carries a strictly later [updatedAt] (equal times, or a missing or
    unparsable time on either side, never turn a write down); and while
    no storage call fails, a write with at least one attempt succeeds
    exactly when the stored record is not strictly newer. *)
Theorem put_is_refused_only_when_newer (entry : CommentEntry)
    (maxRetries : nat) (w : World) :
  ((saveCommentWithOptimisticLock_outcome entry maxRetries w).1
     = Return RejectedStale →
   strictly_newer (persisted w entry) entry)
  ∧ (faults w = [] → (0 < maxRetries)%nat →
     ((saveCommentWithOptimisticLock entry maxRetries w).1 = Return true
      ↔ ¬ strictly_newer (persisted w entry) entry)).
Proof.
  split.
  - destruct (saveCommentWithOptimisticLock_run entry maxRetries w)
      as (o & w' & -> & _ & Ho). cbn [fst]. intros [= ->].
    destruct Ho as [Hnewer _]. by apply existing_is_newer_spec.
  - intros Hfaults Hpos. rewrite <- existing_is_newer_spec.
    destruct maxRetries as [|n]; [lia|].
    unfold saveCommentWithOptimisticLock, saveCommentWithOptimisticLock_outcome.
    rewrite bind_run. cbn [saveRetryLoop]. unfold try_catch.
    rewrite saveAttempt_run.
    rewrite !after_call_no_faults, !call_fails_no_faults by done.
    destruct (existing_is_newer _ _); cbn; split; done.
Qed.

Lemma put_is_refused_only_when_newer_witness :
  strictly_newer (persisted sample_world (sample_entry_at 1500))
    (sample_entry_at 1500)
  ∧ ((saveCommentWithOptimisticLock (sample_entry_at 2000) 3 sample_world).1
       = Return true
     ↔ ¬ strictly_newer (persisted sample_world (sample_entry_at 2000))
           (sample_entry_at 2000)).
Proof.
  split.
  - apply (proj1 (put_is_refused_only_when_newer (sample_entry_at 1500) 3
                    sample_world)). reflexivity.
  - apply (proj2 (put_is_refused_only_when_newer (sample_entry_at 2000) 3
                    sample_world)); [reflexivity | lia].
Defined.

(** X7: whatever its outcome, a write leaves every other storage key, the
    cache, the unread total and the pending answers of the site as they
    were. *)
Theorem put_touches_only_its_key (entry : CommentEntry) (maxRetries : nat)
    (w : World) :
  let w' := (saveCommentWithOptimisticLock entry maxRetries w).2 in
  (∀ k, k ≠ getStorageKey (topicId entry) (commentNumber entry) →
        local_comments w' !! k = local_comments w !! k)
  ∧ commentCache w' = commentCache w
  ∧ unread_total w' = unread_total w
  ∧ remote w' = remote w.
Proof.
  cbv zeta.
  destruct (saveCommentWithOptimisticLock_run entry maxRetries w)
    as (o & w' & _ & -> & Ho). cbn [snd].
  assert (∀ w0, quiet w w0 →
            (∀ k : string, local_comments w0 !! k = local_comments w !! k)
            ∧ commentCache w0 = commentCache w
            ∧ unread_total w0 = unread_total w ∧ remote w0 = remote w) as Hq.
  { intros w0 (-> & -> & _ & -> & _ & -> & _). done. }
  destruct o.
  - destruct Ho as [_ (w1 & Hq1 & ->)].
    destruct (Hq _ Hq1) as (Hstore & Hcache & Htotal & Hremote).
    split; [|done]. intros k Hk. unfold written_world. cbn.
    by rewrite lookup_insert_ne.
  - destruct Ho as [_ Hq0]. destruct (Hq _ Hq0) as (? & ? & ? & ?). done.
  - destruct (Hq _ Ho) as (? & ? & ? & ?). done.
Qed.
(** ** The cache as a map, and the cache against the store *)

Lemma Map_get_None (k : string) (m : list (string * CommentEntry)) :
  Map_get k m = None ↔ k ∉ m.*1.
Proof.
  induction m as [|[k0 v] m IH]; cbn [Map_get fmap list_fmap fst].
  - split; [intros _; apply not_elem_of_nil | done].
  - rewrite not_elem_of_cons. destruct (decide (k0 = k)) as [->|Hne].
    + split; [done | by intros [? _]].
    + rewrite IH. split; [by intros ?; split | by intros [_ ?]].
Qed.

Lemma Map_get_Map_set (k k' : string) (v : CommentEntry)
    (m : list (string * CommentEntry)) :
  Map_get k' (Map_set k v m) = if decide (k = k') then Some v else Map_get k' m.
Proof.
  induction m as [|[k0 v0] m IH]; cbn [Map_get Map_set].
  - by destruct (decide (k = k')).
  - destruct (decide (k0 = k)) as [->|Hne]; cbn [Map_get].
    + by destruct (decide (k = k')).
    + destruct (decide (k0 = k')) as [->|Hne'].
      * by destruct (decide (k = k')) as [->|].
      * exact IH.
Qed.

Lemma Map_get_Map_delete_ne (k k' : string) (m : list (string * CommentEntry)) :
  k' ≠ k → Map_get k' (Map_delete k m) = Map_get k' m.
Proof.
  intros Hne. induction m as [|[k0 v0] m IH]; cbn [Map_get Map_delete]; [done|].
  destruct (decide (k0 = k)) as [->|Hk]; cbn [Map_get].
  - by destruct (decide (k = k')) as [->|].
  - by rewrite IH.
Qed.

Lemma Map_get_Map_delete (k : string) (m : list (string * CommentEntry)) :
  NoDup m.*1 → Map_get k (Map_delete k m) = None.
Proof.
  intros Hnd. rewrite Map_delete_filter by done. apply Map_get_None.
  intros ((k0 & v) & -> & [Hk _]%list_elem_of_filter)%list_elem_of_fmap.
  done.
Qed.

Lemma NoDup_Map_set (k : string) (v : CommentEntry)
    (m : list (string * CommentEntry)) :
  NoDup m.*1 → NoDup (Map_set k v m).*1.
Proof.
  intros Hnd. rewrite Map_set_keys. destruct (decide (k ∈ m.*1)); [done|].
  apply NoDup_app. split; [done|]. split; [|apply NoDup_singleton].
  intros x Hx ->%list_elem_of_singleton. done.
Qed.

Lemma NoDup_Map_delete (k : string) (m : list (string * CommentEntry)) :
  NoDup m.*1 → NoDup (Map_delete k m).*1.
Proof.
  intros Hnd. rewrite Map_delete_filter by done. by apply NoDup_filter_keys.
Qed.

Lemma storageKeyOf_getCommentKey (t c : string) :
  storageKeyOf (getCommentKey t c) = getStorageKey t c.
Proof. reflexivity. Qed.

Lemma storageKeyOf_inj (k k' : string) : storageKeyOf k = storageKeyOf k' → k = k'.
Proof.
  unfold storageKeyOf, COMMENT_PREFIX.
  rewrite !append_String, !append_empty. by intros [= ->].
Qed.

(** X8: [deleteComment] removes the comment from the store and from the
    cache and leaves every other key of both alone; when the storage call
    throws, the store and the cache are as before.  Deleting a comment
    that is not tracked changes neither. *)
Theorem deleteComment_removes (t c : string) (w : World) :
  NoDup (commentCache w).*1 →
  let run := deleteComment t c w in
  (run.1 = Return tt →
     (getCommentFromCache t c run.2).1 = Return None
     ∧ local_comments run.2 !! getStorageKey t c = None
     ∧ (∀ k, k ≠ getCommentKey t c →
             Map_get k (commentCache run.2) = Map_get k (commentCache w))
     ∧ (∀ k, k ≠ getStorageKey t c →
             local_comments run.2 !! k = local_comments w !! k)
     ∧ (Map_get (getCommentKey t c) (commentCache w) = None →
        local_comments w !! getStorageKey t c = None →
        commentCache run.2 = commentCache w
        ∧ local_comments run.2 = local_comments w))
  ∧ (run.1 ≠ Return tt →
       run.1 = Throw
       ∧ commentCache run.2 = commentCache w
       ∧ local_comments run.2 = local_comments w).
Proof.
  intros Hnd. cbv zeta. rewrite deleteComment_run.
  destruct (call_fails w); cbn [fst snd]; (split; [|done]); [done|].
  intros _. cbn [getCommentFromCache gets fst commentCache with_commentCache
                 local_comments log with_local_comments after_call with_faults].
  split; [by rewrite Map_get_Map_delete|].
  split; [apply lookup_delete_eq|].
  split; [by intros k Hk; apply Map_get_Map_delete_ne|].
  split; [by intros k Hk; apply lookup_delete_ne|].
  intros Hcache Hstore. split.
  - rewrite Map_delete_filter by done. apply filter_keep.
    apply Map_get_None in Hcache. apply Forall_forall. intros [k v] Hin Heq.
    simpl in Heq. subst k. apply Hcache. apply list_elem_of_fmap. by exists (getCommentKey t c, v).
  - by apply delete_id.
Qed.

Lemma deleteComment_removes_witness :
  (getCommentFromCache "12345" "501" (deleteComment "12345" "501" sample_world).2).1
  = Return None
  ∧ local_comments (deleteComment "12345" "501" sample_world).2
      !! getStorageKey "12345" "501" = None.
Proof.
  assert (NoDup (commentCache sample_world).*1) as Hnd.
  { apply NoDup_singleton. }
  destruct (proj1 (deleteComment_removes "12345" "501" sample_world Hnd) eq_refl)
    as (Hcache & Hstore & _).
  split; [exact Hcache | exact Hstore].
Defined.

Lemma deleteComment_mirrors (t c : string) (w : World) :
  mirrors w → mirrors (deleteComment t c w).2.
Proof.
  intros [Hnd Hm]. rewrite deleteComment_run.
  destruct (call_fails w); cbn [snd]; [done|].
  split; cbn [commentCache with_commentCache local_comments log
              with_local_comments after_call with_faults].
  - by apply NoDup_Map_delete.
  - intros k. destruct (decide (k = getCommentKey t c)) as [->|Hk].
    + rewrite Map_get_Map_delete by done.
      by rewrite storageKeyOf_getCommentKey, lookup_delete_eq.
    + rewrite Map_get_Map_delete_ne by done.
      rewrite lookup_delete_ne; [apply Hm|].
      rewrite <- storageKeyOf_getCommentKey. by intros ?%storageKeyOf_inj.
Qed.

Lemma for_each_deleteComment_mirrors (l : list CommentEntry) (w : World) :
  mirrors w →
  mirrors (for_each (λ comment,
             deleteComment (topicId comment) (commentNumber comment)) l w).2.
Proof.
  revert w. induction l as [|x l IH]; intros w Hm; [done|].
  cbn [for_each]. rewrite bind_run.
  pose proof (deleteComment_mirrors (topicId x) (commentNumber x) w Hm) as Hm1.
  destruct (deleteComment _ _ w) as [[[]|] w1]; cbn [snd] in *; [|done].
  by apply IH.
Qed.

Lemma quiet_mirrors (w w' : World) : quiet w w' → mirrors w → mirrors w'.
Proof. intros (Hs & _ & _ & Hc & _) [Hnd Hm]. unfold mirrors. by rewrite Hs, Hc. Qed.

Lemma cached_world_mirrors (w wq : World) (entry : CommentEntry) :
  quiet w wq → mirrors w →
  mirrors (cached_world (written_world w wq entry) entry
             (written_record w entry (clock wq))).
Proof.
  intros (_ & _ & _ & Hc & _) [Hnd Hm].
  unfold cached_world, written_world, mirrors.
  cbn [commentCache with_commentCache local_comments log with_local_comments
       after_call with_faults]. rewrite Hc.
  split; [by apply NoDup_Map_set|].
  intros k. rewrite Map_get_Map_set.
  rewrite <- storageKeyOf_getCommentKey.
  destruct (decide (getCommentKey (topicId entry) (commentNumber entry) = k))
    as [<-|Hk].
  - by rewrite lookup_insert_eq.
  - rewrite lookup_insert_ne; [apply Hm|]. by intros ?%storageKeyOf_inj.
Qed.

(** X9: the cache mirrors the store across the comment service: if it
    does before [saveComment], it does whenever [saveComment] returns
    (written or not, with or without eviction); [deleteComment] keeps it
    even when it throws. *)
Theorem cache_mirrors_store (w : World) :
  mirrors w →
  (∀ entry, (saveComment entry w).1 ≠ Throw → mirrors (saveComment entry w).2)
  ∧ (∀ t c, mirrors (deleteComment t c w).2).
Proof.
  intros Hm. split; [|by intros; apply deleteComment_mirrors].
  intros entry.
  destruct (saveComment_run entry w) as [(w1 & Hq & -> & _)|(wq & Hq & _ & _ & ->)].
  { intros _. by apply (quiet_mirrors w). }
  cbv zeta. destruct (call_fails _); [done|].
  pose proof (cached_world_mirrors w wq entry Hq Hm) as Hcached.
  rewrite enforceMaxEntries_run.
  destruct (_ <=? _)%nat; [done|].
  pose proof (for_each_deleteComment_mirrors
                (evicted (commentCache (cached_world (written_world w wq entry)
                            entry (written_record w entry (clock wq)))))
                _ Hcached) as Hleft.
  by destruct (for_each _ _ _) as [[[]|] w3].
Qed.

Lemma sample_world_mirrors : mirrors sample_world.
Proof.
  split; [apply NoDup_singleton|]. intros k. cbn [sample_world commentCache
    local_comments Map_get].
  rewrite <- storageKeyOf_getCommentKey.
  destruct (decide (getCommentKey "12345" "501" = k)) as [<-|Hk].
  - by rewrite lookup_singleton_eq.
  - rewrite lookup_singleton_ne; [done|]. by intros ?%storageKeyOf_inj.
Qed.

Lemma cache_mirrors_store_witness :
  mirrors (saveComment (sample_entry_at 5000) sample_world).2
  ∧ mirrors (deleteComment "12345" "501" sample_world).2.
Proof.
  destruct (cache_mirrors_store sample_world sample_world_mirrors) as [Hsave Hdel].
  split; [|apply Hdel]. apply Hsave. vm_compute. discriminate.
Defined.

(** X10: what [saveComment] returns can be read back: while the cache
    stays within its capacity, the returned record is the one the cache
    and the store hold for the comment afterwards, every other cache key
    keeps its record, and the unread total is untouched. *)
Theorem saveComment_then_get (entry e : CommentEntry) (w : World) :
  (saveComment entry w).1 = Return (Some e) →
  (length (Map_set (key_of entry) e (commentCache w))
   ≤ COMMENT_ENTRY_CONFIG.MAX_ENTRIES)%nat →
  let w' := (saveComment entry w).2 in
  (getCommentFromCache (topicId entry) (commentNumber entry) w').1
    = Return (Some e)
  ∧ persisted w' entry = Some e
  ∧ commentCache w' = Map_set (key_of entry) e (commentCache w)
  ∧ (∀ k, k ≠ key_of entry →
          Map_get k (commentCache w') = Map_get k (commentCache w))
  ∧ unread_total w' = unread_total w.
Proof.
  destruct (saveComment_run entry w) as [(w1 & _ & -> & _)|(wq & Hq & _ & _ & ->)];
    [done|].
  cbv zeta. destruct (call_fails _); [done|].
  rewrite enforceMaxEntries_run.
  assert (commentCache (cached_world (written_world w wq entry) entry
                          (written_record w entry (clock wq)))
          = Map_set (key_of entry) (written_record w entry (clock wq))
              (commentCache w)) as Hcache.
  { unfold cached_world, written_world. cbn. by destruct Hq as (_ & _ & _ & -> & _). }
  rewrite Hcache.
  destruct (Nat.leb_spec
              (length (Map_set (key_of entry) (written_record w entry (clock wq))
                         (commentCache w)))
              COMMENT_ENTRY_CONFIG.MAX_ENTRIES) as [Hle|Hgt].
  - intros [= <-] _. cbn [fst snd getCommentFromCache gets]. rewrite Hcache.
    split; [|split; [|split; [|split]]].
    + fold (key_of entry). rewrite Map_get_Map_set. by rewrite decide_True.
    + unfold persisted, cached_world, written_world. cbn.
      apply lookup_insert_eq.
    + done.
    + intros k Hk. rewrite Map_get_Map_set. by rewrite decide_False.
    + unfold cached_world, written_world. cbn. by destruct Hq as (_ & -> & _).
  - destruct (for_each _ _ _) as [[[]|] w3]; [|done].
    intros [= <-] Hle. lia.
Qed.

Lemma saveComment_then_get_witness :
  ∃ e,
    (getCommentFromCache "12345" "501"
       (saveComment (sample_entry_at 5000) sample_world).2).1 = Return (Some e)
    ∧ persisted (saveComment (sample_entry_at 5000) sample_world).2
        (sample_entry_at 5000) = Some e
    ∧ unreadCount e = Js.Val 7.
Proof.
  eexists. 
  destruct (saveComment_then_get (sample_entry_at 5000) _ sample_world eq_refl)
    as (Hget & Hstore & _).
  { vm_compute. lia. }
  split; [exact Hget|]. split; [exact Hstore | reflexivity].
Defined.
(** ** The steady state of the core *)

Lemma sumUnread_foldl (l : list CommentEntry) (a : Z) :
  foldl (λ acc it, acc + unreadOf it) a l = a + sumUnread l.
Proof.
  unfold sumUnread. revert a. induction l as [|x l IH]; intros a; cbn [foldl].
  - lia.
  - rewrite (IH (a + unreadOf x)), (IH (0 + unreadOf x)). lia.
Qed.

Lemma sumUnread_cons (x : CommentEntry) (l : list CommentEntry) :
  sumUnread (x :: l) = unreadOf x + sumUnread l.
Proof. unfold sumUnread at 1. cbn [foldl]. rewrite sumUnread_foldl. lia. Qed.

Lemma unreadOf_counted (e : CommentEntry) (u : Z) :
  unreadCount e = Js.Val u → unreadOf e = u.
Proof.
  intros Hu. unfold unreadOf. rewrite Hu. cbn. destruct (Z.eqb_spec u 0); lia.
Qed.

Lemma sumUnread_nonneg (l : list CommentEntry) :
  Forall counted l → 0 ≤ sumUnread l.
Proof.
  induction 1 as [|x l (u & Hu & Hpos) _ IH]; [done|].
  rewrite sumUnread_cons, (unreadOf_counted x u) by done. lia.
Qed.

Lemma Map_get_elem (k : string) (v : CommentEntry)
    (m : list (string * CommentEntry)) :
  Map_get k m = Some v → (k, v) ∈ m.
Proof.
  induction m as [|[k0 v0] m IH]; cbn [Map_get]; [done|].
  destruct (decide (k0 = k)) as [->|_].
  - intros [= ->]. apply elem_of_cons. by left.
  - intros Hm. apply elem_of_cons. right. by apply IH.
Qed.

Lemma Map_get_tracked (k : string) (m : list (string * CommentEntry)) :
  k ∈ m.*1 → ∃ v, Map_get k m = Some v.
Proof.
  intros Hin. destruct (Map_get k m) as [v|] eqn:Hget; [by exists v|].
  by apply Map_get_None in Hget.
Qed.

Lemma sumUnread_Map_set_any (k : string) (new : CommentEntry)
    (m : list (string * CommentEntry)) :
  sumUnread (Map_set k new m).*2
  = sumUnread m.*2 - default 0 (unreadOf <$> Map_get k m) + unreadOf new.
Proof.
  induction m as [|[k0 v0] m IH]; cbn [Map_get Map_set].
  - cbn. lia.
  - destruct (decide (k0 = k)) as [->|_].
    + cbn [fmap list_fmap snd option_fmap option_map]. rewrite !sumUnread_cons.
      unfold from_option, id. lia.
    + cbn [fmap list_fmap snd]. rewrite !sumUnread_cons.
      change (list_fmap _ _ snd ?l) with (l.*2). rewrite IH. lia.
Qed.

Lemma sumUnread_Map_set (k : string) (old new : CommentEntry)
    (m : list (string * CommentEntry)) :
  Map_get k m = Some old →
  sumUnread (Map_set k new m).*2 = sumUnread m.*2 - unreadOf old + unreadOf new.
Proof. intros Hold. by rewrite sumUnread_Map_set_any, Hold. Qed.

Lemma sumUnread_Map_delete (k : string) (old : CommentEntry)
    (m : list (string * CommentEntry)) :
  Map_get k m = Some old →
  sumUnread (Map_delete k m).*2 = sumUnread m.*2 - unreadOf old.
Proof.
  induction m as [|[k0 v0] m IH]; cbn [Map_get Map_delete]; [done|].
  destruct (decide (k0 = k)) as [->|_].
  - intros [= ->]. cbn [fmap list_fmap snd]. rewrite !sumUnread_cons. lia.
  - intros Hm. cbn [fmap list_fmap snd]. rewrite !sumUnread_cons.
    change (list_fmap _ _ snd ?l) with (l.*2). rewrite IH by done. lia.
Qed.

Lemma Map_set_length_value (k : string) (v v' : CommentEntry)
    (m : list (string * CommentEntry)) :
  length (Map_set k v m) = length (Map_set k v' m).
Proof.
  rewrite <- (length_fmap fst (Map_set k v m)), <- (length_fmap fst (Map_set k v' m)).
  by rewrite !Map_set_keys.
Qed.

Lemma Map_set_length_old (k : string) (v : CommentEntry)
    (m : list (string * CommentEntry)) :
  k ∈ m.*1 → length (Map_set k v m) = length m.
Proof.
  intros Hin. rewrite <- (length_fmap fst (Map_set k v m)), Map_set_keys.
  rewrite decide_True by done. apply length_fmap.
Qed.

Lemma Forall_counted_Map_set (k : string) (v : CommentEntry)
    (m : list (string * CommentEntry)) :
  counted v → Forall counted m.*2 → Forall counted (Map_set k v m).*2.
Proof.
  intros Hv Hm. apply Forall_forall. intros x ((k' & x') & -> & Hin)%list_elem_of_fmap.
  apply Map_set_elem in Hin as [[= -> ->]|Hin]; [done|].
  rewrite Forall_forall in Hm. apply Hm. apply list_elem_of_fmap.
  by exists (k', x').
Qed.

Lemma Forall_counted_filter (P : string * CommentEntry → Prop)
    `{∀ x, Decision (P x)} (m : list (string * CommentEntry)) :
  Forall counted m.*2 → Forall counted (filter P m).*2.
Proof.
  rewrite !Forall_fmap, !Forall_forall. intros Hm x [_ Hx]%list_elem_of_filter.
  by apply Hm.
Qed.

(** [orderly] looks at the fault schedule, the store and the cache. *)
Lemma orderly_ext (w w' : World) :
  faults w' = faults w → local_comments w' = local_comments w →
  commentCache w' = commentCache w → orderly w → orderly w'.
Proof.
  intros Hf Hs Hc (Hh & Hok & Hcap & Hcounted & [Hnd Hm]).
  unfold orderly, healthy, within_capacity, mirrors.
  rewrite Hf, Hs, Hc. done.
Qed.

Lemma steady_ext (w w' : World) :
  faults w' = faults w → local_comments w' = local_comments w →
  commentCache w' = commentCache w → unread_total w' = unread_total w →
  steady w → steady w'.
Proof.
  intros Hf Hs Hc Ht [Ho Hb]. split; [by apply (orderly_ext w)|].
  unfold balanced. by rewrite Ht, Hc.
Qed.

Lemma saveComment_fits (entry : CommentEntry) (w : World) :
  healthy w →
  (length (Map_set (key_of entry) entry (commentCache w))
   ≤ COMMENT_ENTRY_CONFIG.MAX_ENTRIES)%nat →
  saveComment entry w =
  if existing_is_newer (persisted w entry) entry then (Return None, w)
  else (Return (Some (written_record w entry (clock w))),
        cached_world (written_world w w entry) entry
          (written_record w entry (clock w))).
Proof.
  intros Hh Hcap. unfold healthy in Hh.
  assert (saveCommentWithOptimisticLock entry OPTIMISTIC_LOCK.MAX_RETRIES w
          = if existing_is_newer (persisted w entry) entry
            then (Return false, w)
            else (Return true, written_world w w entry)) as Hlock.
  { unfold saveCommentWithOptimisticLock, saveCommentWithOptimisticLock_outcome.
    rewrite bind_run. change OPTIMISTIC_LOCK.MAX_RETRIES with 3%nat.
    cbn [saveRetryLoop]. unfold try_catch. rewrite saveAttempt_run.
    rewrite call_fails_no_faults, !after_call_no_faults by done.
    rewrite call_fails_no_faults by done.
    by destruct (existing_is_newer _ _). }
  unfold saveComment. rewrite bind_run, Hlock.
  destruct (existing_is_newer _ _); [done|]. cbn [negb]. cbv zeta.
  rewrite storage_key_literal, bind_run, storage_getItem_run.
  rewrite call_fails_no_faults by done.
  fold (persisted (written_world w w entry) entry).
  rewrite persisted_written_world, !bind_run. cbn [modify].
  rewrite bind_run, enforceMaxEntries_run.
  cbn [commentCache with_commentCache]. unfold cached_world.
  change (commentCache (after_call (written_world w w entry)))
    with (commentCache w).
  fold (key_of entry).
  rewrite (Map_set_length_value _ _ entry).
  apply Nat.leb_le in Hcap. by rewrite Hcap.
Qed.

Lemma saveComment_tracked (entry : CommentEntry) (w : World) :
  healthy w → within_capacity w → key_of entry ∈ (commentCache w).*1 →
  saveComment entry w =
  if existing_is_newer (persisted w entry) entry then (Return None, w)
  else (Return (Some (written_record w entry (clock w))),
        cached_world (written_world w w entry) entry
          (written_record w entry (clock w))).
Proof.
  intros Hh Hcap Hin. apply saveComment_fits; [done|].
  by rewrite Map_set_length_old.
Qed.

Lemma adjustUnread_healthy (d : Z) (w : World) :
  healthy w → d ≠ 0 →
  adjustUnread (Js.Int d) w =
  (Return tt,
   log (EvSetUnreadTotal (Z.max 0 (default 0 (unread_total w) + d)))
     (with_unread_total (Some (Z.max 0 (default 0 (unread_total w) + d))) w)).
Proof.
  intros Hh Hd. rewrite adjustUnread_run by done.
  rewrite !after_call_no_faults, call_fails_no_faults by done. done.
Qed.

(** An entry saved into a cache that has room for it. *)
Lemma orderly_saved (w : World) (entry : CommentEntry) :
  orderly w → counted entry →
  (length (Map_set (key_of entry) entry (commentCache w))
   ≤ COMMENT_ENTRY_CONFIG.MAX_ENTRIES)%nat →
  let record := written_record w entry (clock w) in
  let w2 := cached_world (written_world w w entry) entry record in
  orderly w2
  ∧ sumUnread (commentCache w2).*2
    = sumUnread (commentCache w).*2
      - default 0 (unreadOf <$> Map_get (key_of entry) (commentCache w))
      + unreadOf entry
  ∧ unread_total w2 = unread_total w
  ∧ commentCache w2 = Map_set (key_of entry) record (commentCache w).
Proof.
  intros (Hh & Hok & _ & Hcounted & Hmir) (n & Hn & Hpos) Hcap. cbv zeta.
  set (record := written_record w entry (clock w)).
  set (w2 := cached_world (written_world w w entry) entry record).
  assert (commentCache w2 = Map_set (key_of entry) record (commentCache w)) as Hc2
    by done.
  split; [|split; [|split; [done|done]]].
  - split; [|split; [|split; [|split]]].
    + unfold healthy in *. subst w2. unfold cached_world, written_world. cbn.
      by rewrite Hh.
    + rewrite Hc2. destruct (written_record_key w entry (clock w)) as [<- Hst].
      by apply cache_ok_Map_set.
    + unfold within_capacity. by rewrite Hc2, (Map_set_length_value _ _ entry).
    + rewrite Hc2. apply Forall_counted_Map_set; [by exists n | done].
    + subst w2 record. apply cached_world_mirrors; [reflexivity | done].
  - rewrite Hc2, sumUnread_Map_set_any.
    by rewrite (unreadOf_counted record n), (unreadOf_counted entry n).
Qed.

(** A tracked entry replaced by a record with the same key. *)
Lemma orderly_replaced (w : World) (old entry : CommentEntry) :
  orderly w →
  Map_get (key_of entry) (commentCache w) = Some old →
  counted entry →
  let record := written_record w entry (clock w) in
  let w2 := cached_world (written_world w w entry) entry record in
  orderly w2
  ∧ sumUnread (commentCache w2).*2
    = sumUnread (commentCache w).*2 - unreadOf old + unreadOf entry
  ∧ unread_total w2 = unread_total w
  ∧ commentCache w2 = Map_set (key_of entry) record (commentCache w)
  ∧ (commentCache w2).*1 = (commentCache w).*1.
Proof.
  intros Ho Hold Hcounted. cbv zeta.
  assert (key_of entry ∈ (commentCache w).*1) as Hin.
  { apply list_elem_of_fmap. exists (key_of entry, old).
    split; [done | by apply Map_get_elem]. }
  destruct (orderly_saved w entry Ho Hcounted) as (Ho2 & Hsum & Ht & Hc2).
  { rewrite Map_set_length_old by done. apply Ho. }
  rewrite Hold in Hsum. split; [done|]. split; [done|]. split; [done|].
  split; [done|]. rewrite Hc2, Map_set_keys. by rewrite decide_True.
Qed.

Lemma newUnreadCount_nonneg (p u : Js.Nullable Z) (r : Z) :
  0 ≤ newUnreadCount p u r.
Proof. unfold newUnreadCount. lia. Qed.

Lemma orderly_tracked (w : World) (k : string) :
  orderly w → k ∈ (commentCache w).*1 →
  ∃ prev u, Map_get k (commentCache w) = Some prev ∧ key_of prev = k
            ∧ unreadCount prev = Js.Val u ∧ 0 ≤ u ∧ stamped prev.
Proof.
  intros (_ & [_ Hok] & _ & Hcounted & _) Hin.
  destruct (Map_get_tracked _ _ Hin) as [prev Hprev].
  pose proof (Map_get_elem _ _ _ Hprev) as Helem.
  rewrite Forall_forall in Hok. destruct (Hok _ Helem) as [Hkey Hst].
  rewrite Forall_forall in Hcounted.
  destruct (Hcounted prev) as (u & Hu & Hpos).
  { apply list_elem_of_fmap. by exists (k, prev). }
  by exists prev, u.
Qed.

Lemma crawlEntry_steady (comment : CommentEntry) (w : World) :
  steady w → key_of comment ∈ (commentCache w).*1 →
  let run := crawlEntry getCommentFromCache saveComment adjustUnread comment w in
  steady run.2 ∧ (commentCache run.2).*1 = (commentCache w).*1
  ∧ ∃ b, run.1 = Return b.
Proof.
  intros Hst Hin. cbv zeta.
  destruct (orderly_tracked w _ (proj1 Hst) Hin)
    as (prev & u & Hprev & Hkey & Hu & Hpos & _).
  rewrite crawlEntry_run. cbv zeta.
  assert (previousComment w comment = prev) as ->.
  { unfold previousComment. fold (key_of comment). by rewrite Hprev. }
  destruct (skipped_as_old prev (clock w)); [by eauto|].
  destruct (fetchResCountForComment_run (topicId comment) (commentNumber comment) w)
    as (res & w1 & -> & Hs & Ht & Hc & _ & Hf & _).
  unfold keeps in *.
  assert (steady w1) as Hst1 by by apply (steady_ext w).
  destruct res as [r|]; [|by cbn [fst snd]; rewrite Hc; eauto].
  destruct (reconcile prev r (clock w1)) as [[upd delta]|] eqn:Hrec;
    [|by cbn [fst snd]; rewrite Hc; eauto].
  apply reconcile_counts in Hrec as [-> ->].
  set (n := newUnreadCount (resCount prev) (unreadCount prev) r).
  set (upd := with_counts_updatedAt r n (Js.Instant (clock w1)) prev).
  assert (key_of upd = key_of comment) as Hkupd by (rewrite <- Hkey; done).
  assert (Map_get (key_of upd) (commentCache w1) = Some prev) as Hold
    by by rewrite Hkupd, Hc.
  assert (counted upd) as Hcounted.
  { exists n. split; [done | apply newUnreadCount_nonneg]. }
  destruct Hst1 as [Ho1 Hb1].
  destruct (orderly_replaced w1 prev upd Ho1 Hold Hcounted)
    as (Ho2 & Hsum2 & Ht2 & _ & Hkeys).
  rewrite (unreadOf_counted prev u), (unreadOf_counted upd n) in Hsum2 by done.
  rewrite saveAndAdjust_run, saveComment_tracked;
    [|apply Ho1|apply Ho1|by rewrite Hkupd, Hc].
  destruct (existing_is_newer _ _).
  { cbn [fst snd]. rewrite Hc. split; [by split | eauto]. }
  rewrite Hu. cbn [Js.ToNumber Js.sub Js.nonzero].
  pose proof (sumUnread_nonneg _ (proj1 (proj2 (proj2 (proj2 Ho2))))) as Hnonneg.
  unfold balanced in Hb1.
  destruct (Z.eqb_spec (n - u) 0) as [Hz|Hnz]; cbn [negb].
  - cbn [fst snd]. split; [|split; [by rewrite Hkeys, Hc | eauto]].
    split; [done|]. unfold balanced. rewrite Ht2, Hb1, Hsum2. f_equal. lia.
  - rewrite adjustUnread_healthy; [|apply Ho2|done].
    cbn [fst snd]. split; [|split; [by rewrite <- Hc, <- Hkeys | eauto]].
    split; [by apply (orderly_ext _ _ eq_refl eq_refl eq_refl) in Ho2|].
    unfold balanced. cbn [unread_total log with_unread_total commentCache].
    rewrite Ht2, Hb1, Hsum2. unfold from_option, id. f_equal. lia.
Qed.

Lemma steady_with_clock (w : World) (t : Z) : steady w → steady (with_clock t w).
Proof. by apply steady_ext. Qed.

Lemma steady_with_isCrawling (w : World) (b : bool) :
  steady w → steady (with_isCrawling b w).
Proof. by apply steady_ext. Qed.

Lemma crawlerEnabled_healthy (w : World) :
  healthy w → crawlerEnabled w = (Return (default true (crawler_enabled w)), w).
Proof.
  intros Hh. rewrite crawlerEnabled_run.
  by rewrite call_fails_no_faults, after_call_no_faults.
Qed.

Lemma crawlIteration_steady (comment : CommentEntry) (n : Z) (w : World) :
  steady w → key_of comment ∈ (commentCache w).*1 →
  let run := crawlIteration getCommentFromCache saveComment adjustUnread
               comment n w in
  steady run.2 ∧ (commentCache run.2).*1 = (commentCache w).*1
  ∧ ∃ continue n', run.1 = Return (continue, n') ∧ n ≤ n' ≤ n + 1.
Proof.
  intros Hst Hin. cbv zeta. unfold crawlIteration.
  rewrite bind_run, crawlerEnabled_healthy by apply Hst.
  destruct (default true (crawler_enabled w)); cbn [negb].
  2: { split; [done|]. split; [done|]. exists false, n. split; [done | lia]. }
  rewrite bind_run. unfold try_catch.
  destruct (crawlEntry_steady comment w Hst Hin) as (Hst1 & Hkeys & b & Hb).
  destruct (crawlEntry _ _ _ comment w) as [res w1]. cbn [fst snd] in *. subst res.
  rewrite bind_run, afterEntry_run, crawlerEnabled_healthy
    by apply steady_with_clock, Hst1.
  cbn [fst snd]. split; [by apply steady_with_clock|]. split; [done|].
  eexists _, _. split; [done|]. destruct b; lia.
Qed.

Lemma crawlLoop_steady (l : list CommentEntry) (n : Z) (w : World) :
  steady w → Forall (λ comment, key_of comment ∈ (commentCache w).*1) l →
  let run := crawlLoop getCommentFromCache saveComment adjustUnread l n w in
  steady run.2 ∧ (commentCache run.2).*1 = (commentCache w).*1
  ∧ ∃ n', run.1 = Return n' ∧ n ≤ n' ≤ n + Z.of_nat (length l).
Proof.
  revert n w. induction l as [|comment l IH]; intros n w Hst Hall; cbv zeta.
  { split; [done|]. split; [done|]. exists n. cbn. split; [done | lia]. }
  apply Forall_cons in Hall as [Hin Hall].
  cbn [crawlLoop]. rewrite bind_run.
  destruct (crawlIteration_steady comment n w Hst Hin)
    as (Hst1 & Hkeys & continue & n1 & Hrun & Hn1).
  destruct (crawlIteration _ _ _ comment n w) as [res w1]. cbn [fst snd] in *.
  subst res. destruct continue.
  - destruct (IH n1 w1 Hst1) as (Hst2 & Hkeys2 & n2 & Hrun2 & Hn2).
    { by rewrite Hkeys. }
    split; [done|]. split; [by rewrite Hkeys2|].
    exists n2. split; [done|]. cbn [length]. lia.
  - cbn [fst snd]. split; [done|]. split; [done|].
    exists n1. split; [done|]. cbn [length]. lia.
Qed.

(** X11: while storage works, a crawl cycle keeps the core in its steady
    state: the unread total stays the sum of the unread counts of the
    cache, none of them negative; the cache keeps mirroring the store,
    tracks the same comments in the same order and stays within its
    capacity; the cycle returns the number of updated entries, at most
    the number of tracked comments. *)
Theorem crawlCycle_keeps_steady (w : World) :
  steady w →
  let run := crawlCycle w in
  steady run.2
  ∧ (commentCache run.2).*1 = (commentCache w).*1
  ∧ ∃ n, run.1 = Return n ∧ 0 ≤ n ≤ Z.of_nat (length (commentCache w)).
Proof.
  intros Hst. cbv zeta. unfold crawlCycle, getAllCommentsFromCache.
  rewrite bind_run. cbn [gets]. unfold crawlCommentsOnce.
  destruct (isCrawling w).
  { split; [done|]. split; [done|]. exists 0. split; [done | lia]. }
  assert (∀ w0, steady w0 → (commentCache w0).*1 = (commentCache w).*1 →
            steady (with_isCrawling false w0)
            ∧ (commentCache (with_isCrawling false w0)).*1 = (commentCache w).*1)
    as Hend.
  { intros w0 H0 Hk. split; [by apply steady_with_isCrawling | done]. }
  destruct (commentCache w).*2 as [|c l] eqn:Hlist.
  { cbn. destruct (Hend (with_isCrawling true w)) as [? ?];
      [by apply steady_with_isCrawling | done |].
    split; [done|]. split; [done|]. exists 0. split; [done | lia]. }
  rewrite <- Hlist. unfold try_catch.
  destruct (crawlLoop_steady (commentCache w).*2 0 (with_isCrawling true w))
    as (Hst1 & Hkeys & n & Hrun & Hn).
  { by apply steady_with_isCrawling. }
  { cbn [commentCache with_isCrawling].
    destruct Hst as [(_ & Hok & _) _]. rewrite (cache_ok_keys _ Hok).
    apply Forall_forall. intros x Hx. by apply list_elem_of_fmap_2. }
  destruct (crawlLoop _ _ _ _ 0 _) as [res w1]. cbn [fst snd] in *. subst res.
  destruct (Hend w1 Hst1 Hkeys) as [? ?].
  split; [done|]. split; [done|]. exists n. split; [done|].
  rewrite length_fmap in Hn. lia.
Qed.

Lemma sample_world_steady : steady sample_world.
Proof.
  split; [|reflexivity].
  split; [reflexivity|]. split; [|split; [|split]].
  - split; [apply NoDup_singleton|].
    constructor; [|constructor]. split; [reflexivity | by exists 2000].
  - unfold within_capacity, COMMENT_ENTRY_CONFIG.MAX_ENTRIES. cbn. lia.
  - constructor; [|constructor]. by exists 5.
  - apply sample_world_mirrors.
Qed.

Lemma crawlCycle_keeps_steady_witness : steady (crawlCycle sample_world).2.
Proof. exact (proj1 (crawlCycle_keeps_steady sample_world sample_world_steady)). Defined.
(** ** The handlers of the messages about tracked comments *)

Lemma Map_delete_absent (k : string) (m : list (string * CommentEntry)) :
  Map_get k m = None → Map_delete k m = m.
Proof.
  induction m as [|[k0 v0] m IH]; cbn [Map_get Map_delete]; [done|].
  destruct (decide (k0 = k)); [done|]. intros Hm. by rewrite IH.
Qed.

Lemma filter_ext_in {A} (P Q : A → Prop) `{∀ x, Decision (P x)}
    `{∀ x, Decision (Q x)} (l : list A) :
  (∀ x, x ∈ l → (P x ↔ Q x)) → filter P l = filter Q l.
Proof.
  induction l as [|x l IH]; intros Hl; [done|].
  assert (filter P l = filter Q l) as Hrest.
  { apply IH. intros y Hy. apply Hl, elem_of_cons. by right. }
  assert (P x ↔ Q x) as Hx by (apply Hl, elem_of_cons; by left).
  destruct (decide (P x)) as [Hp|Hp].
  - rewrite !filter_cons_True by tauto. by rewrite Hrest.
  - rewrite !filter_cons_False by tauto. done.
Qed.

Lemma filter_values (P : CommentEntry → Prop) `{∀ x, Decision (P x)}
    (m : list (string * CommentEntry)) :
  (filter (λ kv, P kv.2) m).*2 = filter P m.*2.
Proof.
  induction m as [|[k v] m IH]; [done|]. cbn [fmap list_fmap snd].
  change (list_fmap _ _ snd m) with (m.*2).
  destruct (decide (P v)) as [Hp|Hp].
  - rewrite !filter_cons_True by done. cbn [fmap list_fmap snd].
    change (list_fmap _ _ snd ?l) with (l.*2). by rewrite IH.
  - rewrite !filter_cons_False by done. exact IH.
Qed.

Lemma sumUnread_filter (P : CommentEntry → Prop) `{∀ x, Decision (P x)}
    (l : list CommentEntry) :
  sumUnread (filter P l) + sumUnread (filter (λ x, ¬ P x) l) = sumUnread l.
Proof.
  induction l as [|x l IH]; [done|].
  rewrite sumUnread_cons. destruct (decide (P x)) as [Hp|Hp].
  - rewrite filter_cons_True, (filter_cons_False (λ x, ¬ P x)) by tauto.
    rewrite sumUnread_cons. lia.
  - rewrite filter_cons_False, (filter_cons_True (λ x, ¬ P x)) by tauto.
    rewrite sumUnread_cons. lia.
Qed.

Lemma orderly_filter (P : string * CommentEntry → Prop) `{∀ x, Decision (P x)}
    (w w' : World) :
  orderly w → healthy w' → mirrors w' →
  commentCache w' = filter P (commentCache w) → orderly w'.
Proof.
  intros (_ & Hok & Hcap & Hcounted & _) Hh Hm Hc.
  unfold orderly, within_capacity. rewrite Hc.
  split; [done|]. split; [by apply cache_ok_filter|]. split.
  - etrans; [apply length_filter | done].
  - split; [by apply Forall_counted_filter | done].
Qed.

Lemma orderly_deleted (t c : string) (w : World) :
  orderly w →
  let run := deleteComment t c w in
  run.1 = Return tt ∧ orderly run.2
  ∧ unread_total run.2 = unread_total w
  ∧ commentCache run.2 = Map_delete (getCommentKey t c) (commentCache w)
  ∧ local_comments run.2 = delete (getStorageKey t c) (local_comments w)
  ∧ sumUnread (commentCache run.2).*2
    = sumUnread (commentCache w).*2
      - default 0 (unreadOf <$> Map_get (getCommentKey t c) (commentCache w)).
Proof.
  intros Ho. cbv zeta.
  pose proof (deleteComment_mirrors t c w (proj2 (proj2 (proj2 (proj2 Ho))))) as Hm.
  pose proof Ho as (Hh & Hok & Hcap & Hcounted & _).
  rewrite deleteComment_run in Hm |- *.
  rewrite call_fails_no_faults, after_call_no_faults in Hm |- * by done.
  cbn [fst snd] in *. split; [done|].
  cbn [commentCache with_commentCache log with_local_comments unread_total
       local_comments].
  split; [|split; [done|split; [done|split; [done|]]]].
  - eapply (orderly_filter (λ kv, kv.1 ≠ getCommentKey t c) w);
      [exact Ho | exact Hh | exact Hm |].
    cbn. apply Map_delete_filter, Hok.
  - destruct (Map_get (getCommentKey t c) (commentCache w)) as [e|] eqn:He.
    + by rewrite (sumUnread_Map_delete _ e).
    + rewrite Map_delete_absent by done. cbn. lia.
Qed.

(** X12: [remove-comment] on a core in its steady state answers
    [{ ok: true }], leaves the comment in neither the cache nor the store,
    lowers the unread total by the unread count the comment had, and
    leaves the core in its steady state; other comments keep their place
    in the cache. *)
Theorem remove_comment_keeps_steady (t c : string) (w : World) :
  steady w → validateTopicId t = true → validateCommentNumber c = true →
  let run := handleRemoveComment adjustUnread t c w in
  let unread :=
    default 0 (unreadOf <$> Map_get (getCommentKey t c) (commentCache w)) in
  run.1 = Return (response true)
  ∧ steady run.2
  ∧ commentCache run.2 = Map_delete (getCommentKey t c) (commentCache w)
  ∧ Map_get (getCommentKey t c) (commentCache run.2) = None
  ∧ local_comments run.2 !! getStorageKey t c = None
  ∧ unread_total run.2 = Some (sumUnread (commentCache w).*2 - unread).
Proof.
  intros [Ho Hb] Ht Hc. cbv zeta. unfold handleRemoveComment.
  rewrite Ht, Hc. cbn [negb]. rewrite bind_run. cbn [getCommentFromCache gets].
  set (key := getCommentKey t c). unfold balanced in Hb.
  assert (∀ w1, orderly w1 → commentCache w1 = commentCache w →
            unread_total w1
            = Some (sumUnread (commentCache w).*2
                    - default 0 (unreadOf <$> Map_get key (commentCache w))) →
            let run := (deleteComment t c;; mret (response true)) w1 in
            run.1 = Return (response true) ∧ steady run.2
            ∧ commentCache run.2 = Map_delete key (commentCache w)
            ∧ Map_get key (commentCache run.2) = None
            ∧ local_comments run.2 !! getStorageKey t c = None
            ∧ unread_total run.2
              = Some (sumUnread (commentCache w).*2
                      - default 0 (unreadOf <$> Map_get key (commentCache w))))
    as Hdelete.
  { intros w1 Ho1 Hc1 Ht1. cbv zeta. rewrite bind_run.
    destruct (orderly_deleted t c w1 Ho1) as (Hr & Ho2 & Ht2 & Hc2 & Hs2 & Hsum).
    destruct (deleteComment t c w1) as [res w2]. cbn [fst snd] in *. subst res.
    cbn [mret M_ret fst snd]. fold key in Hc2, Hsum. rewrite Hc1 in Hc2, Hsum.
    split; [done|]. split; [|split; [done|split; [|split]]].
    - split; [done|]. unfold balanced. by rewrite Ht2, Ht1, Hsum.
    - rewrite Hc2. apply Map_get_Map_delete. apply Ho.
    - rewrite Hs2. apply lookup_delete_eq.
    - by rewrite Ht2. }
  destruct (Map_get key (commentCache w)) as [existing|] eqn:Hex.
  2: { rewrite bind_run. cbn [mret M_ret].
       apply Hdelete; [done..|]. rewrite Hb. cbn. f_equal. lia. }
  destruct (orderly_tracked w key Ho) as (prev & u & Hprev & _ & Hu & Hpos & _).
  { apply list_elem_of_fmap. exists (key, existing).
    split; [done | by apply Map_get_elem]. }
  rewrite Hex in Hprev. injection Hprev as <-.
  cbn [fmap option_fmap option_map] in Hdelete |- *.
  unfold from_option, id in Hdelete |- *.
  rewrite (unreadOf_counted existing u) in Hdelete |- * by done.
  destruct (Z.ltb_spec 0 u) as [Hlt|Hle].
  - rewrite bind_run, adjustUnread_healthy; [|apply Ho|lia].
    assert (sumUnread (Map_delete key (commentCache w)).*2
            = sumUnread (commentCache w).*2 - u) as Hrest.
    { by rewrite (sumUnread_Map_delete _ existing), (unreadOf_counted existing u). }
    assert (0 ≤ sumUnread (Map_delete key (commentCache w)).*2) as Hnonneg.
    { apply sumUnread_nonneg. rewrite Map_delete_filter by apply Ho.
      apply Forall_counted_filter, Ho. }
    apply Hdelete.
    + by apply (orderly_ext _ _ eq_refl eq_refl eq_refl) in Ho.
    + done.
    + cbn [unread_total log with_unread_total]. rewrite Hb.
      unfold from_option, id. f_equal. lia.
  - rewrite bind_run. cbn [mret M_ret].
    apply Hdelete; [done..|]. rewrite Hb. f_equal. lia.
Qed.

Lemma remove_comment_keeps_steady_witness :
  steady (handleRemoveComment adjustUnread "12345" "501" sample_world).2
  ∧ unread_total (handleRemoveComment adjustUnread "12345" "501" sample_world).2
    = Some 0.
Proof.
  destruct (remove_comment_keeps_steady "12345" "501" sample_world
              sample_world_steady eq_refl eq_refl) as (_ & Hst & _ & _ & _ & Ht).
  split; [exact Hst | exact Ht].
Defined.

Lemma for_each_delete_orderly (l : list CommentEntry) (w : World) :
  orderly w →
  orderly (for_each (λ comment,
             deleteComment (topicId comment) (commentNumber comment)) l w).2.
Proof.
  revert w. induction l as [|x l IH]; intros w Ho; [done|].
  cbn [for_each]. rewrite bind_run.
  destruct (orderly_deleted (topicId x) (commentNumber x) w Ho) as (Hr & Ho1 & _).
  destruct (deleteComment _ _ w) as [res w1]. cbn [fst snd] in *. subst res.
  by apply IH.
Qed.

Lemma Map_get_of_elem (k : string) (v : CommentEntry)
    (m : list (string * CommentEntry)) :
  NoDup m.*1 → (k, v) ∈ m → Map_get k m = Some v.
Proof.
  induction m as [|[k0 v0] m IH]; [by intros _ ?%elem_of_nil|].
  cbn [fmap list_fmap fst Map_get]. intros [Hk0 Hnd]%NoDup_cons.
  intros [[= -> ->]|Hin]%elem_of_cons.
  - by rewrite decide_True.
  - destruct (decide (k0 = k)) as [->|_]; [|by apply IH].
    exfalso. apply Hk0. apply list_elem_of_fmap. by exists (k, v).
Qed.

Lemma topic_filter (topic : string) (c : list (string * CommentEntry)) :
  cache_ok c →
  filter (λ kv, kv.1 ∉ key_of <$> filter (λ x, topicId x = topic) c.*2) c
  = filter (λ kv, topicId kv.2 ≠ topic) c.
Proof.
  intros [Hnd Hok]. apply filter_ext_in. intros [k v] Hin. cbn [fst snd].
  rewrite Forall_forall in Hok. destruct (Hok _ Hin) as [Hk _]. cbn in Hk.
  split.
  - intros Hnot Htopic. apply Hnot. rewrite Hk. apply list_elem_of_fmap_2.
    apply list_elem_of_filter. split; [done|].
    apply list_elem_of_fmap. by exists (k, v).
  - intros Hne (x & Hkx & [Htopic Hx]%list_elem_of_filter)%list_elem_of_fmap.
    apply list_elem_of_fmap in Hx as ([k' x'] & -> & Hin'). cbn [snd] in *.
    destruct (Hok _ Hin') as [Hk' _]. cbn in Hk'.
    assert (v = x'); [|congruence].
    pose proof (Map_get_of_elem _ _ _ Hnd Hin) as Hv.
    pose proof (Map_get_of_elem _ _ _ Hnd Hin') as Hx'.
    rewrite Hk', <- Hkx in Hx'. congruence.
Qed.

(** X13: [remove-topic] on a core in its steady state removes from the
    cache and from the store exactly the tracked comments of the topic,
    keeps the others in their order, answers with the number of comments
    removed, lowers the unread total by the unread counts removed, and
    leaves the core in its steady state. *)
Theorem remove_topic_keeps_steady (topic : string) (w : World) :
  steady w → validateTopicId topic = true →
  let run := handleRemoveTopic adjustUnread topic w in
  let removed := filter (λ comment, topicId comment = topic) (commentCache w).*2 in
  run.1 = Return (mkMessageResponse true None None (Some (length removed)) None)
  ∧ steady run.2
  ∧ commentCache run.2
    = filter (λ kv, topicId kv.2 ≠ topic) (commentCache w)
  ∧ (∀ x, x ∈ removed → persisted run.2 x = None)
  ∧ unread_total run.2
    = Some (sumUnread (commentCache w).*2 - sumUnread removed).
Proof.
  intros [Ho Hb] Ht. cbv zeta. unfold handleRemoveTopic.
  rewrite Ht. cbn [negb]. rewrite bind_run. cbn [getAllCommentsFromCache gets].
  set (removed := filter (λ comment, topicId comment = topic) (commentCache w).*2).
  rewrite bind_run.
  pose proof (for_each_delete_orderly removed w Ho) as Ho1.
  pose proof (for_each_deleteComment_no_faults removed w (proj1 Ho)) as Hr.
  destruct (for_each_deleteComment removed w Hr) as (Hc1 & Hs1 & Ht1).
  destruct (for_each _ removed w) as [res w1]. cbn [fst snd] in *. subst res.
  rewrite foldl_Map_delete in Hc1 by apply Ho.
  subst removed. rewrite topic_filter in Hc1 by apply Ho.
  set (removed := filter (λ comment, topicId comment = topic) (commentCache w).*2)
    in *.
  assert (sumUnread (commentCache w1).*2
          = sumUnread (commentCache w).*2 - sumUnread removed) as Hsum.
  { pose proof (filter_values (λ v, topicId v ≠ topic) (commentCache w)) as Hfv.
    cbn beta in Hfv. rewrite Hc1, Hfv.
    pose proof (sumUnread_filter (λ x, topicId x = topic) (commentCache w).*2).
    change (sumUnread removed
            + sumUnread (filter (λ v, topicId v ≠ topic) (commentCache w).*2)
            = sumUnread (commentCache w).*2) in H. lia. }
  assert (0 ≤ sumUnread removed) as Hremoved.
  { apply sumUnread_nonneg. destruct Ho as (_ & _ & _ & Hcounted & _).
    rewrite Forall_forall in Hcounted |- *.
    intros x [_ Hx]%list_elem_of_filter. by apply Hcounted. }
  pose proof (sumUnread_nonneg _ (proj1 (proj2 (proj2 (proj2 Ho1))))) as Hleft.
  assert (∀ x, x ∈ removed → persisted w1 x = None) as Hgone.
  { intros x Hx. unfold persisted. rewrite Hs1. by apply lookup_foldl_delete. }
  unfold balanced in Hb.
  destruct (Z.ltb_spec 0 (sumUnread removed)) as [Hlt|Hle].
  - rewrite bind_run, adjustUnread_healthy; [|apply Ho1|lia].
    cbn [mret M_ret fst snd]. split; [done|].
    split; [|split; [done|split; [done|]]].
    + split; [by apply (orderly_ext _ _ eq_refl eq_refl eq_refl) in Ho1|].
      unfold balanced. cbn [unread_total log with_unread_total commentCache].
      rewrite Ht1, Hb, Hsum. unfold from_option, id. f_equal. lia.
    + cbn [unread_total log with_unread_total]. rewrite Ht1, Hb.
      unfold from_option, id. f_equal. lia.
  - rewrite bind_run. cbn [mret M_ret fst snd]. split; [done|].
    split; [|split; [done|split; [done|]]].
    + split; [done|]. unfold balanced. rewrite Ht1, Hb, Hsum. f_equal. lia.
    + rewrite Ht1, Hb. f_equal. lia.
Qed.

Lemma remove_topic_keeps_steady_witness :
  steady (handleRemoveTopic adjustUnread "12345" sample_world).2
  ∧ commentCache (handleRemoveTopic adjustUnread "12345" sample_world).2 = [].
Proof.
  destruct (remove_topic_keeps_steady "12345" sample_world
              sample_world_steady eq_refl) as (_ & Hst & Hc & _).
  split; [exact Hst | exact Hc].
Defined.

(** X14: [clear-unread] on a core in its steady state, for a tracked
    comment whose record is not dated after the clock, fetches the reply
    count, answers [{ ok: true }] and leaves the comment with no unread
    reply, with the fetched reply count when there is one and the stored
    one otherwise; the unread total goes down by what the comment had
    unread, the tracked comments stay the same and the core stays in its
    steady state.  For a comment that is not tracked the answer is an
    error and nothing is fetched or changed. *)
Theorem clear_unread_keeps_steady (t c : string) (w : World) :
  steady w → validateTopicId t = true → validateCommentNumber c = true →
  let run := handleClearUnread adjustUnread t c w in
  let fetched := (fetchResCountForComment t c w).1 in
  match Map_get (getCommentKey t c) (commentCache w) with
  | None => run = (Return (failure CommentNotFound), w)
  | Some existing =>
      time_of existing ≤ clock w →
      run.1 = Return (response true)
      ∧ steady run.2
      ∧ (commentCache run.2).*1 = (commentCache w).*1
      ∧ unread_total run.2
        = Some (sumUnread (commentCache w).*2 - unreadOf existing)
      ∧ ∃ e, Map_get (getCommentKey t c) (commentCache run.2) = Some e
             ∧ persisted run.2 e = Some e
             ∧ unreadCount e = Js.Val 0
             ∧ resCount e = match fetched with
                            | Return (Some n) => Js.Val n
                            | _ => resCount existing
                            end
  end.
Proof.
  intros [Ho Hb] Ht Hc. cbv zeta. unfold handleClearUnread.
  rewrite Ht, Hc. cbn [negb]. rewrite bind_run. cbn [getCommentFromCache gets].
  set (key := getCommentKey t c).
  destruct (Map_get key (commentCache w)) as [existing|] eqn:Hex; [|done].
  intros Htime.
  destruct (orderly_tracked w key Ho) as (prev & u & Hprev & Hkey & Hu & Hpos & Hst).
  { apply list_elem_of_fmap. exists (key, existing).
    split; [done | by apply Map_get_elem]. }
  rewrite Hex in Hprev. injection Hprev as <-.
  destruct Hst as [te Hte].
  assert (time_of existing = te) as Htime_of by (unfold time_of; by rewrite Hte).
  rewrite bind_run.
  destruct (fetchResCountForComment_run t c w)
    as (res & w1 & -> & Hs & Htot & Hcache & Hclock & Hf & _).
  unfold keeps in *. cbn [fst]. rewrite bind_run. cbn [Date_now gets].
  rewrite (unreadOf_counted existing u) by done.
  set (upd := with_unread_cleared res (Js.Instant (clock w1)) existing).
  assert (orderly w1) as Ho1 by by apply (orderly_ext w).
  assert (key_of upd = key) as Hkupd by (rewrite <- Hkey; done).
  unfold balanced in Hb.
  (* the save, from a world [wA] that is [w1] up to the total *)
  assert (∀ wA, orderly wA → commentCache wA = commentCache w →
            local_comments wA = local_comments w → clock wA = clock w →
            unread_total wA = Some (sumUnread (commentCache w).*2 - u) →
            let run := (saved ← saveComment upd;
                        mret (response (bool_decide (is_Some saved)))) wA in
            run.1 = Return (response true) ∧ steady run.2
            ∧ (commentCache run.2).*1 = (commentCache w).*1
            ∧ unread_total run.2 = Some (sumUnread (commentCache w).*2 - u)
            ∧ ∃ e, Map_get key (commentCache run.2) = Some e
                   ∧ persisted run.2 e = Some e
                   ∧ unreadCount e = Js.Val 0
                   ∧ resCount e = match res with
                                  | Some n => Js.Val n
                                  | None => resCount existing
                                  end) as Hsave.
  { intros wA HoA HcA HsA HclockA HtA. cbv zeta.
    assert (Map_get (key_of upd) (commentCache wA) = Some existing) as Hold
      by by rewrite Hkupd, HcA.
    assert (persisted wA upd = Some existing) as Hpers.
    { unfold persisted. change (topicId upd) with (topicId existing).
      change (commentNumber upd) with (commentNumber existing).
      rewrite <- storageKeyOf_getCommentKey. fold (key_of existing).
      rewrite Hkey, HsA. destruct Ho as (_ & _ & _ & _ & [_ Hm]).
      by rewrite <- Hm. }
    rewrite bind_run, saveComment_tracked;
      [|apply HoA|apply HoA|].
    2: { rewrite Hkupd, HcA. apply list_elem_of_fmap. exists (key, existing).
         split; [done | by apply Map_get_elem]. }
    rewrite Hpers, (existing_is_newer_instants _ _ (clock w1) te) by done.
    rewrite bool_decide_eq_false_2 by lia.
    destruct (orderly_replaced wA existing upd HoA Hold)
      as (Ho2 & Hsum2 & Ht2 & Hc2 & Hkeys); [by exists 0|].
    cbn [mret M_ret fst snd]. split; [done|].
    rewrite (unreadOf_counted existing u), (unreadOf_counted upd 0) in Hsum2
      by done.
    split; [|split; [by rewrite Hkeys, HcA|split; [by rewrite Ht2|]]].
    - split; [done|]. unfold balanced. rewrite Ht2, HtA, Hsum2, HcA. f_equal. lia.
    - exists (written_record wA upd (clock wA)).
      split; [|split; [|split; [done|by destruct res]]].
      + rewrite Hc2, Map_get_Map_set, Hkupd. by rewrite decide_True.
      + apply (persisted_written_world wA wA upd). }
  destruct (Z.ltb_spec 0 u) as [Hlt|Hle].
  - rewrite bind_run, adjustUnread_healthy; [|apply Ho1|lia].
    assert (u ≤ sumUnread (commentCache w).*2) as Hbound.
    { pose proof (sumUnread_Map_delete key existing (commentCache w) Hex) as Hdel.
      rewrite (unreadOf_counted existing u) in Hdel by done.
      assert (0 ≤ sumUnread (Map_delete key (commentCache w)).*2); [|lia].
      apply sumUnread_nonneg. rewrite Map_delete_filter by apply Ho.
      apply Forall_counted_filter, Ho. }
    apply Hsave; [|done..|].
    + by apply (orderly_ext _ _ eq_refl eq_refl eq_refl) in Ho1.
    + cbn [unread_total log with_unread_total]. rewrite Htot, Hb.
      unfold from_option, id. f_equal. lia.
  - rewrite bind_run. cbn [mret M_ret].
    apply Hsave; [done..|]. rewrite Htot, Hb. f_equal. lia.
Qed.

Lemma clear_unread_keeps_steady_witness :
  steady (handleClearUnread adjustUnread "12345" "501" sample_world).2
  ∧ unread_total (handleClearUnread adjustUnread "12345" "501" sample_world).2
    = Some 0.
Proof.
  pose proof (clear_unread_keeps_steady "12345" "501" sample_world
                sample_world_steady eq_refl eq_refl) as H.
  cbv zeta in H.
  change (Map_get (getCommentKey "12345" "501") (commentCache sample_world))
    with (Some sample_entry) in H.
  destruct H as (_ & Hst & _ & Ht & _).
  { vm_compute. discriminate. }
  split; [exact Hst | exact Ht].
Defined.

Lemma sum_without_entry (k : string) (e : CommentEntry)
    (m : list (string * CommentEntry)) :
  NoDup m.*1 → Forall counted m.*2 → Map_get k m = Some e →
  unreadOf e ≤ sumUnread m.*2.
Proof.
  intros Hnd Hcounted He.
  pose proof (sumUnread_Map_delete k e m He) as Hdel.
  assert (0 ≤ sumUnread (Map_delete k m).*2); [|lia].
  apply sumUnread_nonneg. rewrite Map_delete_filter by done.
  by apply Forall_counted_filter.
Qed.

(** X15: [upsert-comment] on a core in its steady state.  The record to
    save is the existing record of the comment, if there is one, with the
    properties of the entry laid over it: a field the entry does not have
    keeps its existing value.  When the identifiers are valid, the unread
    count of that record is a number and not negative, the cache has room
    for it and no tracked record of the comment is dated after the clock,
    the answer is [{ ok: true }]; the record is then in the cache and in
    the store with the next version and the time of the write; the unread
    total has moved by the difference between the new unread count and
    the one the comment had, and the core is in its steady state. *)
Theorem upsert_comment_keeps_steady (entry : EntryObject) (w : World) :
  let existing :=
    Map_get (getCommentKey (own_topicId entry) (own_commentNumber entry))
      (commentCache w) in
  let toSave := merged existing entry (Js.Instant (clock w)) in
  steady w →
  validateTopicId (own_topicId entry) = true →
  validateCommentNumber (own_commentNumber entry) = true →
  counted toSave →
  (length (Map_set (key_of toSave) toSave (commentCache w))
   ≤ COMMENT_ENTRY_CONFIG.MAX_ENTRIES)%nat →
  (∀ e, existing = Some e → time_of e ≤ clock w) →
  let run := handleUpsertComment adjustUnread entry w in
  let previous := default 0 (unreadOf <$> existing) in
  let record :=
    with_version_updatedAt (prior_version w toSave + 1) (Js.Instant (clock w))
      toSave in
  run.1 = Return (response true)
  ∧ steady run.2
  ∧ unread_total run.2
    = Some (sumUnread (commentCache w).*2 - previous + unreadOf toSave)
  ∧ commentCache run.2 = Map_set (key_of toSave) record (commentCache w)
  ∧ Map_get (key_of toSave) (commentCache run.2) = Some record
  ∧ persisted run.2 toSave = Some record
  ∧ resCount record
    = default (default Js.Undefined (resCount <$> existing)) (own_resCount entry)
  ∧ unreadCount record
    = default (default Js.Undefined (unreadCount <$> existing))
        (own_unreadCount entry)
  ∧ postedAt record
    = default (default Js.NoDate (postedAt <$> existing)) (own_postedAt entry).
Proof.
  cbv zeta. intros [Ho Hb] Ht Hc (u & Hu & Hpos) Hcap Htime.
  unfold handleUpsertComment. rewrite Ht, Hc. cbn [negb].
  rewrite bind_run. cbn [getCommentFromCache gets].
  rewrite bind_run. cbn [Date_now gets].
  set (k := getCommentKey (own_topicId entry) (own_commentNumber entry)) in *.
  set (existing := Map_get k (commentCache w)) in *.
  set (toSave := merged existing entry (Js.Instant (clock w))) in *.
  assert (key_of toSave = k) as Hk by done.
  rewrite Hk in *.
  assert (unreadOf toSave = u) as HuS by by apply unreadOf_counted.
  rewrite HuS.
  set (previous := default 0 (unreadOf <$> existing)).
  unfold balanced in Hb.
  pose proof (sumUnread_nonneg _ (proj1 (proj2 (proj2 (proj2 Ho))))) as Hnonneg.
  assert (0 ≤ previous ≤ sumUnread (commentCache w).*2) as Hprev.
  { subst previous. destruct existing as [ex|] eqn:Hex; [|cbn; lia].
    cbn [fmap option_fmap option_map]. unfold from_option, id.
    destruct (orderly_tracked w k Ho)
      as (ex' & u' & Hex' & _ & Hu' & Hpos' & _).
    { apply list_elem_of_fmap. exists (k, ex).
      split; [done | by apply Map_get_elem]. }
    fold existing in Hex'. rewrite Hex in Hex'. injection Hex' as <-.
    split; [by rewrite (unreadOf_counted ex u')|].
    apply (sum_without_entry k); [apply Ho | apply Ho | done]. }
  set (record := with_version_updatedAt (prior_version w toSave + 1)
                   (Js.Instant (clock w)) toSave).
  assert (∀ wA, orderly wA → commentCache wA = commentCache w →
            local_comments wA = local_comments w → clock wA = clock w →
            unread_total wA
            = Some (sumUnread (commentCache w).*2 - previous + u) →
            let run := (saved ← saveComment toSave;
                        mret (response (bool_decide (is_Some saved)))) wA in
            run.1 = Return (response true) ∧ steady run.2
            ∧ unread_total run.2
              = Some (sumUnread (commentCache w).*2 - previous + u)
            ∧ commentCache run.2 = Map_set k record (commentCache w)
            ∧ Map_get k (commentCache run.2) = Some record
            ∧ persisted run.2 toSave = Some record) as Hsave.
  { intros wA HoA HcA HsA HclockA HtA. cbv zeta.
    assert (persisted wA toSave = existing) as Hpers.
    { unfold persisted. change (topicId toSave) with (own_topicId entry).
      change (commentNumber toSave) with (own_commentNumber entry).
      rewrite <- storageKeyOf_getCommentKey. fold k.
      rewrite HsA. destruct Ho as (_ & _ & _ & _ & [_ Hm]).
      by rewrite <- Hm. }
    assert (written_record wA toSave (clock wA) = record) as Hrecord.
    { subst record. unfold written_record, prior_version.
      rewrite Hpers, HclockA.
      unfold persisted. change (topicId toSave) with (own_topicId entry).
      change (commentNumber toSave) with (own_commentNumber entry).
      rewrite <- storageKeyOf_getCommentKey.
      fold k. destruct Ho as (_ & _ & _ & _ & [_ Hm]).
      by rewrite <- Hm. }
    assert (existing_is_newer (persisted wA toSave) toSave = false) as Hfresh.
    { rewrite Hpers. destruct existing as [ex|] eqn:Hex; [|done].
      destruct (orderly_tracked w k Ho)
        as (ex' & u' & Hex' & _ & _ & _ & [te Hte]).
      { apply list_elem_of_fmap. exists (k, ex).
        split; [done | by apply Map_get_elem]. }
      fold existing in Hex'. rewrite Hex in Hex'. injection Hex' as <-.
      rewrite (existing_is_newer_instants _ _ (clock w) te) by done.
      apply bool_decide_eq_false_2.
      specialize (Htime ex eq_refl). unfold time_of in Htime.
      rewrite Hte in Htime. cbn in Htime. lia. }
    assert ((length (Map_set (key_of toSave) toSave (commentCache wA))
             ≤ COMMENT_ENTRY_CONFIG.MAX_ENTRIES)%nat) as HcapA.
    { by rewrite HcA, Hk. }
    rewrite bind_run, saveComment_fits by (apply HoA || done).
    rewrite Hfresh.
    destruct (orderly_saved wA toSave HoA) as (Ho2 & Hsum2 & Ht2 & Hc2);
      [by exists u | done |].
    rewrite Hrecord in *. cbn [mret M_ret fst snd]. split; [done|].
    rewrite Hk in *.
    rewrite HcA in Hsum2, Hc2. fold existing in Hsum2. fold previous in Hsum2.
    rewrite HuS in Hsum2.
    split; [|split; [by rewrite Ht2|split; [done|split]]].
    - split; [done|]. unfold balanced. by rewrite Ht2, HtA, Hsum2.
    - rewrite Hc2, Map_get_Map_set. by rewrite decide_True.
    - rewrite <- Hrecord. apply (persisted_written_world wA wA toSave). }
  assert (∀ d, d = u - previous →
            let run := adjustUnread (Js.Int d) w in
            run.1 = Return tt ∧ orderly run.2
            ∧ commentCache run.2 = commentCache w
            ∧ local_comments run.2 = local_comments w
            ∧ clock run.2 = clock w
            ∧ unread_total run.2
              = Some (sumUnread (commentCache w).*2 - previous + u)) as Hadjust.
  { intros d ->. cbv zeta. destruct (decide (u - previous = 0)) as [Hz|Hnz].
    - rewrite Hz. cbn [adjustUnread Js.falsy Z.eqb mret M_ret fst snd].
      split; [done|]. split; [done|]. split; [done|]. split; [done|].
      split; [done|]. rewrite Hb. f_equal. lia.
    - rewrite adjustUnread_healthy by (apply Ho || done). cbn [fst snd].
      split; [done|].
      split; [by apply (orderly_ext _ _ eq_refl eq_refl eq_refl) in Ho|].
      split; [done|]. split; [done|]. split; [done|].
      cbn [unread_total log with_unread_total]. rewrite Hb.
      unfold from_option, id. f_equal. lia. }
  assert (∀ d, d = u - previous →
            let run := (adjustUnread (Js.Int d);;
                        saved ← saveComment toSave;
                        mret (response (bool_decide (is_Some saved)))) w in
            run.1 = Return (response true) ∧ steady run.2
            ∧ unread_total run.2
              = Some (sumUnread (commentCache w).*2 - previous + u)
            ∧ commentCache run.2 = Map_set k record (commentCache w)
            ∧ Map_get k (commentCache run.2) = Some record
            ∧ persisted run.2 toSave = Some record) as Hboth.
  { intros d Hd. cbv zeta. rewrite bind_run.
    destruct (Hadjust d Hd) as (Hr & HoA & HcA & HsA & HclockA & HtA).
    destruct (adjustUnread (Js.Int d) w) as [res wA]. cbn [fst snd] in *.
    subst res. by apply Hsave. }
  assert (∀ run : Completion MessageResponse * World,
            run.1 = Return (response true) ∧ steady run.2
            ∧ unread_total run.2
              = Some (sumUnread (commentCache w).*2 - previous + u)
            ∧ commentCache run.2 = Map_set k record (commentCache w)
            ∧ Map_get k (commentCache run.2) = Some record
            ∧ persisted run.2 toSave = Some record →
            run.1 = Return (response true) ∧ steady run.2
            ∧ unread_total run.2
              = Some (sumUnread (commentCache w).*2 - previous + u)
            ∧ commentCache run.2 = Map_set k record (commentCache w)
            ∧ Map_get k (commentCache run.2) = Some record
            ∧ persisted run.2 toSave = Some record
            ∧ resCount record
              = default (default Js.Undefined (resCount <$> existing))
                  (own_resCount entry)
            ∧ unreadCount record
              = default (default Js.Undefined (unreadCount <$> existing))
                  (own_unreadCount entry)
            ∧ postedAt record
              = default (default Js.NoDate (postedAt <$> existing))
                  (own_postedAt entry)) as Hfields.
  { intros run (?&?&?&?&?&?). by repeat (split; [done|]). }
  apply Hfields. clear Hfields.
  subst previous. destruct existing as [ex|] eqn:Hex.
  - cbn [fmap option_fmap option_map] in *. unfold from_option, id in *.
    apply Hboth. lia.
  - cbn in Hboth |- *. apply Hboth. lia.
Qed.

Lemma upsert_comment_keeps_steady_witness :
  let patched := handleUpsertComment adjustUnread sample_patch sample_world in
  let added :=
    handleUpsertComment adjustUnread (object_of newcomer) sample_world in
  (steady patched.2
   ∧ unread_total patched.2 = Some 2
   ∧ counters (persisted patched.2 sample_entry) = Some (Js.Val 5, Js.Val 2))
  ∧ (steady added.2
     ∧ unread_total added.2 = Some 5
     ∧ counters (persisted added.2 newcomer) = Some (Js.Val 0, Js.Val 0)).
Proof.
  intros patched added. split.
  - destruct (upsert_comment_keeps_steady sample_patch sample_world
                sample_world_steady eq_refl eq_refl)
      as (_ & Hst & Ht & _ & _ & Hp & _).
    + by exists 2.
    + vm_compute. lia.
    + intros e [= <-]. vm_compute. discriminate.
    + split; [exact Hst|]. split; [exact Ht|].
      exact (f_equal counters Hp).
  - destruct (upsert_comment_keeps_steady (object_of newcomer) sample_world
                sample_world_steady eq_refl eq_refl)
      as (_ & Hst & Ht & _ & _ & Hp & _).
    + by exists 0.
    + vm_compute. lia.
    + intros e Hex. vm_compute in Hex. discriminate Hex.
    + split; [exact Hst|]. split; [exact Ht|].
      exact (f_equal counters Hp).
Defined.
(** ** What every operation preserves *)

Section Preservation.
Context (R : relation World) `{!PreOrder R}.
Hypothesis R_call : ∀ w, R w (after_call w).
Hypothesis R_sleep : ∀ w ms, 0 ≤ ms → R w (with_clock (clock w + ms) w).
Hypothesis R_log : ∀ w e, is_fetch e = false → R w (log e w).
Hypothesis R_store : ∀ w m, R w (with_local_comments m w).
Hypothesis R_cache : ∀ w c, R w (with_commentCache c w).
Hypothesis R_total : ∀ w n, 0 ≤ n → R w (with_unread_total (Some n) w).

Lemma kept_by_storage_call : respects R storage_call.
Proof. intros w. apply R_call. Qed.

Lemma kept_by_sleep (ms : Z) : 0 ≤ ms → respects R (sleep ms).
Proof. intros Hms. unfold sleep. frame. by apply R_sleep. Qed.

Lemma kept_by_storage_getItem (key : string) : respects R (storage_getItem key).
Proof. unfold storage_getItem. frame. apply kept_by_storage_call. Qed.

Lemma kept_by_storage_setItem (key : string) (e : CommentEntry) :
  respects R (storage_setItem key e).
Proof.
  unfold storage_setItem. frame; [apply kept_by_storage_call|].
  etrans; [apply R_store | by apply R_log].
Qed.

Lemma kept_by_storage_removeItem (key : string) :
  respects R (storage_removeItem key).
Proof.
  unfold storage_removeItem. frame; [apply kept_by_storage_call|].
  etrans; [apply R_store | by apply R_log].
Qed.

Lemma kept_by_crawlerEnabled : respects R crawlerEnabled.
Proof.
  unfold crawlerEnabled, storage_getItem_CRAWLER_ENABLED. frame.
  apply kept_by_storage_call.
Qed.

Lemma kept_by_afterEntry : respects R afterEntry.
Proof.
  unfold afterEntry. frame; [by apply kept_by_sleep | apply kept_by_crawlerEnabled].
Qed.

Lemma kept_by_saveAttempt (entry : CommentEntry) : respects R (saveAttempt entry).
Proof.
  unfold saveAttempt, Date_now. frame;
    eauto using kept_by_storage_getItem, kept_by_storage_setItem.
Qed.

Lemma kept_by_saveRetryLoop (entry : CommentEntry) (maxRetries remaining : nat) :
  respects R (saveRetryLoop entry maxRetries remaining).
Proof.
  induction remaining as [|remaining IH]; cbn [saveRetryLoop]; frame;
    eauto using kept_by_saveAttempt.
  apply kept_by_sleep. unfold OPTIMISTIC_LOCK.INITIAL_BACKOFF_MS.
  apply Z.mul_nonneg_nonneg; [lia | apply Z.pow_nonneg; lia].
Qed.

Lemma kept_by_saveCommentWithOptimisticLock (entry : CommentEntry)
    (maxRetries : nat) :
  respects R (saveCommentWithOptimisticLock entry maxRetries).
Proof.
  unfold saveCommentWithOptimisticLock, saveCommentWithOptimisticLock_outcome.
  frame. apply kept_by_saveRetryLoop.
Qed.

Lemma kept_by_deleteComment (t c : string) : respects R (deleteComment t c).
Proof.
  unfold deleteComment, deleteCommentFromStorage. frame;
    eauto using kept_by_storage_removeItem.
Qed.

Lemma kept_by_enforceMaxEntries : respects R enforceMaxEntries.
Proof.
  unfold enforceMaxEntries, getAllCommentsFromCache. frame.
  apply kept_by_deleteComment.
Qed.

Lemma kept_by_saveComment (entry : CommentEntry) : respects R (saveComment entry).
Proof.
  unfold saveComment. frame;
    eauto using kept_by_saveCommentWithOptimisticLock,
      kept_by_storage_getItem, kept_by_enforceMaxEntries.
Qed.

Lemma kept_by_setUnreadTotal (value : Z) : respects R (setUnreadTotal value).
Proof.
  unfold setUnreadTotal, storage_setItem_UNREAD_TOTAL.
  frame; [apply kept_by_storage_call|].
  etrans; [apply (R_total _ (Z.max 0 value)); lia | by apply R_log].
Qed.

Lemma kept_by_adjustUnread (delta : Js.Num) : respects R (adjustUnread delta).
Proof.
  unfold adjustUnread, getUnreadTotal, storage_getItem_UNREAD_TOTAL.
  frame; try apply kept_by_storage_call. apply kept_by_setUnreadTotal.
Qed.

Lemma kept_by_saveAndAdjust (upd : CommentEntry) (delta : Js.Num) :
  respects R (saveAndAdjust saveComment adjustUnread upd delta).
Proof.
  unfold saveAndAdjust. frame;
    eauto using kept_by_saveComment, kept_by_adjustUnread.
Qed.

Lemma kept_by_recomputeBadge : respects R recomputeBadge.
Proof.
  unfold recomputeBadge, getAllCommentsFromCache. frame.
  apply kept_by_setUnreadTotal.
Qed.

Lemma kept_by_loadCacheFromStorage enumerate :
  respects R (loadCacheFromStorage enumerate).
Proof.
  unfold loadCacheFromStorage, loadAllCommentsFromStorage,
    browser_storage_local_get. frame; try apply R_cache.
  apply kept_by_storage_call.
Qed.

(** The functions that ask the site and start cycles. *)

Hypothesis R_log_fetch : ∀ w url, R w (log (EvFetch url) w).
Hypothesis R_remote : ∀ w r, R w (with_remote r w).
Hypothesis R_flag : ∀ w b, R w (with_isCrawling b w).

Lemma kept_by_fetchResCountForComment (t c : string) :
  respects R (fetchResCountForComment t c).
Proof.
  unfold fetchResCountForComment. frame.
  intros w. unfold fetch_and_parse.
  destruct (remote (log _ w)) eqn:Hr; simpl.
  - apply R_log_fetch.
  - etrans; [apply R_log_fetch | apply R_remote].
Qed.

Lemma kept_by_crawlLoop (l : list CommentEntry) (n : Z) :
  respects R (crawlLoop getCommentFromCache saveComment adjustUnread l n).
Proof.
  revert n. induction l as [|c l IH]; intros n; cbn [crawlLoop]; frame; [|done].
  unfold crawlIteration. frame;
    eauto using kept_by_crawlerEnabled, kept_by_afterEntry.
  unfold crawlEntry, getCommentFromCache, Date_now. frame;
    eauto using kept_by_fetchResCountForComment, kept_by_saveAndAdjust.
Qed.

Lemma kept_by_crawlCommentsOnce (l : list CommentEntry) :
  respects R (crawlCommentsOnce l getCommentFromCache saveComment adjustUnread).
Proof.
  intros w. unfold crawlCommentsOnce. destruct (isCrawling w); [reflexivity|].
  set (body := try_catch _ _).
  assert (respects R body) as Hbody.
  { subst body. frame. apply kept_by_crawlLoop. }
  specialize (Hbody (with_isCrawling true w)).
  destruct (body (with_isCrawling true w)) as [r w2]. cbn [snd] in *.
  etrans; [apply R_flag|]. etrans; [exact Hbody | apply R_flag].
Qed.

Lemma kept_by_crawlCycle : respects R crawlCycle.
Proof.
  unfold crawlCycle, getAllCommentsFromCache. frame.
  apply kept_by_crawlCommentsOnce.
Qed.

Lemma kept_by_routeMessage (message : MessageRequest) :
  respects R (routeMessage message adjustUnread).
Proof.
  unfold routeMessage. frame. destruct message.
  - unfold handleCrawlNow, getAllCommentsFromCache. frame.
    apply kept_by_crawlCommentsOnce.
  - destruct entry as [entry|]; [|frame].
    unfold handleUpsertComment, getCommentFromCache, Date_now. frame;
      eauto using kept_by_adjustUnread, kept_by_saveComment.
  - unfold handleRemoveComment, getCommentFromCache. frame;
      eauto using kept_by_adjustUnread, kept_by_deleteComment.
  - unfold handleRemoveTopic, getAllCommentsFromCache. frame;
      eauto using kept_by_adjustUnread, kept_by_deleteComment.
  - unfold handleClearUnread, getCommentFromCache, Date_now. frame;
      eauto using kept_by_adjustUnread, kept_by_saveComment,
        kept_by_fetchResCountForComment.
  - unfold handleGetAllComments, getAllCommentsFromCache. frame.
Qed.

End Preservation.

#[global] Instance total_stays_natural_preorder : PreOrder total_stays_natural.
Proof.
  split.
  - intros w. by left.
  - intros w1 w2 w3 [H12|(n & H12 & Hn)] [H23|(m & H23 & Hm)].
    + left. congruence.
    + right. by exists m.
    + right. exists n. split; [congruence | done].
    + right. by exists m.
Qed.

(** X16: the unread total never becomes negative: whatever a message of
    the modelled kinds, a crawl cycle, a recomputation of the badge or the
    loading of the cache does, and whichever storage calls fail, the
    stored total afterwards is the one before or a number that is not
    negative. *)
Theorem unread_total_stays_natural (w : World) :
  (∀ message, total_stays_natural w (routeMessage message adjustUnread w).2)
  ∧ total_stays_natural w (crawlCycle w).2
  ∧ total_stays_natural w (recomputeBadge w).2
  ∧ (∀ delta, total_stays_natural w (adjustUnread delta w).2)
  ∧ (∀ enumerate, total_stays_natural w (loadCacheFromStorage enumerate w).2).
Proof.
  assert (∀ A (m : M A),
    (∀ R, PreOrder R →
       (∀ w, R w (after_call w)) →
       (∀ w ms, 0 ≤ ms → R w (with_clock (clock w + ms) w)) →
       (∀ w e, is_fetch e = false → R w (log e w)) →
       (∀ w m, R w (with_local_comments m w)) →
       (∀ w c, R w (with_commentCache c w)) →
       (∀ w n, 0 ≤ n → R w (with_unread_total (Some n) w)) →
       (∀ w url, R w (log (EvFetch url) w)) →
       (∀ w r, R w (with_remote r w)) → (∀ w b, R w (with_isCrawling b w)) →
       respects R m) →
    total_stays_natural w (m w).2) as Huse.
  { intros A m Hm. apply Hm; try apply _; try (by intros; left).
    intros w0 n Hn. right. by exists n. }
  split; [|split; [|split; [|split]]].
  - intros message. apply Huse. intros. by apply kept_by_routeMessage.
  - apply Huse. intros. by apply kept_by_crawlCycle.
  - apply Huse. intros. by apply kept_by_recomputeBadge.
  - intros delta. apply Huse. intros. by apply kept_by_adjustUnread.
  - intros enumerate. apply Huse. intros. by apply kept_by_loadCacheFromStorage.
Qed.

(** ** The unread total follows the store *)

#[global] Instance stays_healthy_preorder : PreOrder stays_healthy.
Proof.
  split.
  - intros w Hw. exact Hw.
  - intros w1 w2 w3 H12 H23 H1. apply H23, H12, H1.
Qed.




(** ** Loading the cache and recomputing the badge *)

Lemma String_split_cons (sep c : ascii) (r : string) :
  String_split sep (String c r) =
  if decide (c = sep) then EmptyString :: String_split sep r
  else match String_split sep r with
       | part :: parts => String c part :: parts
       | [] => [String c EmptyString]
       end.
Proof. reflexivity. Qed.

Lemma split_digits (t rest : string) :
  all_digits t = true →
  String_split ":" (t +:+ ":" +:+ rest) = t :: String_split ":" rest.
Proof.
  induction t as [|a t IH]; rewrite ?append_String, ?append_empty.
  { intros _. rewrite String_split_cons. by rewrite decide_True. }
  rewrite ?append_String, ?append_empty in IH.
  cbn [all_digits]. intros [Ha Ht]%andb_true_iff.
  rewrite String_split_cons, decide_False by by apply is_digit_char.
  by rewrite IH.
Qed.

Lemma split_no_separator (c : string) :
  all_digits c = true → String_split ":" c = [c].
Proof.
  induction c as [|a c IH]; [done|].
  cbn [all_digits]. intros [Ha Hc]%andb_true_iff.
  rewrite String_split_cons, decide_False by by apply is_digit_char.
  by rewrite IH.
Qed.

Lemma prefix_append (p s : string) : String.prefix p (p +:+ s) = true.
Proof.
  induction p as [|a p IH]; [by destruct s|].
  rewrite append_String. cbn [String.prefix].
  by destruct (Ascii.ascii_dec a a).
Qed.

Lemma String_replace_empty_prefix (p s : string) :
  String_replace_empty p (p +:+ s) = String_slice (String.length p) (p +:+ s).
Proof.
  pose proof (prefix_append p s) as Hp.
  destruct (p +:+ s)%string; cbn [String_replace_empty]; by rewrite Hp.
Qed.

Lemma is_comment_item_valid (t c : string) :
  validateTopicId t = true → validateCommentNumber c = true →
  is_comment_item (COMMENT_PREFIX +:+ t +:+ ":" +:+ c) = true.
Proof.
  intros Ht%validateTopicId_digits Hc%validateTopicId_digits.
  unfold is_comment_item.
  rewrite prefix_append, String_replace_empty_prefix.
  change (String_slice (String.length COMMENT_PREFIX)
            (COMMENT_PREFIX +:+ t +:+ ":" +:+ c))
    with (t +:+ ":" +:+ c)%string.
  by rewrite split_digits, split_no_separator.
Qed.

(** What [loadAllCommentsFromStorage] keeps of a store whose records sit
    under their own keys: every record. *)
Lemma loaded_items (l : list (string * CommentEntry)) :
  Forall (λ kv, kv.1 = getStorageKey (topicId kv.2) (commentNumber kv.2)
                ∧ validateTopicId (topicId kv.2) = true
                ∧ validateCommentNumber (commentNumber kv.2) = true) l →
  (filter (λ kv : string * CommentEntry, is_comment_item kv.1 = true)
     (omap (λ kv : string * CommentEntry,
              if String.prefix "local:" kv.1
              then Some (String_slice 6 kv.1, kv.2) else None) l)).*2
  = l.*2.
Proof.
  induction 1 as [|[k e] l (Hk & Ht & Hc) _ IH]; [done|].
  cbn [fst snd] in *. subst k. cbn [omap list_omap fst snd].
  unfold getStorageKey at 1. rewrite prefix_append.
  change (String_slice 6 (getStorageKey (topicId e) (commentNumber e)))
    with (COMMENT_PREFIX +:+ topicId e +:+ ":" +:+ commentNumber e)%string.
  rewrite filter_cons_True by by apply is_comment_item_valid.
  cbn [fmap list_fmap snd]. f_equal. exact IH.
Qed.

Lemma with_commentCache_same (w : World) : with_commentCache (commentCache w) w = w.
Proof. by destruct w. Qed.

Lemma for_each_Map_set (l : list CommentEntry) (w : World) :
  for_each
    (λ comment,
       let cacheKey := getCommentKey (topicId comment) (commentNumber comment) in
       modify (λ w, with_commentCache (Map_set cacheKey comment (commentCache w)) w))
    l w
  = (Return tt,
     with_commentCache
       (foldl (λ c e, Map_set (key_of e) e c) (commentCache w) l) w).
Proof.
  revert w. induction l as [|x l IH]; intros w.
  { cbn. by rewrite with_commentCache_same. }
  cbn [for_each foldl]. rewrite bind_run. cbn [modify]. by rewrite IH.
Qed.

Lemma loadCacheFromStorage_run enumerate (w : World) :
  loadCacheFromStorage enumerate w =
  (Return tt,
   with_commentCache
     (if call_fails w then []
      else foldl (λ c e, Map_set (key_of e) e c) []
             (filter (λ kv : string * CommentEntry, is_comment_item kv.1 = true)
                (omap (λ kv : string * CommentEntry,
                         if String.prefix "local:" kv.1
                         then Some (String_slice 6 kv.1, kv.2) else None)
                   (enumerate (local_comments w)))).*2)
     (after_call w)).
Proof.
  unfold loadCacheFromStorage, loadAllCommentsFromStorage,
    browser_storage_local_get, try_catch.
  rewrite !bind_run. cbn [modify]. rewrite !bind_run, storage_call_run.
  change (call_fails (with_commentCache [] w)) with (call_fails w).
  destruct (call_fails w).
  - done.
  - cbn [gets mret M_ret]. rewrite for_each_Map_set. done.
Qed.

Lemma Map_set_fresh (k : string) (v : CommentEntry)
    (m : list (string * CommentEntry)) :
  k ∉ m.*1 → Map_set k v m = m ++ [(k, v)].
Proof.
  induction m as [|[k0 v0] m IH]; [done|].
  cbn [fmap list_fmap fst Map_set]. intros [Hne Hin]%not_elem_of_cons.
  rewrite decide_False by done. by rewrite IH.
Qed.

Lemma foldl_Map_set_fresh (l : list CommentEntry)
    (acc : list (string * CommentEntry)) :
  NoDup (acc.*1 ++ (key_of <$> l)) →
  foldl (λ c e, Map_set (key_of e) e c) acc l
  = acc ++ ((λ e, (key_of e, e)) <$> l).
Proof.
  revert acc. induction l as [|x l IH]; intros acc Hnd.
  { cbn. by rewrite app_nil_r. }
  cbn [foldl fmap list_fmap] in *.
  apply NoDup_app in Hnd as (Hacc & Hdisj & [Hx Hl]%NoDup_cons).
  rewrite Map_set_fresh.
  2: { intros Hin. apply (Hdisj _ Hin), elem_of_cons. by left. }
  rewrite IH.
  - by rewrite <- app_assoc.
  - rewrite fmap_app. cbn [fmap list_fmap fst]. rewrite <- app_assoc.
    apply NoDup_app. split; [done|]. split.
    + intros k Hk. by apply Hdisj.
    + by apply NoDup_cons.
Qed.

(** The cache that the loader builds from a store whose records sit under
    their own keys. *)
Lemma loaded_cache_mirrors (l : list (string * CommentEntry))
    (m : gmap string CommentEntry) :
  l ≡ₚ map_to_list m → keyed m →
  let cache := foldl (λ c e, Map_set (key_of e) e c) [] l.*2 in
  cache = (λ e, (key_of e, e)) <$> l.*2
  ∧ NoDup cache.*1
  ∧ ∀ k, Map_get k cache = m !! storageKeyOf k.
Proof.
  intros Hperm Hkeyed. cbv zeta.
  assert (∀ k e, (k, e) ∈ l ↔ m !! k = Some e) as Hin.
  { intros k e. rewrite Hperm. apply elem_of_map_to_list. }
  assert (l.*1 = storageKeyOf <$> (key_of <$> l.*2)) as Hkeys.
  { rewrite <- !list_fmap_compose. apply list_fmap_ext.
    intros i [k e] Hi. cbn. apply list_elem_of_lookup_2, Hin, Hkeyed in Hi.
    by destruct Hi as [-> _]. }
  assert (NoDup (key_of <$> l.*2)) as Hnd.
  { apply (NoDup_fmap_1 storageKeyOf). rewrite <- Hkeys, Hperm.
    apply NoDup_fst_map_to_list. }
  assert (foldl (λ c e, Map_set (key_of e) e c) [] l.*2
          = (λ e, (key_of e, e)) <$> l.*2) as Hcache.
  { by rewrite foldl_Map_set_fresh. }
  rewrite Hcache. split; [done|].
  assert (((λ e, (key_of e, e)) <$> l.*2).*1 = key_of <$> l.*2) as Hfst.
  { rewrite <- list_fmap_compose. done. }
  split; [by rewrite Hfst|].
  intros k. destruct (m !! storageKeyOf k) as [e|] eqn:Hm.
  - apply Map_get_of_elem; [by rewrite Hfst|].
    destruct (Hkeyed _ _ Hm) as [Hk _].
    rewrite <- storageKeyOf_getCommentKey in Hk. apply storageKeyOf_inj in Hk.
    subst k. apply list_elem_of_fmap. exists e. split; [done|].
    apply list_elem_of_fmap. exists (storageKeyOf (key_of e), e).
    split; [done | by apply Hin].
  - apply Map_get_None. rewrite Hfst.
    intros (e & -> & ([k0 e'] & -> & Hl)%list_elem_of_fmap)%list_elem_of_fmap.
    cbn [snd] in *. apply Hin in Hl. destruct (Hkeyed _ _ Hl) as [-> _].
    rewrite <- storageKeyOf_getCommentKey in Hl. fold (key_of e') in Hl.
    congruence.
Qed.

Lemma keyed_items (l : list (string * CommentEntry))
    (m : gmap string CommentEntry) :
  l ≡ₚ map_to_list m → keyed m →
  Forall (λ kv, kv.1 = getStorageKey (topicId kv.2) (commentNumber kv.2)
                ∧ validateTopicId (topicId kv.2) = true
                ∧ validateCommentNumber (commentNumber kv.2) = true) l.
Proof.
  intros Hperm Hkeyed. apply Forall_forall. intros [k e] Hin.
  rewrite Hperm in Hin. apply elem_of_map_to_list in Hin. by apply Hkeyed.
Qed.

(** X17: loading the cache never throws and touches neither the store nor
    the unread total.  When the storage call fails the cache is left
    empty.  Otherwise, for a store whose records sit under the keys of
    their own valid identifiers, the cache holds every record of the store
    under its cache key, in the order in which the browser lists the
    items, and mirrors the store. *)
Theorem loadCacheFromStorage_mirrors_store enumerate (w : World) :
  (∀ m, enumerate m ≡ₚ map_to_list m) →
  let run := loadCacheFromStorage enumerate w in
  run.1 = Return tt
  ∧ local_comments run.2 = local_comments w
  ∧ unread_total run.2 = unread_total w
  ∧ (call_fails w = true → commentCache run.2 = [])
  ∧ (call_fails w = false → keyed (local_comments w) →
     commentCache run.2
       = (λ e, (key_of e, e)) <$> (enumerate (local_comments w)).*2
     ∧ mirrors run.2).
Proof.
  intros Henum. cbv zeta. rewrite loadCacheFromStorage_run. cbn [fst snd].
  split; [done|]. split; [done|]. split; [done|]. split.
  { by intros ->. }
  intros -> Hkeyed. cbn [commentCache with_commentCache].
  rewrite loaded_items by by apply (keyed_items _ (local_comments w)).
  destruct (loaded_cache_mirrors _ _ (Henum (local_comments w)) Hkeyed)
    as (Hcache & Hnd & Hm).
  split; [done|]. split; [done|]. exact Hm.
Qed.

Lemma sample_store_keyed : keyed (local_comments sample_world).
Proof.
  intros k e He. cbn [local_comments sample_world] in He.
  apply lookup_singleton_Some in He as [<- <-]. done.
Qed.

Lemma loadCacheFromStorage_mirrors_store_witness :
  mirrors (loadCacheFromStorage map_to_list
             (with_commentCache [] sample_world)).2.
Proof.
  destruct (loadCacheFromStorage_mirrors_store map_to_list
              (with_commentCache [] sample_world)) as (_ & _ & _ & _ & Hload).
  { done. }
  apply Hload; [reflexivity | apply sample_store_keyed].
Defined.

Lemma recomputeBadge_run (w : World) :
  recomputeBadge w =
  (Return tt,
   if call_fails w then after_call w
   else log (EvSetUnreadTotal (Z.max 0 (sumUnread (commentCache w).*2)))
          (with_unread_total (Some (Z.max 0 (sumUnread (commentCache w).*2)))
             (after_call w))).
Proof.
  unfold recomputeBadge, try_catch, getAllCommentsFromCache, setUnreadTotal,
    storage_setItem_UNREAD_TOTAL.
  rewrite !bind_run. cbn [gets]. rewrite !bind_run, storage_call_run.
  by destruct (call_fails w).
Qed.

Lemma recomputeBadge_steady (w : World) : orderly w → steady (recomputeBadge w).2.
Proof.
  intros Ho. rewrite recomputeBadge_run.
  rewrite call_fails_no_faults, after_call_no_faults by apply Ho. cbn [snd].
  split; [by apply (orderly_ext _ _ eq_refl eq_refl eq_refl) in Ho|].
  unfold balanced. cbn [unread_total log with_unread_total commentCache].
  f_equal. pose proof (sumUnread_nonneg _ (proj1 (proj2 (proj2 (proj2 Ho))))). lia.
Qed.

(** X18: recomputing the badge never throws and touches neither the store
    nor the cache.  When the storage call works, the unread total becomes
    the sum of the unread counts of the cache (a missing count is 0),
    raised to 0 when the sum is negative; when it fails, the total stays.
    On a cache and store in order this makes the books balance. *)
Theorem recomputeBadge_balances (w : World) :
  let run := recomputeBadge w in
  run.1 = Return tt
  ∧ commentCache run.2 = commentCache w
  ∧ local_comments run.2 = local_comments w
  ∧ unread_total run.2
    = (if call_fails w then unread_total w
       else Some (Z.max 0 (sumUnread (commentCache w).*2)))
  ∧ (orderly w → steady run.2).
Proof.
  cbv zeta. split; [by rewrite recomputeBadge_run|].
  split; [by rewrite recomputeBadge_run; destruct (call_fails w)|].
  split; [by rewrite recomputeBadge_run; destruct (call_fails w)|].
  split; [by rewrite recomputeBadge_run; destruct (call_fails w)|].
  apply recomputeBadge_steady.
Qed.

Lemma recomputeBadge_balances_witness :
  steady (recomputeBadge (with_unread_total None sample_world)).2.
Proof.
  apply recomputeBadge_balances.
  apply (orderly_ext sample_world); [done..|]. apply sample_world_steady.
Defined.

(** X19: loading the cache and then recomputing the badge, as the
    start-up of the background script does, brings the core into its
    steady state: from a store whose records sit under the keys of their
    own valid identifiers, each with a stamped [updatedAt] and an unread
    count that is a number and not negative, and not more of them than the
    cache may hold, the two calls (with storage working) leave a cache
    that mirrors the store and an unread total that is the sum of the
    unread counts. *)
Theorem loading_then_recomputing_reaches_steady enumerate (w : World) :
  (∀ m, enumerate m ≡ₚ map_to_list m) →
  healthy w →
  keyed (local_comments w) →
  (∀ k e, local_comments w !! k = Some e → counted e ∧ stamped e) →
  (size (local_comments w) ≤ COMMENT_ENTRY_CONFIG.MAX_ENTRIES)%nat →
  let run := (loadCacheFromStorage enumerate;; recomputeBadge) w in
  run.1 = Return tt
  ∧ steady run.2
  ∧ local_comments run.2 = local_comments w
  ∧ (commentCache run.2).*2 = (enumerate (local_comments w)).*2.
Proof.
  intros Henum Hh Hkeyed Hgood Hsize. cbv zeta.
  rewrite bind_run, loadCacheFromStorage_run.
  rewrite call_fails_no_faults, after_call_no_faults by done.
  rewrite loaded_items by by apply (keyed_items _ (local_comments w)).
  destruct (loaded_cache_mirrors _ _ (Henum (local_comments w)) Hkeyed)
    as (Hcache & Hnd & Hm).
  set (l := enumerate (local_comments w)) in *.
  set (cache := foldl (λ c e, Map_set (key_of e) e c) [] l.*2) in *.
  assert (cache.*2 = l.*2) as Hvalues.
  { rewrite Hcache, <- list_fmap_compose. apply list_fmap_id. }
  assert (∀ e, e ∈ l.*2 → counted e ∧ stamped e) as Hvals.
  { intros e ([k e'] & -> & Hin)%list_elem_of_fmap. subst l.
    rewrite Henum in Hin. apply elem_of_map_to_list in Hin. by apply (Hgood k). }
  assert (orderly (with_commentCache cache w)) as Ho.
  { split; [done|]. cbn [commentCache with_commentCache].
    split; [|split; [|split]].
    - split; [done|]. rewrite Hcache. apply Forall_forall.
      intros kv (e & -> & He)%list_elem_of_fmap. split; [done|]. by apply Hvals.
    - unfold within_capacity. cbn [commentCache with_commentCache].
      rewrite <- (length_fmap snd cache), Hvalues, length_fmap. subst l.
      by rewrite Henum, length_map_to_list.
    - rewrite Hvalues. apply Forall_forall. intros e He. by apply Hvals.
    - split; [done|]. exact Hm. }
  pose proof (recomputeBadge_steady _ Ho) as Hst.
  rewrite recomputeBadge_run in Hst |- *.
  rewrite call_fails_no_faults, after_call_no_faults in Hst |- * by done.
  cbn [fst snd] in *. done.
Qed.

Lemma loading_then_recomputing_reaches_steady_witness :
  steady ((loadCacheFromStorage map_to_list;; recomputeBadge)
            (with_commentCache [] sample_world)).2.
Proof.
  refine (proj1 (proj2 (loading_then_recomputing_reaches_steady map_to_list
                          (with_commentCache [] sample_world) _ _ _ _ _)));
    [done | reflexivity | apply sample_store_keyed | |].
  - intros k e He. cbn [local_comments with_commentCache sample_world] in He.
    apply lookup_singleton_Some in He as [<- <-].
    split; [by exists 5 | by exists 2000].
  - cbn [local_comments with_commentCache sample_world].
    rewrite map_size_singleton. unfold COMMENT_ENTRY_CONFIG.MAX_ENTRIES. lia.
Defined.
(** ** The crawler: requests, pauses and counts *)

Lemma toString_1 : Js.toString 1 = "1"%string.
Proof. reflexivity. Qed.

Lemma first_page (s : string) (n : Z) :
  Js.parseInt s = Some n →
  calculatePageNumber s
  = (if n <=? 500 then "1"%string else Js.toString ((n - 1) / 500 + 1))
  ∧ (calculatePageNumber s = "1"%string ↔ n ≤ 500).
Proof.
  intros Hs. rewrite calculatePageNumber_unfold, Hs.
  destruct (Z.ltb_spec 0 n) as [Hpos|Hneg], (Z.leb_spec n 500) as [Hle|Hgt];
    try lia.
  - assert ((n - 1) / 500 = 0) as -> by (apply Z.div_small; lia).
    split; [done|]. split; [lia | done].
  - split; [done|]. split; [|lia]. rewrite <- toString_1.
    assert (0 ≤ (n - 1) / 500) by (apply Z.div_pos; lia).
    intros Heq%toString_inj; [|lia..].
    assert (1 ≤ (n - 1) / 500); [|lia].
    apply Z.div_le_lower_bound; lia.
  - split; [done|]. split; [lia | done].
Qed.

(** X20: [fetchResCountForComment] asks the site nothing when an
    identifier is not valid, and answers [null].  For valid identifiers
    it makes exactly one request: to [/topics/<topicId>/] for the comments
    up to 500 and to [/topics/<topicId>/<page>/] beyond, [page] being
    [floor((n - 1) / 500) + 1]; it takes the next answer of the site and
    returns its count when there is one that is not negative, [null]
    otherwise; it never throws. *)
Theorem fetch_requests_the_page_of_the_comment (t c : string) (w : World) :
  (validateTopicId t = false ∨ validateCommentNumber c = false →
   fetchResCountForComment t c w = (Return None, w))
  ∧ (∀ n, validateTopicId t = true → validateCommentNumber c = true →
          Js.parseInt c = Some n →
          let run := fetchResCountForComment t c w in
          let page :=
            if n <=? 500 then ""%string
            else (Js.toString ((n - 1) / 500 + 1) +:+ "/")%string in
          let url :=
            (SITE_CONFIG.BASE_URL +:+ "/topics/" +:+ t +:+ "/" +:+ page)%string in
          trace run.2 = EvFetch url :: trace w
          ∧ remote run.2 = tail (remote w)
          ∧ run.1 = Return (match head (remote w) with
                            | Some (Some r) => if 0 <=? r then Some r else None
                            | _ => None
                            end)).
Proof.
  split.
  - unfold fetchResCountForComment. by intros [-> | ->]; rewrite ?orb_true_r.
  - intros n Ht Hc Hn. cbv zeta. unfold fetchResCountForComment.
    rewrite Ht, Hc. cbn [negb orb]. rewrite bind_run.
    destruct (first_page c n Hn) as [Hpage Hfirst].
    assert ((if decide (calculatePageNumber c = "1"%string) then ""%string
             else (calculatePageNumber c +:+ "/")%string)
            = (if n <=? 500 then ""%string
               else (Js.toString ((n - 1) / 500 + 1) +:+ "/")%string)) as ->.
    { destruct (Z.leb_spec n 500) as [Hle|Hgt].
      - rewrite decide_True; [done | by apply Hfirst].
      - rewrite decide_False by (rewrite Hfirst; lia). by rewrite Hpage. }
    unfold fetch_and_parse, buildSafeUrl. cbn [remote log].
    destruct (remote w) as [|[r|] rest] eqn:Hr; cbn [head tail fst snd trace log
      with_remote remote mret M_ret]; rewrite ?Hr;
      [done | by destruct (0 <=? r) | done].
Qed.

Lemma fetch_requests_the_page_of_the_comment_witness :
  trace (fetchResCountForComment "12345" "501" sample_world).2
  = [EvFetch "https://girlschannel.net/topics/12345/2/"].
Proof.
  refine (proj1 (proj2 (fetch_requests_the_page_of_the_comment "12345" "501"
                          sample_world) 501 _ _ _)); reflexivity.
Defined.

Lemma crawlIteration_count get save adjust (comment : CommentEntry) (n : Z)
    (w : World) :
  match (crawlIteration get save adjust comment n w).1 with
  | Return (_, n') => n ≤ n' ≤ n + 1
  | Throw => True
  end.
Proof.
  unfold crawlIteration. rewrite bind_run.
  destruct (crawlerEnabled w) as [[[]|] w1]; cbn [negb fst mret M_ret];
    [|lia|done].
  rewrite bind_run.
  destruct (try_catch _ _ w1) as [[updated|] w2]; [|done].
  rewrite bind_run. destruct (afterEntry w2) as [[continue|] w3]; [|done].
  cbn. destruct updated; lia.
Qed.

Lemma crawlLoop_count get save adjust (l : list CommentEntry) (n : Z)
    (w : World) :
  match (crawlLoop get save adjust l n w).1 with
  | Return n' => n ≤ n' ≤ n + Z.of_nat (length l)
  | Throw => True
  end.
Proof.
  revert n w. induction l as [|comment l IH]; intros n w.
  { cbn. lia. }
  cbn [crawlLoop]. rewrite bind_run.
  pose proof (crawlIteration_count get save adjust comment n w) as Hturn.
  destruct (crawlIteration _ _ _ comment n w) as [[[continue n1]|] w1];
    cbn [fst] in *; [|done].
  destruct continue.
  - specialize (IH n1 w1). destruct (crawlLoop _ _ _ l n1 w1) as [[n2|] w2];
      cbn [fst length] in *; [lia | done].
  - cbn [mret M_ret fst length]. lia.
Qed.

Lemma crawlCommentsOnce_count (commentList : list CommentEntry)
    get save adjust (w : World) :
  ∃ n, (crawlCommentsOnce commentList get save adjust w).1 = Return n
       ∧ 0 ≤ n ≤ Z.of_nat (length commentList).
Proof.
  unfold crawlCommentsOnce. destruct (isCrawling w).
  { exists 0. split; [done | lia]. }
  unfold try_catch. destruct commentList as [|comment l].
  { exists 0. split; [done | cbn; lia]. }
  pose proof (crawlLoop_count get save adjust (comment :: l) 0
                (with_isCrawling true w)) as Hcount.
  destruct (crawlLoop _ _ _ (comment :: l) 0 _) as [[n|] w1]; cbn [fst] in *.
  - exists n. split; [done | lia].
  - exists 0. split; [done | lia].
Qed.

(** X21: a call of [crawlCommentsOnce] never throws, whatever the
    functions it is given do, and the number of updates it reports lies
    between 0 and the number of entries of the list. *)
Theorem crawlCommentsOnce_counts_updates (commentList : list CommentEntry)
    (getComment : string → string → M (option CommentEntry))
    (saveComment : CommentEntry → M (option CommentEntry))
    (adjustUnread : Js.Num → M unit) (w : World) :
  ∃ n, (crawlCommentsOnce commentList getComment saveComment adjustUnread w).1
       = Return n
       ∧ 0 ≤ n ≤ Z.of_nat (length commentList).
Proof. apply crawlCommentsOnce_count. Qed.

(** X22: while crawling is switched off a cycle visits no entry: with the
    stored flag [false] and the read of it working, [crawlCommentsOnce]
    returns 0 without calling any of the functions it was given; nothing
    is fetched or written, no time passes, and [isCrawling] is clear
    again.  A read of the flag that throws counts as [true]. *)
Theorem paused_crawler_visits_nothing (commentList : list CommentEntry)
    (getComment : string → string → M (option CommentEntry))
    (saveComment : CommentEntry → M (option CommentEntry))
    (adjustUnread : Js.Num → M unit) (w : World) :
  (isCrawling w = false → crawler_enabled w = Some false →
   call_fails w = false →
   let run := crawlCommentsOnce commentList getComment saveComment
                adjustUnread w in
   run.1 = Return 0 ∧ quiet w run.2 ∧ clock run.2 = clock w)
  ∧ (call_fails w = true → (crawlerEnabled w).1 = Return true).
Proof.
  split.
  - intros Hflag Hoff Hcall. cbv zeta. unfold crawlCommentsOnce.
    rewrite Hflag. unfold try_catch.
    destruct commentList as [|comment l]; [by repeat split|].
    cbn [crawlLoop]. rewrite bind_run. unfold crawlIteration.
    rewrite bind_run, crawlerEnabled_run.
    change (call_fails (with_isCrawling true w)) with (call_fails w).
    change (crawler_enabled (with_isCrawling true w)) with (crawler_enabled w).
    rewrite Hcall, Hoff. cbn. by repeat split.
  - intros Hcall. by rewrite crawlerEnabled_run, Hcall.
Qed.

Lemma paused_crawler_visits_nothing_witness :
  let w := mkWorld (local_comments sample_world) (Some 5) (Some false)
             (commentCache sample_world) false 5000 [] [Some 7] [] in
  (crawlCommentsOnce [sample_entry] getCommentFromCache saveComment
     adjustUnread w).1 = Return 0
  ∧ (crawlerEnabled (with_faults [true] sample_world)).1 = Return true.
Proof.
  intros w. split.
  - apply (proj1 (paused_crawler_visits_nothing [sample_entry]
                    getCommentFromCache saveComment adjustUnread w));
      reflexivity.
  - apply (proj2 (paused_crawler_visits_nothing [sample_entry]
                    getCommentFromCache saveComment adjustUnread
                    (with_faults [true] sample_world))). reflexivity.
Defined.

(** X23: what the reconciliation of one entry saves.  Nothing is saved
    exactly when the reply count is the stored one and the stored unread
    count is [null] or a number that is not negative; a negative unread
    count is brought back to 0 and a missing one is filled in.  What is
    saved is stable: reconciling the saved entry again with the same
    reply count saves nothing. *)
Theorem unchanged_entry_is_not_saved (prev : CommentEntry) (r now : Z) :
  (reconcile prev r now = None
   ↔ resCount prev = Js.Val r
     ∧ (unreadCount prev = Js.Null
        ∨ ∃ u, unreadCount prev = Js.Val u ∧ 0 ≤ u))
  ∧ (∀ upd delta now',
       reconcile prev r now = Some (upd, delta) →
       reconcile upd r now' = None).
Proof.
  assert (∀ e t,
    reconcile e r t = None
    ↔ resCount e = Js.Val r
      ∧ (unreadCount e = Js.Null ∨ ∃ u, unreadCount e = Js.Val u ∧ 0 ≤ u))
    as Hidle.
  { intros e t. unfold reconcile, newUnreadCount.
    destruct (resCount e) as [| |p].
    { cbn [Js.strict_ne]. rewrite orb_true_r. split; [done | by intros [[=] _]]. }
    { cbn [Js.strict_ne]. rewrite orb_true_r. split; [done | by intros [[=] _]]. }
    cbn [Js.strict_ne].
    destruct (Z.eqb_spec r p) as [->|Hne]; cbn [negb].
    2: { rewrite orb_true_r. split; [done|]. intros [[= ->] _]. done. }
    rewrite orb_false_r. destruct (unreadCount e) as [| |u];
      cbn [Js.nullish Js.ToNumber Js.sub Js.nonzero].
    - split; [done|]. by intros [_ [[=]|(? & [=] & _)]].
    - replace (p - p + 0) with 0 by lia. cbn. split; [intros _|done].
      split; [done | by left].
    - replace (p - p + u) with u by lia.
      destruct (Z.eqb_spec (Z.max 0 u - u) 0) as [Hz|Hnz]; cbn [negb].
      + split; [intros _|done]. split; [done|]. right. exists u.
        split; [done | lia].
      + split; [done|]. intros [_ [[=]|(u' & [= <-] & Hu)]]. lia. }
  split; [apply Hidle|].
  intros upd delta now' [-> _]%reconcile_counts. apply Hidle.
  split; [done|]. right. eexists. split; [done|]. apply newUnreadCount_nonneg.
Qed.

(** X24: an entry is passed over as old exactly when its [postedAt] is a
    date the host can parse that lies 31 days or more before the clock;
    an entry without [postedAt], or with one that cannot be parsed, is
    never passed over. *)
Theorem skipped_exactly_when_old (prev : CommentEntry) (now : Z) :
  skipped_as_old prev now = true
  ↔ ∃ posted, postedAt prev = Js.Instant posted
              ∧ days_ms CRAWLER_CONFIG.SKIP_AFTER_DAYS ≤ now - posted.
Proof.
  destruct (postedAt prev) as [| |posted] eqn:Hp.
  - unfold skipped_as_old. rewrite Hp. split; [done | by intros (? & [=] & _)].
  - unfold skipped_as_old. rewrite Hp. split; [done | by intros (? & [=] & _)].
  - rewrite (skipped_as_old_instant prev posted) by done.
    rewrite bool_decide_eq_true. split.
    + intros Hold. by exists posted.
    + by intros (? & [= <-] & Hold).
Qed.

(** X25: the comment service never writes the unread total: neither
    [saveComment], which may evict entries that still have unread
    replies, nor [deleteComment] changes the stored total or adds to the
    history of its writes. *)
Theorem comment_service_leaves_the_total (w : World) :
  (∀ entry, accounted (saveComment entry w).2 = accounted w)
  ∧ (∀ t c, accounted (deleteComment t c w).2 = accounted w).
Proof.
  split.
  - intros entry. apply (saveComment_keeps_accounted entry w).
  - intros t c.
    apply (respects_deleteComment (keeps accounted));
      first [apply _ | by intros; unfold keeps].
Qed.
(** ** The router *)

Lemma try_catch_returns {A} (m : M A) (a : A) (w : World) :
  ∃ r, (try_catch m (mret a) w).1 = Return r.
Proof. unfold try_catch. destruct (m w) as [[x|] w1]; by eexists. Qed.

(** X26: [routeMessage] never throws: whatever a handler throws becomes
    an answer with [ok: false].  A request whose identifiers are missing,
    empty or not valid is answered with [ok: false] and an error text, and
    changes nothing: no storage call is made and nothing is fetched.
    [crawl-now] runs one crawl cycle and reports whether it updated an
    entry. *)
Theorem routeMessage_answers (message : MessageRequest)
    (adjust : Js.Num → M unit) (w : World) :
  (∃ answer, (routeMessage message adjust w).1 = Return answer)
  ∧ (acceptable message = false →
     ∃ e, routeMessage message adjust w = (Return (failure e), w))
  ∧ ∃ n, (crawlCycle w).1 = Return n
         ∧ routeMessage crawl_now adjustUnread w
           = (Return (mkMessageResponse true None (Some (0 <? n)) None None),
              (crawlCycle w).2).
Proof.
  split; [|split].
  - apply try_catch_returns.
  - unfold routeMessage, try_catch, acceptable, valid_id.
    destruct message as [|[entry|]|[[|a t]|] [[|b c]|]|[[|a t]|]|[[|a t]|] [[|b c]|]|];
      cbn [missing orb default from_option id andb]; try done;
      rewrite ?andb_false_r; try (intros _; by eexists).
    + unfold handleUpsertComment.
      destruct (validateTopicId _), (validateCommentNumber _); cbn [negb andb];
        try done; intros _; by eexists.
    + unfold handleRemoveComment.
      destruct (validateTopicId _), (validateCommentNumber _); cbn [negb andb];
        try done; intros _; by eexists.
    + unfold handleRemoveTopic. intros ->. by eexists.
    + unfold handleClearUnread.
      destruct (validateTopicId _), (validateCommentNumber _); cbn [negb andb];
        try done; intros _; by eexists.
  - destruct (crawlCommentsOnce_count (commentCache w).*2 getCommentFromCache
                saveComment adjustUnread w) as (n & Hn & _).
    exists n.
    unfold routeMessage, try_catch, handleCrawlNow, crawlCycle,
      getAllCommentsFromCache.
    rewrite !bind_run. cbn [gets]. rewrite !bind_run.
    destruct (crawlCommentsOnce _ _ _ _ w) as [res w1]. cbn [fst snd] in *.
    by subst res.
Qed.

Lemma routeMessage_answers_witness :
  ∃ e, routeMessage (remove_comment (Some "12a45") (Some "501")) adjustUnread
         sample_world = (Return (failure e), sample_world).
Proof.
  apply (proj1 (proj2 (routeMessage_answers
                         (remove_comment (Some "12a45") (Some "501"))
                         adjustUnread sample_world))).
  reflexivity.
Defined.
(** ** The pace of the crawler *)

#[global] Instance waits_preorder : PreOrder waits.
Proof.
  split.
  - intros w. split; [lia | done].
  - intros w1 w2 w3 [H12 R12] [H23 R23]. split; [lia | congruence].
Qed.

#[global] Instance paced_preorder : PreOrder paced.
Proof.
  unfold paced, CRAWLER_CONFIG.ACTIVE_DELAY_MS. split.
  - intros w. lia.
  - intros w1 w2 w3 [H12 R12] [H23 R23]. lia.
Qed.

Lemma requests_log (e : Event) (w : World) :
  requests (log e w) = requests w + (if is_fetch e then 1 else 0).
Proof.
  unfold requests. cbn [trace log]. destruct (is_fetch e) eqn:He.
  - rewrite filter_cons_True by done. cbn [length]. lia.
  - rewrite filter_cons_False by (by rewrite He). lia.
Qed.

Lemma saveAndAdjust_waits (upd : CommentEntry) (delta : Js.Num) :
  respects waits (saveAndAdjust saveComment adjustUnread upd delta).
Proof.
  apply kept_by_saveAndAdjust; try apply _.
  - intros w. split; [done | done].
  - intros w ms Hms. split; [cbn; lia | done].
  - intros w e He. split; [done|]. by rewrite requests_log, He, Z.add_0_r.
  - by intros w m.
  - by intros w c.
  - by intros w n _.
Qed.

Lemma fetch_pace (t c : string) (w : World) :
  let w1 := (fetchResCountForComment t c w).2 in
  clock w1 = clock w ∧ requests w ≤ requests w1 ≤ requests w + 1.
Proof.
  cbv zeta. unfold fetchResCountForComment.
  destruct (_ || _); [cbn; lia|].
  rewrite bind_run. unfold fetch_and_parse. cbn [remote log].
  destruct (remote w) as [|[r|] rest]; cbn [mret M_ret snd];
    try destruct (0 <=? r); cbn [mret M_ret snd];
    (split; [done|]);
    change (requests (with_remote ?r ?w0)) with (requests w0);
    rewrite requests_log; cbn [is_fetch]; lia.
Qed.

Lemma crawlEntry_pace (comment : CommentEntry) (w : World) :
  let w' := (crawlEntry getCommentFromCache saveComment adjustUnread comment w).2 in
  clock w ≤ clock w' ∧ requests w ≤ requests w' ≤ requests w + 1.
Proof.
  cbv zeta. rewrite crawlEntry_run. cbv zeta.
  destruct (skipped_as_old _ _); [cbn; lia|].
  pose proof (fetch_pace (topicId comment) (commentNumber comment) w) as Hfetch.
  cbv zeta in Hfetch.
  destruct (fetchResCountForComment _ _ w) as [[[r|]|] w1]; cbn [snd] in *;
    try lia.
  destruct (reconcile _ _ _) as [[upd delta]|]; cbn [snd]; [|lia].
  destruct (saveAndAdjust_waits upd delta w1) as [Hclock Hreq]. lia.
Qed.

Lemma crawlIteration_pace (comment : CommentEntry) (n : Z) (w : World) :
  let w' := (crawlIteration getCommentFromCache saveComment adjustUnread
               comment n w).2 in
  paced w w' ∧ requests w' ≤ requests w + 1.
Proof.
  cbv zeta. unfold crawlIteration. rewrite bind_run, crawlerEnabled_run.
  unfold paced, CRAWLER_CONFIG.ACTIVE_DELAY_MS.
  destruct (if call_fails w then true else default true (crawler_enabled w));
    cbn [negb].
  2: { cbn [mret M_ret snd].
       change (requests (after_call w)) with (requests w).
       change (clock (after_call w)) with (clock w). lia. }
  rewrite bind_run. unfold try_catch.
  pose proof (crawlEntry_pace comment (after_call w)) as Hentry.
  cbv zeta in Hentry.
  change (requests (after_call w)) with (requests w) in Hentry.
  change (clock (after_call w)) with (clock w) in Hentry.
  assert (∀ (b : bool) w2,
    clock w ≤ clock w2 → requests w ≤ requests w2 ≤ requests w + 1 →
    let w' := ((enabledAfter ← afterEntry;
                mret (enabledAfter, if b then n + 1 else n)) w2).2 in
    (requests w ≤ requests w' ∧ 3000 * (requests w' - requests w)
                                  ≤ clock w' - clock w)
    ∧ requests w' ≤ requests w + 1) as Hafter.
  { intros b w2 Hclock Hreq. cbv zeta.
    rewrite bind_run, afterEntry_run, crawlerEnabled_run. cbn [mret M_ret snd].
    change (requests (after_call (with_clock ?t w2))) with (requests w2).
    change (clock (after_call (with_clock ?t w2))) with t.
    unfold CRAWLER_CONFIG.ACTIVE_DELAY_MS. lia. }
  destruct (crawlEntry _ _ _ comment (after_call w)) as [[b|] w2];
    cbn [snd] in Hentry.
  - apply Hafter; lia.
  - cbn [mret M_ret]. apply (Hafter false); lia.
Qed.

Lemma crawlLoop_pace (l : list CommentEntry) (n : Z) (w : World) :
  let w' := (crawlLoop getCommentFromCache saveComment adjustUnread l n w).2 in
  paced w w' ∧ requests w' ≤ requests w + Z.of_nat (length l).
Proof.
  revert n w. induction l as [|comment l IH]; intros n w; cbv zeta.
  { cbn [crawlLoop mret M_ret snd length]. split; [reflexivity | lia]. }
  cbn [crawlLoop]. rewrite bind_run.
  destruct (crawlIteration_pace comment n w) as [Hpaced Hreq].
  destruct (crawlIteration _ _ _ comment n w) as [[[continue n1]|] w1];
    cbn [snd length] in *; [|split; [done | lia]].
  destruct continue.
  - destruct (IH n1 w1) as [Hpaced2 Hreq2]. split; [by etrans | lia].
  - cbn [mret M_ret snd]. split; [done | lia].
Qed.

(** X27: a crawl cycle paces its requests to the site: it makes at most
    one request for each tracked comment, and for each request it makes
    the clock advances by at least [ACTIVE_DELAY_MS] (3 seconds) before
    the cycle ends, whichever storage calls fail and whatever the site
    answers. *)
Theorem crawl_cycle_is_paced (w : World) :
  paced w (crawlCycle w).2
  ∧ requests (crawlCycle w).2
    ≤ requests w + Z.of_nat (length (commentCache w)).
Proof.
  unfold crawlCycle, getAllCommentsFromCache. rewrite bind_run. cbn [gets].
  unfold crawlCommentsOnce. destruct (isCrawling w).
  { cbn [snd]. split; [reflexivity | lia]. }
  unfold try_catch.
  destruct (commentCache w).*2 as [|c l] eqn:Hl.
  { cbn [mret M_ret snd]. split; [|change (requests _) with (requests w) at 1; lia].
    unfold paced. change (requests (with_isCrawling _ _)) with (requests w).
    change (clock (with_isCrawling _ _)) with (clock w).
    unfold CRAWLER_CONFIG.ACTIVE_DELAY_MS. lia. }
  destruct (crawlLoop_pace (c :: l) 0 (with_isCrawling true w)) as [Hpaced Hreq].
  assert (length (c :: l) = length (commentCache w)) as Hlen.
  { rewrite <- Hl. apply length_fmap. }
  rewrite Hlen in Hreq. unfold paced in *.
  change (requests (with_isCrawling true w)) with (requests w) in *.
  change (clock (with_isCrawling true w)) with (clock w) in *.
  destruct (crawlLoop _ _ _ (c :: l) 0 _) as [[n|] w1]; cbn [mret M_ret snd] in *;
    change (requests (with_isCrawling false w1)) with (requests w1);
    change (clock (with_isCrawling false w1)) with (clock w1); lia.
Qed.
(** ** Validation of strings and keys *)

Lemma dot_star_app (s r : string) :
  dot_star (s +:+ r) = dot_star s && dot_star r.
Proof.
  induction s as [|a s IH]; [done|].
  rewrite append_String. cbn [dot_star]. by rewrite IH, andb_assoc.
Qed.

Lemma dot_star_digits (s : string) : all_digits s = true → dot_star s = true.
Proof.
  induction s as [|a s IH]; [done|].
  cbn [all_digits dot_star]. intros [Ha Hs]%andb_true_iff. rewrite IH by done.
  destruct a as [[] [] [] [] [] [] [] []]; done.
Qed.

(** X28: the validators agree with each other and with the store: an
    identifier is accepted by [validateTopicId] exactly when it is a
    numeric string of at most ten characters, and the storage key that
    the store builds for valid identifiers is accepted by
    [validateStorageKey]. *)
Theorem validated_ids_make_valid_keys (t c : string) :
  validateTopicId t = isNumericString t && validateTextLength t 10
  ∧ (validateTopicId t = true → validateCommentNumber c = true →
     validateStorageKey (getStorageKey t c) = true).
Proof.
  split.
  - unfold validateTopicId, matches_ID, isNumericString, validateTextLength.
    destruct t as [|a t]; [done|]. cbn [String.eqb String.length negb].
    change (1 <=? S (String.length t))%nat with true. cbn [andb].
    apply andb_comm.
  - intros Ht%validateTopicId_digits Hc%validateTopicId_digits.
    unfold validateStorageKey, matches_STORAGE_KEY.
    unfold getStorageKey at 1. rewrite prefix_append. cbn [andb].
    change (String_slice 6 (getStorageKey t c))
      with (COMMENT_PREFIX +:+ t +:+ ":" +:+ c)%string.
    unfold dot_plus. rewrite !dot_star_app.
    rewrite (dot_star_digits t), (dot_star_digits c) by done. done.
Qed.

Lemma validated_ids_make_valid_keys_witness :
  validateStorageKey (getStorageKey "12345" "501") = true.
Proof.
  apply (proj2 (validated_ids_make_valid_keys "12345" "501")); reflexivity.
Defined.
(** ** Retrying *)

Lemma withRetry_loop_fails {A} (fn : M A) (maxRetries : nat) (d : Z)
    (exponential : bool) (remaining : nat) (w : World) :
  (remaining ≤ maxRetries)%nat →
  (∀ w0, (fn w0).1 = Throw ∧ clock (fn w0).2 = clock w0) →
  let run := withRetry_loop fn maxRetries d exponential remaining w in
  let attempt := Z.of_nat ((maxRetries - remaining) `min` (maxRetries - 1)) in
  let last := Z.of_nat (maxRetries - 1) in
  run.1 = Throw
  ∧ clock run.2
    = clock w + (if exponential then d * (2 ^ last - 2 ^ attempt)
                 else d * (last - attempt)).
Proof.
  intros Hle Hfn. cbv zeta. revert w Hle.
  induction remaining as [|remaining IH]; intros w Hle.
  { cbn [withRetry_loop throw fst snd]. split; [done|].
    rewrite Nat.sub_0_r, Nat.min_r by lia. destruct exponential; lia. }
  cbn [withRetry_loop]. unfold try_catch.
  destruct (Hfn w) as [Hthrow Hclock].
  destruct (fn w) as [res w1]. cbn [fst snd] in *. subst res.
  rewrite bind_run.
  set (attempt := (maxRetries - S remaining)%nat).
  assert ((maxRetries - remaining)%nat = S attempt) as Hnext
    by (subst attempt; lia).
  destruct (Nat.ltb_spec attempt (maxRetries - 1)) as [Hlt|Hge].
  - cbv zeta. cbn [sleep modify].
    destruct (IH (with_clock
                    (clock w1 + (if exponential then d * 2 ^ Z.of_nat attempt
                                 else d)) w1)) as [Hr Hc]; [lia|].
    split; [done|]. rewrite Hc, Hnext. cbn [clock with_clock]. rewrite Hclock.
    rewrite (Nat.min_l (S attempt)), (Nat.min_l attempt) by lia.
    rewrite Nat2Z.inj_succ. destruct exponential.
    + rewrite Z.pow_succ_r by lia. lia.
    + lia.
  - cbn [mret M_ret]. destruct (IH w1) as [Hr Hc]; [lia|].
    split; [done|]. rewrite Hc, Hnext, Hclock.
    rewrite !Nat.min_r by lia. done.
Qed.

(** X29: [withRetry] calls the function until it returns and at most
    [maxRetries] times.  With no attempt allowed it throws at once; a
    function that returns at its first call is called once, with no
    delay; when every call throws (and the delay is not negative),
    [withRetry] throws after having waited
    [initialDelayMs * (2^(maxRetries - 1) - 1)] milliseconds with
    exponential back-off and [initialDelayMs * (maxRetries - 1)] without,
    there being no wait after the last attempt. *)
Theorem withRetry_gives_up (A : Type) (fn : M A) (maxRetries : nat)
    (initialDelayMs : Z) (useExponentialBackoff : bool) (w : World) :
  withRetry fn 0 initialDelayMs useExponentialBackoff w = (Throw, w)
  ∧ (∀ a, (fn w).1 = Return a →
          withRetry fn (S maxRetries) initialDelayMs useExponentialBackoff w
          = fn w)
  ∧ (0 ≤ initialDelayMs →
     (∀ w0, (fn w0).1 = Throw ∧ clock (fn w0).2 = clock w0) →
     let run := withRetry fn maxRetries initialDelayMs useExponentialBackoff w in
     let last := Z.of_nat (maxRetries - 1) in
     run.1 = Throw
     ∧ clock run.2
       = clock w + (if useExponentialBackoff
                    then initialDelayMs * (2 ^ last - 1)
                    else initialDelayMs * last)).
Proof.
  split; [done|]. split.
  - intros a Ha. unfold withRetry. cbn [withRetry_loop]. unfold try_catch.
    destruct (fn w) as [res w1]. cbn [fst] in Ha. by subst res.
  - intros _ Hfn. cbv zeta. unfold withRetry.
    destruct (withRetry_loop_fails fn maxRetries initialDelayMs
                useExponentialBackoff maxRetries w) as [Hr Hc]; [done..|].
    split; [done|]. rewrite Hc, Nat.sub_diag, Nat.min_0_l.
    change (2 ^ Z.of_nat 0) with 1. destruct useExponentialBackoff; lia.
Qed.

Lemma withRetry_gives_up_witness :
  (withRetry (throw (A := unit)) 3 100 true sample_world).1 = Throw
  ∧ clock (withRetry (throw (A := unit)) 3 100 true sample_world).2
    = clock sample_world + 100 * (2 ^ Z.of_nat (3 - 1) - 1).
Proof.
  apply (proj2 (proj2 (withRetry_gives_up unit throw 3 100 true sample_world)));
    [lia | by intros w0].
Defined.
